(** * AI photo assistant: batch screening, indexing and search pipeline

    A shallow embedding of the Python backend ([backend/main.py],
    [backend/photo_quality_checker.py], [backend/semantic_search.py],
    [backend/config.py]) together with the properties its specification
    states about it.

    Conventions of the embedding.
    - Python [str] values are [string]s of bytes (UTF-8).  Comparing two
      such strings byte by byte gives the same order as comparing the
      Python strings code point by code point.
    - Python [float] values are modelled by exact rationals ([Q]); [int(x)]
      is truncation towards zero.  Concrete evaluations below are chosen
      away from rounding boundaries.
    - A Python [dict] used as a map is a [gmap], a [set] is a [gset].
    - Code that may raise returns a [result]; code that mutates shared
      state threads that state explicitly.
    - Everything outside the repository (the file system, OpenCV, CLIP,
      ChromaDB) is an explicit environment record. *)

From Stdlib Require Import ZArith QArith Qround Qabs Qminmax Lia Lqa Ascii.
From stdpp Require Import gmap strings list sorting pretty.

Local Open Scope Z_scope.

(** ** Python runtime fragments *)

Module Py.

(** A computation that either returns a value or raises an exception
    carrying a message. *)
Inductive result (A : Type) : Type :=
| Ok (a : A)
| Raise (msg : string).
Arguments Ok {A} a.
Arguments Raise {A} msg.

Definition is_ok {A} (r : result A) : bool :=
  match r with Ok _ => true | Raise _ => false end.

(** [int(x)] on a float: truncation towards zero. *)
Definition int (x : Q) : Z := Z.quot (Qnum x) (Zpos (Qden x)).

(** [x / y] on two ints: true division, a float. *)
Definition truediv (x y : Z) : Q := (inject_Z x / inject_Z y)%Q.

(** [s.endswith(suffix)]. *)
Definition endswith (s suffix : string) : bool :=
  let n := String.length s in
  let k := String.length suffix in
  (k <=? n)%nat && String.eqb (String.substring (n - k) k s) suffix.

(** [s.startswith(prefix)]. *)
Definition startswith (s pre : string) : bool := String.prefix pre s.

(** ASCII lower-casing of one byte, as [str.lower] does on ASCII text. *)
Definition lower_ascii (c : ascii) : ascii :=
  let n := nat_of_ascii c in
  if ((65 <=? n) && (n <=? 90))%nat then ascii_of_nat (n + 32) else c.

Fixpoint lower (s : string) : string :=
  match s with
  | EmptyString => EmptyString
  | String c s' => String (lower_ascii c) (lower s')
  end.

(** The order [list.sort] uses on [str]. *)
Definition str_le (s1 s2 : string) : Prop := String.leb s1 s2 = true.

#[global] Instance str_le_dec : RelDecision str_le.
Proof. intros s1 s2. unfold str_le. apply _. Defined.

(** [range(0, stop, step)]: the start offsets of the successive slices.
    A zero step raises [ValueError]; a negative step gives the empty
    range when [0 <= stop]. *)
Fixpoint range_from (fuel : nat) (start stop step : Z) : list Z :=
  match fuel with
  | O => []
  | S fuel' =>
      if start <? stop
      then start :: range_from fuel' (start + step) stop step
      else []
  end.

Definition range (stop step : Z) : result (list Z) :=
  if step =? 0 then Raise "range() arg 3 must not be zero"
  else if step <? 0 then Ok []
  else Ok (range_from (Z.to_nat stop) 0 stop step).

(** [len(l)]. *)
Definition len {A} (l : list A) : Z := Z.of_nat (length l).

(** [a < b] on floats. *)
Definition lt (a b : Q) : bool := negb (Qle_bool b a).

(** [max(a, b)] and [min(a, b)] on floats: the first argument is kept
    unless the second is strictly better. *)
Definition max (a b : Q) : Q := if lt a b then b else a.
Definition min (a b : Q) : Q := if lt b a then b else a.

(** [abs(x)] on a float. *)
Definition abs (x : Q) : Q := Qabs x.

(** [sum(l)] on floats. *)
Definition sum (l : list Q) : Q := foldl Qplus 0%Q l.

(** [l[i:j]] for [0 <= i]. *)
Definition slice {A} (l : list A) (i j : Z) : list A :=
  take (Z.to_nat (j - i)) (drop (Z.to_nat i) l).

(** State and exceptions: a computation reads and writes a state [S]
    and either returns or raises; the state written before a raise is
    kept, as Python keeps mutations made before an exception. *)
Definition M (S A : Type) : Type := S → result A * S.

Definition ret {S A} (a : A) : M S A := λ st, (Ok a, st).
Definition raise {S A} (msg : string) : M S A := λ st, (Raise msg, st).
Definition bind {S A B} (m : M S A) (k : A → M S B) : M S B :=
  λ st, match m st with
        | (Ok a, st') => k a st'
        | (Raise msg, st') => (Raise msg, st')
        end.
(** [try: m except Exception as e: h(str(e))]. *)
Definition try_except {S A} (m : M S A) (h : string → M S A) : M S A :=
  λ st, match m st with
        | (Ok a, st') => (Ok a, st')
        | (Raise msg, st') => h msg st'
        end.
Definition lift {S A} (r : result A) : M S A := λ st, (r, st).
Definition get {S} : M S S := λ st, (Ok st, st).
Definition put {S} (st : S) : M S unit := λ _, (Ok tt, st).

End Py.

Export Py.

#[global] Instance M_ret {S} : MRet (M S) := λ A, @Py.ret S A.
#[global] Instance M_bind {S} : MBind (M S) := λ A B k m, @Py.bind S A B m k.

(** ** Operating-system flavour

    [glob] matches names through [os.path.normcase], which is the identity
    on POSIX and lower-cases on Windows. *)

Inductive os_flavour : Type := Posix | Nt.

Definition sep (os : os_flavour) : string :=
  match os with Posix => "/" | Nt => "\" end.

Definition normcase (os : os_flavour) (s : string) : string :=
  match os with Posix => s | Nt => lower s end.

(** [os.path.join(folder, name)] for a relative [name]. *)
Definition os_path_join (os : os_flavour) (folder name : string) : string :=
  if (String.eqb folder "" || endswith folder (sep os) || endswith folder "/")%bool
  then folder +:+ name
  else folder +:+ sep os +:+ name.

(** ** Scanner ([get_image_files], main.py) *)

Module Scanner.

Definition image_extensions : list string :=
  [".jpg"; ".jpeg"; ".png"; ".bmp"; ".JPG"; ".JPEG"; ".PNG"; ".BMP"].

(** [glob._ishidden]: a name starting with a dot is skipped by a pattern
    that does not itself start with a dot. *)
Definition ishidden (name : string) : bool := startswith name ".".

(** [fnmatch] of [name] against the pattern ["*" + ext], where [ext] has
    no wildcard: the normalised name ends with the normalised [ext]. *)
Definition fnmatch_star (os : os_flavour) (name ext : string) : bool :=
  endswith (normcase os name) (normcase os ext).

(** [glob.glob(os.path.join(folder, "*" + ext))] over the entries
    [names] of [folder] (empty when the folder does not exist).  The
    folder path is taken to contain no wildcard characters. *)
Definition glob_glob (os : os_flavour) (names : list string)
    (folder ext : string) : list string :=
  os_path_join os folder <$>
    filter (λ name, ishidden name = false ∧ fnmatch_star os name ext = true) names.

Definition get_image_files (os : os_flavour) (names : list string)
    (folder_path : string) : list string :=
  let photo_paths :=
    foldl (λ acc ext, acc ++ glob_glob os names folder_path ext) [] image_extensions in
  let photo_paths := elements (list_to_set photo_paths : gset string) in
  merge_sort str_le photo_paths.

End Scanner.

(** ** Configuration ([config.py])

    Every field is read from an environment variable with a default. *)

Module Config.

Record t : Type := {
  MAX_WORKERS : Z;
  BATCH_SIZE : Z;
  IMAGE_CACHE_SIZE : Z;
  BLUR_THRESHOLD : Q;
  OVEREXPOSURE_THRESHOLD : Q;
  UNDEREXPOSURE_THRESHOLD : Q;
  MAX_IMAGE_SIZE : Z;
  RESIZE_SCALE : Q;
  SEARCH_BATCH_SIZE : Z
}.

Definition default : t := {|
  MAX_WORKERS := 2;
  BATCH_SIZE := 10;
  IMAGE_CACHE_SIZE := 30;
  BLUR_THRESHOLD := 30;
  OVEREXPOSURE_THRESHOLD := 0.95;
  UNDEREXPOSURE_THRESHOLD := 0.05;
  MAX_IMAGE_SIZE := 500000;
  RESIZE_SCALE := 0.25;
  SEARCH_BATCH_SIZE := 25
|}.

End Config.

(** ** Quality screening ([photo_quality_checker.py]) *)

Module QualityChecker.

(** What OpenCV and NumPy provide, over an abstract type of decoded
    grayscale arrays. *)
Record Cv2 (image : Type) : Type := {
  (** [cv2.imread(path, cv2.IMREAD_GRAYSCALE)]: an array, [None] when the
      file cannot be decoded, or an exception. *)
  imread : string → result (option image);
  (** [img.shape], as (height, width). *)
  shape : image → Z * Z;
  (** [cv2.resize(img, (new_w, new_h))]. *)
  resize : image → Z → Z → result image;
  (** [np.var(cv2.Laplacian(img, cv2.CV_64F, ksize=3))]. *)
  laplacian_var : image → result Q;
  (** [img[::5, ::5]]. *)
  subsample5 : image → image;
  (** [cv2.calcHist([img], [0], None, [64], [0, 256])], 64 bucket counts. *)
  calcHist64 : image → result (list Q)
}.
Arguments imread {image}.
Arguments shape {image}.
Arguments resize {image}.
Arguments laplacian_var {image}.
Arguments subsample5 {image}.
Arguments calcHist64 {image}.

(** The per-detector dictionaries; a key that a branch leaves out is
    [None] here. *)
Record BlurResult : Type := {
  blur_score : option Q;
  blur_is_defective : bool;
  blur_defect_type : option string
}.

Record ExposureResult : Type := {
  overexposed_ratio : option Q;
  underexposed_ratio : option Q;
  exposure_is_defective : bool;
  exposure_defect_type : option string
}.

Record EyesResult : Type := {
  closed_eyes_count : Z;
  eyes_is_defective : bool;
  eyes_defect_type : option string
}.

(** The ["details"] dictionary: the empty dict, or the three detector
    entries under the keys ["blur"], ["eyes"], ["exposure"]. *)
Inductive Details : Type :=
| EmptyDetails
| DetectorDetails (blur : BlurResult) (eyes : EyesResult) (exposure : ExposureResult).

Record QualityReport : Type := {
  image_path : string;
  is_defective : bool;
  defect_types : list string;
  details : Details
}.

(** Truthiness of an optional string: [None] and [""] are false. *)
Definition truthy (o : option string) : bool :=
  match o with
  | Some s => negb (String.eqb s "")
  | None => false
  end.

Section checker.
Context {image : Type} (cv : Cv2 image) (cfg : Config.t).

(** [self.image_cache], the only mutable attribute of the checker. *)
Definition Cache : Type := gmap string image.

Definition _get_gray_image (image_path : string) : M Cache (option image) :=
  cache ← Py.get;
  match cache !! image_path with
  | Some img => mret (Some img)
  | None =>
      try_except
        (o ← lift (imread cv image_path);
         match o with
         | None => mret None
         | Some img_gray =>
             let '(h, w) := shape cv img_gray in
             img_gray ←
               (if Config.MAX_IMAGE_SIZE cfg <? h * w then
                  let new_h := int (inject_Z h * Config.RESIZE_SCALE cfg) in
                  let new_w := int (inject_Z w * Config.RESIZE_SCALE cfg) in
                  lift (resize cv img_gray new_w new_h)
                else mret img_gray);
             (if Z.of_nat (size cache) <? Config.IMAGE_CACHE_SIZE cfg
              then put (<[image_path := img_gray]> cache)
              else mret tt);;
             mret (Some img_gray)
         end)
        (λ _, mret None)
  end.

Definition detect_blur (image_path : string) : M Cache BlurResult :=
  o ← _get_gray_image image_path;
  match o with
  | None =>
      mret {| blur_score := None; blur_is_defective := false;
              blur_defect_type := None |}
  | Some img_gray =>
      blur_score ← lift (laplacian_var cv img_gray);
      let is_blurry := Py.lt blur_score (Config.BLUR_THRESHOLD cfg) in
      mret {| blur_score := Some blur_score; blur_is_defective := is_blurry;
              blur_defect_type := if is_blurry then Some "blur" else None |}
  end.

Definition detect_exposure (image_path : string) : M Cache ExposureResult :=
  o ← _get_gray_image image_path;
  match o with
  | None =>
      mret {| overexposed_ratio := None; underexposed_ratio := None;
              exposure_is_defective := false; exposure_defect_type := None |}
  | Some img_gray =>
      let '(h, w) := shape cv img_gray in
      let sample := if 1000000 <? h * w then subsample5 cv img_gray else img_gray in
      hist ← lift (calcHist64 cv sample);
      let total_pixels := (shape cv sample).1 * (shape cv sample).2 in
      let overexposed_pixels := (Py.sum (drop 60 hist) / inject_Z total_pixels)%Q in
      let underexposed_pixels := (Py.sum (take 4 hist) / inject_Z total_pixels)%Q in
      let is_overexposed :=
        Py.lt (Config.OVEREXPOSURE_THRESHOLD cfg) overexposed_pixels in
      let is_underexposed :=
        Py.lt (Config.UNDEREXPOSURE_THRESHOLD cfg) underexposed_pixels in
      let is_defective := is_overexposed || is_underexposed in
      let defect_type :=
        if is_overexposed then Some "overexposed"
        else if is_underexposed then Some "underexposed"
        else None in
      mret {| overexposed_ratio := Some overexposed_pixels;
              underexposed_ratio := Some underexposed_pixels;
              exposure_is_defective := is_defective;
              exposure_defect_type := defect_type |}
  end.

Definition detect_closed_eyes (image_path : string) : M Cache EyesResult :=
  mret {| closed_eyes_count := 0; eyes_is_defective := false;
          eyes_defect_type := None |}.

(** [defect_types.append(t)] guarded by [if t:]. *)
Definition append_if_truthy (defect_types : list string) (t : option string)
    : list string :=
  match t with
  | Some s => if truthy t then defect_types ++ [s] else defect_types
  | None => defect_types
  end.

Definition check_photo_quality (image_path : string) : M Cache QualityReport :=
  blur_result ← detect_blur image_path;
  exposure_result ← detect_exposure image_path;
  eyes_result ← detect_closed_eyes image_path;
  let is_defective :=
    blur_is_defective blur_result
    || eyes_is_defective eyes_result
    || exposure_is_defective exposure_result in
  let defect_types := [] in
  let defect_types := append_if_truthy defect_types (blur_defect_type blur_result) in
  let defect_types := append_if_truthy defect_types (eyes_defect_type eyes_result) in
  let defect_types := append_if_truthy defect_types (exposure_defect_type exposure_result) in
  mret {| image_path := image_path;
          is_defective := is_defective;
          defect_types := defect_types;
          details := DetectorDetails blur_result eyes_result exposure_result |}.

Definition clear_cache : M Cache unit := put ∅.

(** [process_batch_photos] of main.py: one report per path, the
    fallback record when the check raises. *)
Definition fallback_report (path : string) : QualityReport :=
  {| image_path := path; is_defective := false; defect_types := [];
     details := EmptyDetails |}.

Fixpoint process_batch_loop (batch_paths : list string)
    (batch_results : list QualityReport) : M Cache (list QualityReport) :=
  match batch_paths with
  | [] => mret batch_results
  | path :: rest =>
      batch_results ←
        try_except
          (result ← check_photo_quality path;
           mret (batch_results ++ [result]))
          (λ _, mret (batch_results ++ [fallback_report path]));
      process_batch_loop rest batch_results
  end.

Definition process_batch_photos (batch_paths : list string)
    : M Cache (list QualityReport) :=
  process_batch_loop batch_paths [].

End checker.

End QualityChecker.

(** [os.path.basename]: what follows the last separator; on Windows both
    slashes separate (drive designators such as [C:name] are not modelled). *)
Definition is_sep (os : os_flavour) (c : ascii) : bool :=
  match os with
  | Posix => Ascii.eqb c "/"
  | Nt => Ascii.eqb c "/" || Ascii.eqb c "\"
  end.

Fixpoint basename_from (os : os_flavour) (acc : string) (path : string) : string :=
  match path with
  | EmptyString => acc
  | String c rest =>
      if is_sep os c then basename_from os rest rest else basename_from os acc rest
  end.

Definition os_path_basename (os : os_flavour) (path : string) : string :=
  basename_from os path path.

(** ** Embedding index and search ([semantic_search.py]) *)

Module SemanticSearch.

Record Metadata : Type := {
  path : string;
  filename : string;
  index : Z
}.

(** One record of the collection. *)
Record IndexEntry : Type := {
  entry_id : string;
  entry_embedding : list Q;
  entry_metadata : Metadata
}.

(** What [collection.query] returns: the ["metadatas"] and ["distances"]
    entries, each [None] or a list with one inner list per query. *)
Record QueryResult : Type := {
  metadatas : option (list (list Metadata));
  distances : option (list (list Q))
}.

Record SearchResult : Type := {
  rank : Z;
  similarity_score : Q;
  result_path : string;
  result_filename : string
}.

(** The calls made on the ChromaDB client and collection, by call site. *)
Inductive store_call : Type :=
| CountBeforeClear      (* collection.count() in index_photos, clear step *)
| DeleteCollection      (* client.delete_collection in clear_collection *)
| GetOrCreateCollection (* client.get_or_create_collection in clear_collection *)
| AddEntries            (* collection.add in index_photos *)
| CountAfterAdd         (* collection.count() after the add *)
| CountForSearch        (* collection.count() in search_photos *)
| QueryCollection.      (* collection.query in search_photos *)

(** The environment of the class: the file system, the CLIP model and
    the behaviour of the vector store. *)
Record Env : Type := {
  os : os_flavour;
  (** [os.path.exists]. *)
  exists_ : string → bool;
  (** [self.clip_available], fixed by the constructor. *)
  clip_available : bool;
  (** [self.model is not None] and [self.clip_module is not None]. *)
  model_loaded : bool;
  (** Opening the image and running [model.encode_image], normalised and
      flattened to a list of floats; may raise. *)
  encode_image : string → result (list Q);
  (** Tokenising and running [model.encode_text]; may raise. *)
  encode_text : string → result (list Q);
  (** Which store calls raise. *)
  store_fails : store_call → bool;
  (** The nearest-neighbour answer of [collection.query]. *)
  nearest : list IndexEntry → list Q → Z → QueryResult
}.

(** The contents of [self.collection]. *)
Definition Store : Type := list IndexEntry.

Section search.
Context (env : Env).

Definition store_call_guard (c : store_call) : M Store unit :=
  if store_fails env c then raise "chromadb error" else mret tt.

Definition collection_count (c : store_call) : M Store Z :=
  store_call_guard c;;
  store ← Py.get;
  mret (len store).

(** The records made of the parallel lists handed to [collection.add]. *)
Definition make_entries (ids : list string) (embeddings : list (list Q))
    (metadatas : list Metadata) : list IndexEntry :=
  zip_with (λ ie m, {| entry_id := ie.1; entry_embedding := ie.2;
                      entry_metadata := m |})
           (zip ids embeddings) metadatas.

(** A successful [collection.add] stores every entry of the batch; a
    failing one stores nothing. *)
Definition collection_add (ids : list string) (embeddings : list (list Q))
    (metadatas : list Metadata) : M Store unit :=
  store_call_guard AddEntries;;
  store ← Py.get;
  put (store ++ make_entries ids embeddings metadatas).

Definition get_image_embedding (image_path : string) : option (list Q) :=
  if negb (clip_available env) || negb (model_loaded env) then None
  else if negb (exists_ env image_path) then None
  else match encode_image env image_path with
       | Ok v => Some v
       | Raise _ => None
       end.

Definition get_text_embedding (text : string) : option (list Q) :=
  if negb (clip_available env) || negb (model_loaded env) then None
  else match encode_text env text with
       | Ok v => Some v
       | Raise _ => None
       end.

Definition clear_collection : M Store unit :=
  try_except (store_call_guard DeleteCollection;; put [])
             (λ _, mret tt);;
  store_call_guard GetOrCreateCollection.

(** The accumulators of the indexing loop. *)
Record IndexAcc : Type := {
  ids : list string;
  embeddings : list (list Q);
  acc_metadatas : list Metadata;
  indexed_count : Z;
  failed_count : Z;
  indexed_filenames : gset string
}.

Definition index_acc_init : IndexAcc :=
  {| ids := []; embeddings := []; acc_metadatas := [];
     indexed_count := 0; failed_count := 0; indexed_filenames := ∅ |}.

Definition fail_one (acc : IndexAcc) : IndexAcc :=
  {| ids := ids acc; embeddings := embeddings acc;
     acc_metadatas := acc_metadatas acc;
     indexed_count := indexed_count acc;
     failed_count := failed_count acc + 1;
     indexed_filenames := indexed_filenames acc |}.

(** [all(abs(v) < 0.000001 for v in embedding[:10])]. *)
Definition near_zero (embedding : list Q) : bool :=
  forallb (λ v, Py.lt (Py.abs v) 0.000001) (take 10 embedding).

(** One iteration of [for idx, photo_path in enumerate(photo_paths)]. *)
Definition index_step (acc : IndexAcc) (idx : Z) (photo_path : string) : IndexAcc :=
  if negb (exists_ env photo_path) then fail_one acc
  else
    let filename := os_path_basename (os env) photo_path in
    if bool_decide (filename ∈ indexed_filenames acc) then acc
    else
      match get_image_embedding photo_path with
      | Some (v :: e) =>
          let embedding := v :: e in
          if near_zero embedding then fail_one acc
          else
            let photo_id := filename +:+ "_" +:+ pretty idx in
            {| ids := ids acc ++ [photo_id];
               embeddings := embeddings acc ++ [embedding];
               acc_metadatas := acc_metadatas acc ++
                 [{| path := photo_path; filename := filename; index := idx |}];
               indexed_count := indexed_count acc + 1;
               failed_count := failed_count acc;
               indexed_filenames := indexed_filenames acc ∪ {[filename]} |}
      | Some [] | None => fail_one acc
      end.

Fixpoint index_loop (acc : IndexAcc) (idx : Z) (photo_paths : list string) : IndexAcc :=
  match photo_paths with
  | [] => acc
  | photo_path :: rest => index_loop (index_step acc idx photo_path) (idx + 1) rest
  end.

(** The [if clear_existing:] block of [index_photos]. *)
Definition clear_existing_step (clear_existing : bool) : M Store unit :=
  if clear_existing then
    existing_count ← collection_count CountBeforeClear;
    if 0 <? existing_count then clear_collection else mret tt
  else mret tt.

(** The [if ids:] block of [index_photos], up to the final [return]. *)
Definition write_step (acc : IndexAcc) : M Store Z :=
  match ids acc with
  | _ :: _ =>
      try_except
        (collection_add (ids acc) (embeddings acc) (acc_metadatas acc);;
         new_count ← collection_count CountAfterAdd;
         mret (indexed_count acc))
        (λ _, mret 0)
  | [] => mret (indexed_count acc)
  end.

Definition index_photos (photo_paths : list string) (clear_existing : bool)
    : M Store Z :=
  match photo_paths with
  | [] => mret 0
  | _ :: _ =>
      if negb (clip_available env) then mret 0
      else
        clear_existing_step clear_existing;;
        let acc := index_loop index_acc_init 0 photo_paths in
        write_step acc
  end.

(** The similarity computed from a distance: [1.0 - (distance / 2.0)],
    then [max(0.0, min(1.0, similarity))]. *)
Definition similarity_of_distance (distance : Q) : Q :=
  let similarity := (1 - distance / 2)%Q in
  Py.max 0 (Py.min 1 similarity).

(** Truthiness of [results[key]] and of [results[key][0]]. *)
Definition first_nonempty {A} (o : option (list (list A))) : option (list A) :=
  match o with
  | Some ((x :: l) :: _) => Some (x :: l)
  | _ => None
  end.

(** The loop over [enumerate(results["metadatas"][0])]; indexing the
    distances out of range raises [IndexError]. *)
Fixpoint search_loop (results : QueryResult) (idx : Z) (metas : list Metadata)
    (search_results : list SearchResult) : result (list SearchResult) :=
  match metas with
  | [] => Ok search_results
  | metadata :: rest =>
      let similarity :=
        match first_nonempty (distances results) with
        | Some ds =>
            match ds !! Z.to_nat idx with
            | Some distance => Ok (similarity_of_distance distance)
            | None => Raise "list index out of range"
            end
        | None => Ok 0.5%Q
        end in
      match similarity with
      | Raise msg => Raise msg
      | Ok similarity =>
          search_loop results (idx + 1) rest
            (search_results ++
             [{| rank := idx + 1; similarity_score := similarity;
                 result_path := path metadata;
                 result_filename := filename metadata |}])
      end
  end.

Definition search_photos (query_text : string) (top_k : Z)
    : M Store (list SearchResult) :=
  if negb (clip_available env) then mret []
  else
    match get_text_embedding query_text with
    | None | Some [] => mret []
    | Some (v :: e) =>
        let text_embedding := v :: e in
        collection_count ← collection_count CountForSearch;
        if collection_count =? 0 then mret []
        else
          try_except
            (store_call_guard QueryCollection;;
             store ← Py.get;
             let results :=
               nearest env store text_embedding (Z.min top_k collection_count) in
             mret (Some results))
            (λ _, mret None)
          ≫= λ r,
            match r with
            | None => mret []
            | Some results =>
                match first_nonempty (metadatas results) with
                | Some metas => lift (search_loop results 0 metas [])
                | None => mret []
                end
            end
    end.

End search.

End SemanticSearch.

(** ** Job registry and batch scheduler ([main.py]) *)

Module Pipeline.
Import QualityChecker SemanticSearch.

Inductive Status : Type := pending | initializing | processing | completed | error.

#[global] Instance Status_eq_dec : EqDecision Status.
Proof. solve_decision. Defined.

Record PhotoSummary : Type := {
  summary_image_path : string;
  summary_filename : string;
  summary_is_defective : bool;
  summary_defect_types : list string
}.

Record ResultData : Type := {
  total_photos : Z;
  bad_photos : Z;
  qualified_photos : Z;
  indexed_photos : Z;
  photos : list PhotoSummary
}.

(** A value of [processing_tasks]. *)
Record Job : Type := {
  task_id : string;
  status : Status;
  progress : Z;
  current : Z;
  total : Z;
  message : string;
  result : option ResultData
}.

(** The argument of one [dict.update] call: the keys it sets. *)
Record Update : Type := {
  set_status : option Status;
  set_progress : option Z;
  set_current : option Z;
  set_total : option Z;
  set_message : option string;
  set_result : option ResultData
}.

Definition no_update : Update :=
  {| set_status := None; set_progress := None; set_current := None;
     set_total := None; set_message := None; set_result := None |}.

Definition apply_update (j : Job) (u : Update) : Job :=
  {| task_id := task_id j;
     status := default (status j) (set_status u);
     progress := default (progress j) (set_progress u);
     current := default (current j) (set_current u);
     total := default (total j) (set_total u);
     message := default (message j) (set_message u);
     result := match set_result u with Some r => Some r | None => result j end |}.

(** The answer of the submit endpoint. *)
Inductive Response : Type :=
| ErrorResponse (message : string)
| StartedResponse (task_id : string) (message : string).

Section pipeline.
Context {image : Type}.

(** The environment of one run. *)
Record Env : Type := {
  cfg : Config.t;
  platform : os_flavour;
  (** [os.path.exists] on a folder. *)
  path_exists : string → bool;
  (** The entries of a folder, empty when it does not exist. *)
  listdir : string → list string;
  cv : Cv2 image;
  search_env : SemanticSearch.Env;
  (** The order in which [as_completed] hands back the futures of the
      [k]-th batch: the [n]-th future yielded is picked at position
      [completion k n] (modulo the number still pending). *)
  completion : nat → nat → nat
}.

(** The module-level mutable state, plus the sequence of updates made
    to the jobs, which is what a polling client can observe. *)
Record State : Type := {
  processing_tasks : gmap string Job;
  image_cache : gmap string image;
  collection : Store;
  processed_photos : gmap string QualityReport;
  QUALIFIED_PHOTOS : list string;
  updates : list (string * Update)
}.

Definition with_cache {A} (m : M (gmap string image) A) : M State A :=
  λ st, let '(r, c) := m (image_cache st) in
        (r, {| processing_tasks := processing_tasks st; image_cache := c;
               collection := collection st;
               processed_photos := processed_photos st;
               QUALIFIED_PHOTOS := QUALIFIED_PHOTOS st;
               updates := updates st |}).

Definition with_store {A} (m : M Store A) : M State A :=
  λ st, let '(r, c) := m (collection st) in
        (r, {| processing_tasks := processing_tasks st;
               image_cache := image_cache st; collection := c;
               processed_photos := processed_photos st;
               QUALIFIED_PHOTOS := QUALIFIED_PHOTOS st;
               updates := updates st |}).

Definition set_globals (pp : gmap string QualityReport) (qp : list string)
    : M State unit :=
  λ st, (Ok tt,
         {| processing_tasks := processing_tasks st;
            image_cache := image_cache st; collection := collection st;
            processed_photos := pp; QUALIFIED_PHOTOS := qp;
            updates := updates st |}).

(** [processing_tasks[task_id] = job]. *)
Definition set_task (tid : string) (j : Job) : M State unit :=
  λ st, (Ok tt,
         {| processing_tasks := <[tid := j]> (processing_tasks st);
            image_cache := image_cache st; collection := collection st;
            processed_photos := processed_photos st;
            QUALIFIED_PHOTOS := QUALIFIED_PHOTOS st;
            updates := updates st |}).

(** [processing_tasks[task_id].update(u)]; an unknown id is a [KeyError]. *)
Definition update (tid : string) (u : Update) : M State unit :=
  λ st, match processing_tasks st !! tid with
        | Some j =>
            (Ok tt,
             {| processing_tasks := <[tid := apply_update j u]> (processing_tasks st);
                image_cache := image_cache st; collection := collection st;
                processed_photos := processed_photos st;
                QUALIFIED_PHOTOS := QUALIFIED_PHOTOS st;
                updates := updates st ++ [(tid, u)] |})
        | None => (Raise "KeyError", st)
        end.

Context (env : Env).

(** [as_completed(futures)]: the futures in completion order. *)
Fixpoint as_completed_from {A} (fuel : nat) (pick : nat → nat) (n : nat)
    (futures : list A) : list A :=
  match fuel with
  | O => []
  | S fuel' =>
      let i := (pick n mod length futures)%nat in
      match futures !! i with
      | Some f => f :: as_completed_from fuel' pick (S n) (delete i futures)
      | None => []
      end
  end.

Definition as_completed {A} (pick : nat → nat) (futures : list A) : list A :=
  as_completed_from (length futures) pick 0 futures.

(** [executor.submit(process_batch_photos, sub_batch)] for each
    sub-batch: the outcome of each future.  The workers share the decode
    cache; they are run here one after the other. *)
Fixpoint submit_all (sub_batches : list (list string))
    : M State (list (Py.result (list QualityReport))) :=
  match sub_batches with
  | [] => mret []
  | sub_batch :: rest =>
      future ← try_except
                 (r ← with_cache (process_batch_photos (cv env) (cfg env) sub_batch);
                  mret (Ok r))
                 (λ e, mret (Raise e));
      futures ← submit_all rest;
      mret (future :: futures)
  end.

(** [for future in as_completed(futures)]: extend with the result, or
    skip the future when [future.result()] raises. *)
Definition collect (quality_results : list QualityReport)
    (futures : list (Py.result (list QualityReport))) : list QualityReport :=
  foldl (λ acc future,
           match future with
           | Ok batch_results => acc ++ batch_results
           | Raise _ => acc
           end) quality_results futures.

Definition screening_progress (current total : Z) : Z :=
  int (truediv current total * 100).

(** The body of [for i in range(0, total, batch_size)]. *)
Definition screening_step (tid : string) (photo_paths : list string)
    (total batch_size : Z) (k : nat) (i : Z)
    (quality_results : list QualityReport) : M State (list QualityReport) :=
  let batch_paths := slice photo_paths i (i + batch_size) in
  let current := Z.min (i + batch_size) total in
  let progress := screening_progress current total in
  update tid {| set_status := Some processing; set_progress := Some progress;
                set_current := Some current; set_total := None;
                set_message := Some ("正在处理 " +:+ pretty current +:+ "/"
                                     +:+ pretty total +:+ " 张照片...");
                set_result := None |};;
  (if Config.MAX_WORKERS (cfg env) <=? 0
   then raise "max_workers must be greater than 0" else mret tt);;
  let sub_batch_size := Z.max 1 (batch_size `div` Config.MAX_WORKERS (cfg env)) in
  starts ← lift (range (len batch_paths) sub_batch_size);
  futures ← submit_all ((λ j, slice batch_paths j (j + sub_batch_size)) <$> starts);
  mret (collect quality_results (as_completed (completion env k) futures)).

Fixpoint screening_loop (tid : string) (photo_paths : list string)
    (total batch_size : Z) (k : nat) (starts : list Z)
    (quality_results : list QualityReport) : M State (list QualityReport) :=
  match starts with
  | [] => mret quality_results
  | i :: rest =>
      quality_results ←
        screening_step tid photo_paths total batch_size k i quality_results;
      screening_loop tid photo_paths total batch_size (S k) rest quality_results
  end.

Definition indexing_progress (done n : Z) : Z :=
  int (truediv done n * 30).

(** The body of [for i in range(0, len(qualified_photos), search_batch_size)]. *)
Definition indexing_step (tid : string) (qualified_photos : list string)
    (search_batch_size : Z) (i : Z) (indexed_count : Z) : M State Z :=
  let batch := slice qualified_photos i (i + search_batch_size) in
  let clear_flag := i =? 0 in
  n ← with_store (index_photos (search_env env) batch clear_flag);
  let indexed_count := indexed_count + n in
  let idx_progress := indexing_progress (i + len batch) (len qualified_photos) in
  update tid {| set_status := None; set_progress := Some (70 + idx_progress);
                set_current := None; set_total := None;
                set_message :=
                  Some ("语义索引进度: "
                        +:+ pretty (Z.min (i + search_batch_size) (len qualified_photos))
                        +:+ "/" +:+ pretty (len qualified_photos));
                set_result := None |};;
  mret indexed_count.

Fixpoint indexing_loop (tid : string) (qualified_photos : list string)
    (search_batch_size : Z) (starts : list Z) (indexed_count : Z) : M State Z :=
  match starts with
  | [] => mret indexed_count
  | i :: rest =>
      indexed_count ←
        indexing_step tid qualified_photos search_batch_size i indexed_count;
      indexing_loop tid qualified_photos search_batch_size rest indexed_count
  end.

Definition summary (r : QualityReport) : PhotoSummary :=
  {| summary_image_path := image_path r;
     summary_filename := os_path_basename (platform env) (image_path r);
     summary_is_defective := is_defective r;
     summary_defect_types := defect_types r |}.

(** The [try] block of [background_processing]. *)
Definition background_body (tid folder_path : string) : M State unit :=
    (update tid {| set_status := Some initializing; set_progress := Some 0;
                   set_current := None; set_total := None;
                   set_message := Some "正在扫描文件夹...";
                   set_result := None |};;
     let photo_paths :=
       Scanner.get_image_files (platform env) (listdir env folder_path) folder_path in
     let total := len photo_paths in
     if total =? 0 then
       update tid {| set_status := Some error; set_progress := None;
                     set_current := None; set_total := None;
                     set_message := Some "文件夹中未找到图片文件！";
                     set_result := None |}
     else
       update tid {| set_status := None; set_progress := None;
                     set_current := None; set_total := Some total;
                     set_message := Some ("找到 " +:+ pretty total
                                          +:+ " 张照片，开始处理...");
                     set_result := None |};;
       let batch_size := Config.BATCH_SIZE (cfg env) in
       starts ← lift (range total batch_size);
       quality_results ← screening_loop tid photo_paths total batch_size 0 starts [];
       with_cache clear_cache;;
       let qualified_photos :=
         image_path <$> filter (λ r, is_defective r = false) quality_results in
       indexed_count ←
         match qualified_photos with
         | [] => mret 0
         | _ :: _ =>
             update tid {| set_status := None; set_progress := None;
                           set_current := None; set_total := None;
                           set_message :=
                             Some ("正在建立语义索引 ("
                                   +:+ pretty (len qualified_photos)
                                   +:+ " 张合格照片)...");
                           set_result := None |};;
             let search_batch_size := Config.SEARCH_BATCH_SIZE (cfg env) in
             starts ← lift (range (len qualified_photos) search_batch_size);
             indexing_loop tid qualified_photos search_batch_size starts 0
         end;
       set_globals (list_to_map ((λ r, (image_path r, r)) <$> quality_results))
                   qualified_photos;;
       let total_photos := total in
       let bad_photos :=
         len (filter (λ r, is_defective r = true) quality_results) in
       let qualified_photos_count := len qualified_photos in
       let result_data :=
         {| total_photos := total_photos;
            bad_photos := bad_photos;
            qualified_photos := qualified_photos_count;
            indexed_photos := indexed_count;
            photos := summary <$> quality_results |} in
       update tid {| set_status := Some completed; set_progress := Some 100;
                     set_current := None; set_total := None;
                     set_message := Some "处理完成！";
                     set_result := Some result_data |}).

Definition background_processing (tid folder_path : string) : M State unit :=
  try_except
    (background_body tid folder_path)
    (λ e, update tid {| set_status := Some error; set_progress := None;
                        set_current := None; set_total := None;
                        set_message := Some ("处理失败: " +:+ e);
                        set_result := None |}).

(** The submit endpoint; [now] is [time.time()].  It answers with an
    error, or registers a pending job and schedules its run. *)
Definition process_photos_async (now : Q) (folder_path : string)
    : M State Response :=
  if negb (path_exists env folder_path) then
    mret (ErrorResponse "文件夹路径不存在！")
  else
    let tid := pretty (int (now * 1000)) in
    set_task tid {| task_id := tid; status := pending; progress := 0;
                    current := 0; total := 0;
                    message := "任务已创建，等待开始...";
                    result := None |};;
    mret (StartedResponse tid "照片处理已开始，请使用task_id查询进度").

(** A submission followed by the background task it schedules. *)
Definition submit_and_run (now : Q) (folder_path : string) : M State Response :=
  response ← process_photos_async now folder_path;
  match response with
  | ErrorResponse _ => mret response
  | StartedResponse tid _ =>
      background_processing tid folder_path;;
      mret response
  end.

End pipeline.

Arguments Env image : clear implicits.
Arguments State image : clear implicits.

End Pipeline.

(** ** Concrete environments

    Small worlds on which the definitions above can be run. *)

Module Scenario.
Import QualityChecker SemanticSearch Pipeline.

(** A decoded picture, reduced to what the detectors measure. *)
Record Picture : Type := {
  height : Z;
  width : Z;
  sharpness : Q;
  histogram : list Q
}.

(** 100 x 100 pixels, all of medium brightness. *)
Definition midtones : list Q := replicate 30 0%Q ++ [10000%Q] ++ replicate 33 0%Q.
(** 100 x 100 pixels, 9 700 of them in the brightest bucket. *)
Definition burnt : list Q := replicate 30 0%Q ++ [300%Q] ++ replicate 32 0%Q ++ [9700%Q].

Definition sharp : Picture :=
  {| height := 100; width := 100; sharpness := 100; histogram := midtones |}.
Definition blurry : Picture :=
  {| height := 100; width := 100; sharpness := 10; histogram := midtones |}.
Definition blurry_and_burnt : Picture :=
  {| height := 100; width := 100; sharpness := 10; histogram := burnt |}.

(** A disk: the pictures [cv2.imread] can decode, by path.  Every other
    path is undecodable. *)
Definition cv2_on (disk : gmap string Picture) : Cv2 Picture := {|
  imread := λ p, Ok (disk !! p);
  shape := λ img, (height img, width img);
  resize := λ img new_w new_h,
    if (new_w <=? 0) || (new_h <=? 0) then Raise "cv2.error"
    else Ok {| height := new_h; width := new_w; sharpness := sharpness img;
               histogram := histogram img |};
  laplacian_var := λ img, Ok (sharpness img);
  subsample5 := λ img, img;
  calcHist64 := λ img, Ok (histogram img)
|}.

Definition disk_A : gmap string Picture :=
  {[ "pics/a.jpg" := sharp; "pics/b.jpg" := blurry; "pics/c.jpg" := sharp;
     "pics/d.jpg" := blurry_and_burnt ]}.

(** Checking [pics/d.jpg] with an empty cache. *)
Definition checked_d : Py.result QualityReport * gmap string Picture :=
  check_photo_quality (cv2_on disk_A) Config.default "pics/d.jpg" ∅.

Definition report_d : QualityReport :=
  match checked_d.1 with
  | Ok r => r
  | Raise _ => fallback_report "pics/d.jpg"
  end.

(** A working provider and store: every file exists and embeds to a
    unit vector; the store answers a query with its first [k] records,
    each at distance 0.5. *)
Definition healthy : SemanticSearch.Env := {|
  os := Posix;
  exists_ := λ _, true;
  clip_available := true;
  model_loaded := true;
  encode_image := λ _, Ok [1%Q; 0%Q];
  encode_text := λ _, Ok [0%Q; 1%Q];
  store_fails := λ _, false;
  nearest := λ store _ k,
    {| metadatas := Some [entry_metadata <$> take (Z.to_nat k) store];
       distances := Some [(λ _, 0.5%Q) <$> take (Z.to_nat k) store] |}
|}.

(** The same, without the CLIP model. *)
Definition no_clip : SemanticSearch.Env := {|
  os := Posix;
  exists_ := λ _, true;
  clip_available := false;
  model_loaded := false;
  encode_image := λ _, Raise "no model";
  encode_text := λ _, Raise "no model";
  store_fails := λ _, false;
  nearest := nearest healthy
|}.

(** The same as [healthy], with a store that cannot be counted before
    clearing. *)
Definition count_fails : SemanticSearch.Env := {|
  os := Posix;
  exists_ := λ _, true;
  clip_available := true;
  model_loaded := true;
  encode_image := encode_image healthy;
  encode_text := encode_text healthy;
  store_fails := λ c, match c with CountBeforeClear => true | _ => false end;
  nearest := nearest healthy
|}.

(** Scenario D of the specification: a store of three entries, searched
    with [top_k = 10]. *)
Definition three_entries : list IndexEntry :=
  (index_photos healthy ["a/x.jpg"; "a/y.jpg"; "a/z.jpg"] true []).2.

Definition three_hits : list SearchResult :=
  match (search_photos healthy "beach" 10 three_entries).1 with
  | Ok results => results
  | Raise _ => []
  end.

(** A folder [pics] of [n] sharp pictures [img0.jpg] ... *)
Fixpoint names (n : nat) : list string :=
  match n with
  | O => []
  | S n' => ("img" +:+ pretty n' +:+ ".jpg") :: names n'
  end.

Definition sharp_disk (n : nat) : gmap string Picture :=
  list_to_map ((λ name, ("pics/" +:+ name, sharp)) <$> names n).

(** A run environment on POSIX with the default configuration: the
    folder [pics] holds [entries], decoded as [disk] says; any other folder
    is missing. *)
Definition run_env (entries : list string) (disk : gmap string Picture)
    (search_env : SemanticSearch.Env) : Pipeline.Env Picture := {|
  cfg := Config.default;
  platform := Posix;
  path_exists := λ folder, String.eqb folder "pics";
  listdir := λ folder, if String.eqb folder "pics" then entries else [];
  cv := cv2_on disk;
  search_env := search_env;
  completion := λ _ n, S n
|}.

Definition fresh : Pipeline.State Picture := {|
  processing_tasks := ∅; image_cache := ∅; collection := [];
  processed_photos := ∅; QUALIFIED_PHOTOS := []; updates := []
|}.

(** Submitting [pics] at time 1700000000.123 and running the job. *)
Definition run (env : Pipeline.Env Picture) (folder : string)
    : Py.result Response * Pipeline.State Picture :=
  submit_and_run env 1700000000.123 folder fresh.

(** Scenario A of the specification: three pictures, one of them with a
    blur score of 10 against the threshold 30. *)
Definition env_A : Pipeline.Env Picture :=
  run_env ["a.jpg"; "b.jpg"; "c.jpg"] disk_A healthy.

Definition submitted_A : Pipeline.State Picture :=
  (process_photos_async env_A 1700000000.123 "pics" fresh).2.

Definition finished_A : Pipeline.State Picture :=
  (background_processing env_A "1700000000123" "pics" submitted_A).2.

Definition no_job : Job :=
  {| task_id := ""; status := pending; progress := 0; current := 0; total := 0;
     message := ""; result := None |}.

Definition job_A : Job :=
  default no_job (processing_tasks finished_A !! "1700000000123").

(** Five photos, two of which are called [x.jpg]. *)
Definition paths_B : list string :=
  ["a/x.jpg"; "a/y.jpg"; "b/x.jpg"; "a/z.jpg"; "a/w.jpg"].

End Scenario.

(** ** Specification-side definitions

    These follow the words of the specification, for comparison with the
    definitions above. *)

Module Spec.

(** "A fixed, case-insensitive set of image extensions": the name, in
    lower case, ends with one of the extensions. *)
Definition case_insensitive_image_name (name : string) : bool :=
  existsb (λ ext, endswith (lower name) ext) [".jpg"; ".jpeg"; ".png"; ".bmp"].

(** The defect a blur entry reports: ["blur"] when its score is below
    the configured threshold. *)
Definition blur_kind (cfg : Config.t) (b : QualityChecker.BlurResult)
    : option string :=
  match QualityChecker.blur_score b with
  | Some s => if Py.lt s (Config.BLUR_THRESHOLD cfg) then Some "blur" else None
  | None => None
  end.

(** The defect an exposure entry reports: ["overexposed"] when the
    overexposed ratio exceeds its threshold, else ["underexposed"] when
    the underexposed ratio exceeds its threshold. *)
Definition exposure_kind (cfg : Config.t) (x : QualityChecker.ExposureResult)
    : option string :=
  match QualityChecker.overexposed_ratio x, QualityChecker.underexposed_ratio x with
  | Some o, Some u =>
      if Py.lt (Config.OVEREXPOSURE_THRESHOLD cfg) o then Some "overexposed"
      else if Py.lt (Config.UNDEREXPOSURE_THRESHOLD cfg) u then Some "underexposed"
      else None
  | _, _ => None
  end.

(** "Existing, embeddable path": the file exists and the provider gives
    it an embedding that is neither null (or empty) nor degenerate. *)
Definition embeddable (env : SemanticSearch.Env) (p : string) : bool :=
  SemanticSearch.exists_ env p
  && match SemanticSearch.get_image_embedding env p with
     | Some (v :: e) => negb (SemanticSearch.near_zero (v :: e))
     | Some [] | None => false
     end.

(** The entry id of a stored photo: ["{filename}_{idx}"]. *)
Definition id_of (m : SemanticSearch.Metadata) : string :=
  SemanticSearch.filename m +:+ "_" +:+ pretty (SemanticSearch.index m).

(** What holds of the accumulators of the indexing loop once the paths
    [seen] have been processed. *)
Record index_invariant (env : SemanticSearch.Env) (seen : list string)
    (acc : SemanticSearch.IndexAcc) : Prop := {
  inv_count :
    SemanticSearch.indexed_count acc = len (SemanticSearch.acc_metadatas acc);
  inv_ids :
    SemanticSearch.ids acc = id_of <$> SemanticSearch.acc_metadatas acc;
  inv_embeddings :
    Forall2 (λ e m, SemanticSearch.get_image_embedding env (SemanticSearch.path m)
                    = Some e)
            (SemanticSearch.embeddings acc) (SemanticSearch.acc_metadatas acc);
  inv_filenames :
    SemanticSearch.indexed_filenames acc
    = list_to_set (SemanticSearch.filename <$> SemanticSearch.acc_metadatas acc);
  inv_nodup :
    NoDup (SemanticSearch.filename <$> SemanticSearch.acc_metadatas acc);
  inv_first :
    ∀ m, m ∈ SemanticSearch.acc_metadatas acc →
      ∃ i : nat,
        seen !! i = Some (SemanticSearch.path m)
        ∧ SemanticSearch.index m = Z.of_nat i
        ∧ SemanticSearch.filename m
          = os_path_basename (SemanticSearch.os env) (SemanticSearch.path m)
        ∧ embeddable env (SemanticSearch.path m) = true
        ∧ ∀ (j : nat) q, (j < i)%nat → seen !! j = Some q →
            embeddable env q = true →
            os_path_basename (SemanticSearch.os env) q ≠ SemanticSearch.filename m;
  inv_covered :
    ∀ p, p ∈ seen → embeddable env p = true →
      os_path_basename (SemanticSearch.os env) p
      ∈ SemanticSearch.indexed_filenames acc
}.

(** The records that [index_photos] hands to [collection.add] for a list
    of paths. *)
Definition prepared (env : SemanticSearch.Env) (photo_paths : list string)
    : list SemanticSearch.IndexEntry :=
  let acc := SemanticSearch.index_loop env SemanticSearch.index_acc_init 0 photo_paths in
  SemanticSearch.make_entries (SemanticSearch.ids acc) (SemanticSearch.embeddings acc)
                              (SemanticSearch.acc_metadatas acc).

(** The progress values written to a job, in the order of the updates. *)
Definition progress_writes (updates : list (string * Pipeline.Update)) (tid : string)
    : list Z :=
  omap (λ u, Pipeline.set_progress u.2) (filter (λ u, u.1 = tid) updates).

(** The progress values written by the screening pass: those of the
    updates that set the status to [processing]. *)
Definition screening_writes (updates : list (string * Pipeline.Update)) (tid : string)
    : list Z :=
  omap (λ u, Pipeline.set_progress u.2)
       (filter (λ u, u.1 = tid ∧ Pipeline.set_status u.2 = Some Pipeline.processing)
               updates).

(** The job [tid] is registered. *)
Definition has_job {image : Type} (tid : string) (st : Pipeline.State image) : Prop :=
  is_Some (Pipeline.processing_tasks st !! tid).

(** A computation never removes the job [tid]. *)
Definition keeps_job {image : Type} {A : Type} (tid : string)
    (m : M (Pipeline.State image) A) : Prop :=
  ∀ st, has_job tid st → has_job tid (m st).2.

(** The reports a future contributes to the results. *)
Definition reported (future : Py.result (list QualityChecker.QualityReport))
    : list QualityChecker.QualityReport :=
  match future with
  | Ok batch_results => batch_results
  | Raise _ => []
  end.

(** "Monotonically non-decreasing". *)
Definition non_decreasing (l : list Z) : Prop := Sorted Z.le l.

(** [clamp(x, lo, hi)]. *)
Definition clamp (x lo hi : Q) : Q := Qmax lo (Qmin hi x).

Definition is_some {A} (o : option A) : bool :=
  match o with Some _ => true | None => false end.

End Spec.

(** ** The rest of the checker ([photo_quality_checker.py]) *)

Module QualityBatch.
Import QualityChecker.

Section batch.
Context {image : Type} (cv : Cv2 image) (cfg : Config.t).

(** The loop of [batch_check_quality]; a check that raises ends it. *)
Fixpoint batch_check_loop (image_paths : list string)
    (results : list QualityReport) : M (gmap string image) (list QualityReport) :=
  match image_paths with
  | [] => mret results
  | path :: rest =>
      r ← check_photo_quality cv cfg path;
      batch_check_loop rest (results ++ [r])
  end.

Definition batch_check_quality (image_paths : list string)
    : M (gmap string image) (list QualityReport) :=
  batch_check_loop image_paths [].

End batch.

End QualityBatch.

(** ** The remaining endpoints of [main.py] *)

Module Api.
Import QualityChecker SemanticSearch Pipeline.

(** What a handler gives back: a body, or an [HTTPException]. *)
Inductive Http (A : Type) : Type :=
| Reply (body : A)
| HTTPException (status_code : Z) (detail : string).
Arguments Reply {A} body.
Arguments HTTPException {A} status_code detail.

(** The answer of [/process_photos]. *)
Inductive SyncResponse : Type :=
| SyncError (message : string)
| SyncSuccess (data : ResultData).

(** The answer of [/clear_cache]. *)
Inductive ClearResponse : Type :=
| ClearSuccess (message : string)
| ClearError (message : string).

Section api.
Context {image : Type} (env : Pipeline.Env image).

(** [/processing_status/{task_id}]. *)
Definition get_processing_status (tid : string) : M (State image) (Http Job) :=
  st ← Py.get;
  match processing_tasks st !! tid with
  | None => mret (HTTPException 404 "任务不存在")
  | Some task_info => mret (Reply task_info)
  end.

(** [/search_photos]. *)
Definition search_photos (query : string) (top_k : Z)
    : M (State image) (Http (list SearchResult)) :=
  st ← Py.get;
  match QUALIFIED_PHOTOS st with
  | [] => mret (HTTPException 400 "请先处理照片文件夹")
  | _ :: _ =>
      results ← with_store (SemanticSearch.search_photos (search_env env) query top_k);
      mret (Reply results)
  end.

(** The loop of [/process_photos] over the scanned paths; a check that
    raises ends the request. *)
Fixpoint check_each (photo_paths : list string)
    (quality_results : list QualityReport) : M (State image) (list QualityReport) :=
  match photo_paths with
  | [] => mret quality_results
  | photo_path :: rest =>
      r ← with_cache (check_photo_quality (cv env) (cfg env) photo_path);
      check_each rest (quality_results ++ [r])
  end.

(** [/process_photos].  The answer holds Python ints, bools, strings and
    lists only, which [serialize_for_json] returns as they are. *)
Definition process_photos_sync (folder_path : string) : M (State image) SyncResponse :=
  if negb (path_exists env folder_path) then
    mret (SyncError "文件夹路径不存在！")
  else
    let photo_paths :=
      Scanner.get_image_files (platform env) (listdir env folder_path) folder_path in
    match photo_paths with
    | [] => mret (SyncError "文件夹中未找到图片文件！")
    | _ :: _ =>
        quality_results ← check_each photo_paths [];
        let qualified_photos :=
          image_path <$> filter (λ r, is_defective r = false) quality_results in
        indexed_count ←
          match qualified_photos with
          | [] => mret 0
          | _ :: _ => with_store (index_photos (search_env env) qualified_photos false)
          end;
        set_globals (list_to_map ((λ r, (image_path r, r)) <$> quality_results))
                    qualified_photos;;
        let total_photos := len photo_paths in
        let bad_photos := len (filter (λ r, is_defective r = true) quality_results) in
        let qualified_photos_count := len qualified_photos in
        mret (SyncSuccess
                {| total_photos := total_photos;
                   bad_photos := bad_photos;
                   qualified_photos := qualified_photos_count;
                   indexed_photos := indexed_count;
                   photos := summary env <$> quality_results |})
    end.

(** [processing_tasks.clear()]. *)
Definition clear_tasks : M (State image) unit :=
  λ st, (Ok tt,
         {| processing_tasks := ∅; image_cache := image_cache st;
            collection := collection st;
            processed_photos := processed_photos st;
            QUALIFIED_PHOTOS := QUALIFIED_PHOTOS st;
            updates := updates st |}).

(** [/clear_cache]; [reset_temp_upload_dir] is the outcome of removing and
    re-creating the upload directory. *)
Definition clear_cache (reset_temp_upload_dir : Py.result unit)
    : M (State image) ClearResponse :=
  try_except
    (clear_tasks;;
     lift reset_temp_upload_dir;;
     with_cache QualityChecker.clear_cache;;
     with_store (clear_collection (search_env env));;
     set_globals ∅ [];;
     mret (ClearSuccess "缓存已清理"))
    (λ e, mret (ClearError ("清理失败: " +:+ e))).

End api.

End Api.

(** ** Uploads ([upload_photos], main.py)

    File names are plain names, without directory part. *)

Module Upload.

Inductive Response : Type :=
| UploadError (message : string)
| UploadSuccess (upload_id : string) (uploaded_count : Z) (folder_path : string)
    (files : list string).

(** [file.filename.lower().endswith(('.jpg', '.jpeg', '.png'))]. *)
Definition accepted (filename : string) : bool :=
  existsb (λ ext, endswith (lower filename) ext) [".jpg"; ".jpeg"; ".png"].

(** What saving one file does: [open(file_path, "wb")] may raise, and no
    file is created; reading the upload or writing the buffer may raise,
    after [open] has created the file. *)
Inductive SaveOutcome : Type :=
| Saved
| OpenRaises (msg : string)
| WriteRaises (msg : string).

Section upload.
(** The platform, the string of [config.TEMP_UPLOAD_DIR / upload_id], the
    outcome of creating this directory, and the outcome of saving each
    path.  The state is the set of the names in the directory. *)
Context (os : os_flavour) (upload_dir : string) (mkdir : Py.result unit)
  (save : string → SaveOutcome).

Definition create (filename : string) : M (gset string) unit :=
  names ← Py.get;
  put (names ∪ {[filename]}).

(** The loop over the files. *)
Fixpoint save_all (filenames : list string) (uploaded_files : list string)
    : M (gset string) (list string) :=
  match filenames with
  | [] => mret uploaded_files
  | filename :: rest =>
      if negb (accepted filename) then save_all rest uploaded_files
      else
        let file_path := os_path_join os upload_dir filename in
        match save file_path with
        | OpenRaises msg => raise msg
        | WriteRaises msg => create filename;; raise msg
        | Saved => create filename;; save_all rest (uploaded_files ++ [file_path])
        end
  end.

Definition upload_photos (upload_id : string) (filenames : list string)
    : M (gset string) Response :=
  try_except
    (lift mkdir;;
     uploaded_files ← save_all filenames [];
     match uploaded_files with
     | [] => mret (UploadError "没有有效的图片文件")
     | _ :: _ =>
         mret (UploadSuccess upload_id (len uploaded_files) upload_dir uploaded_files)
     end)
    (λ e, mret (UploadError ("上传失败: " +:+ e))).

End upload.

End Upload.

(** ** Notions used to state further properties *)

Module Laws.
Import QualityChecker.

(** What decoding a path gives when nothing is cached: the array read by
    OpenCV, resized when it is larger than the pixel budget; [None] when
    reading or resizing fails. *)
Definition decode {image : Type} (cv : Cv2 image) (cfg : Config.t) (path : string)
    : option image :=
  match imread cv path with
  | Ok (Some img) =>
      if Config.MAX_IMAGE_SIZE cfg <? (shape cv img).1 * (shape cv img).2 then
        match resize cv img (int (inject_Z (shape cv img).2 * Config.RESIZE_SCALE cfg))
                (int (inject_Z (shape cv img).1 * Config.RESIZE_SCALE cfg)) with
        | Ok small => Some small
        | Raise _ => None
        end
      else Some img
  | Ok None | Raise _ => None
  end.

(** Every cached array is the one decoding its path gives. *)
Definition coherent {image : Type} (cv : Cv2 image) (cfg : Config.t)
    (cache : gmap string image) : Prop :=
  ∀ path img, cache !! path = Some img → decode cv cfg path = Some img.

(** The report of a path checked with an empty cache, and the record the
    batch worker puts in its place when the check raises. *)
Definition fresh_report {image : Type} (cv : Cv2 image) (cfg : Config.t)
    (path : string) : Py.result QualityReport :=
  (check_photo_quality cv cfg path ∅).1.

Definition fresh_or_fallback {image : Type} (cv : Cv2 image) (cfg : Config.t)
    (path : string) : QualityReport :=
  match fresh_report cv cfg path with
  | Ok r => r
  | Raise _ => fallback_report path
  end.

(** A state invariant kept by a computation, whatever its outcome. *)
Definition preserves {S A : Type} (Inv : S → Prop) (m : M S A) : Prop :=
  ∀ st, Inv st → Inv (m st).2.

(** The outcome of a computation is the same from any two states that
    satisfy [Inv]. *)
Definition transparent {S A : Type} (Inv : S → Prop) (m : M S A) : Prop :=
  ∀ st1 st2, Inv st1 → Inv st2 → (m st1).1 = (m st2).1.

(** A cache that holds everything [cache0] holds and no more than [bound]
    entries. *)
Definition within {image : Type} (cache0 : gmap string image) (bound : nat)
    (cache : gmap string image) : Prop :=
  cache0 ⊆ cache ∧ (size cache ≤ bound)%nat.

(** The defect lists a report can carry, and a report that is marked
    defective exactly when it lists a defect. *)
Definition possible_defect_types : list (list string) :=
  [ []; ["blur"]; ["overexposed"]; ["underexposed"];
    ["blur"; "overexposed"]; ["blur"; "underexposed"] ].

Definition consistent (r : QualityReport) : Prop :=
  is_defective r = negb (bool_decide (defect_types r = []))
  ∧ defect_types r ∈ possible_defect_types.

(** The paths a run hands to the index: those of the reports that are not
    marked defective, in the order of the reports. *)
Definition qualified_of (quality_results : list QualityReport) : list string :=
  image_path <$> filter (λ r, is_defective r = false) quality_results.

(** The indexing pass of a run as the vector store sees it: one call of
    [index_photos] per chunk, clearing at the chunk that starts at 0, the
    returned counts added up. *)
Fixpoint index_chunks (senv : SemanticSearch.Env) (qualified_photos : list string)
    (search_batch_size : Z) (starts : list Z) (indexed_count : Z)
    : M SemanticSearch.Store Z :=
  match starts with
  | [] => mret indexed_count
  | i :: rest =>
      n ← SemanticSearch.index_photos senv
            (slice qualified_photos i (i + search_batch_size)) (i =? 0);
      index_chunks senv qualified_photos search_batch_size rest (indexed_count + n)
  end.

Definition index_pass (senv : SemanticSearch.Env) (search_batch_size : Z)
    (qualified_photos : list string) : M SemanticSearch.Store Z :=
  match qualified_photos with
  | [] => mret 0
  | _ :: _ =>
      starts ← lift (range (len qualified_photos) search_batch_size);
      index_chunks senv qualified_photos search_batch_size starts 0
  end.

(** What the screening pass leaves alone in the state, and what the
    indexing pass leaves alone. *)
Definition screening_frame {image : Type} (s s' : Pipeline.State image) : Prop :=
  Pipeline.collection s' = Pipeline.collection s
  ∧ Pipeline.processed_photos s' = Pipeline.processed_photos s
  ∧ Pipeline.QUALIFIED_PHOTOS s' = Pipeline.QUALIFIED_PHOTOS s.

Definition indexing_frame {image : Type} (s s' : Pipeline.State image) : Prop :=
  Pipeline.image_cache s' = Pipeline.image_cache s
  ∧ Pipeline.processed_photos s' = Pipeline.processed_photos s
  ∧ Pipeline.QUALIFIED_PHOTOS s' = Pipeline.QUALIFIED_PHOTOS s.

(** The array [detect_exposure] takes the histogram of, and a histogram
    that counts every pixel of a non-empty array once. *)
Definition exposure_sample {image : Type} (cv : Cv2 image) (img : image) : image :=
  if 1000000 <? (shape cv img).1 * (shape cv img).2 then subsample5 cv img else img.

Definition proper_histogram {image : Type} (cv : Cv2 image) (sample : image)
    (hist : list Q) : Prop :=
  Forall (λ v, 0 <= v)%Q hist
  ∧ (Py.sum hist == inject_Z ((shape cv sample).1 * (shape cv sample).2))%Q
  ∧ 0 < (shape cv sample).1 * (shape cv sample).2.

(** An update that leaves the job running, and one that ends it. *)
Definition working_status (u : Pipeline.Update) : Prop :=
  Pipeline.set_status u = None
  ∨ Pipeline.set_status u = Some Pipeline.initializing
  ∨ Pipeline.set_status u = Some Pipeline.processing.

Definition final_status (u : Pipeline.Update) : Prop :=
  Pipeline.set_status u = Some Pipeline.error
  ∨ Pipeline.set_status u = Some Pipeline.completed.

(** A computation that keeps [Inv] as long as it has not returned, and
    establishes [Fin] when it returns. *)
Definition ends {S A : Type} (Inv Fin : S → Prop) (m : M S A) : Prop :=
  ∀ st, Inv st →
    match (m st).1 with
    | Ok _ => Fin (m st).2
    | Raise _ => Inv (m st).2
    end.

(** The progress values the screening pass writes for the batches that
    start at [starts], and those the indexing pass writes for its chunks. *)
Definition screening_values (total batch_size : Z) (starts : list Z) : list Z :=
  (λ i, Pipeline.screening_progress (Z.min (i + batch_size) total) total) <$> starts.

Definition indexing_values (qualified_photos : list string) (search_batch_size : Z)
    (starts : list Z) : list Z :=
  (λ i, 70 + Pipeline.indexing_progress
               (i + len (slice qualified_photos i (i + search_batch_size)))
               (len qualified_photos)) <$> starts.

(** The progress values an update may write. *)
Definition progress_in_range (u : Pipeline.Update) : Prop :=
  match Pipeline.set_progress u with
  | Some p => 0 ≤ p ≤ 100
  | None => True
  end.

End Laws.

(** ** Further concrete cases *)

Module Cases.
Import QualityChecker SemanticSearch Pipeline.

(** A server that has indexed three photos of another folder. *)
Definition stale : Pipeline.State Scenario.Picture := {|
  processing_tasks := ∅; image_cache := ∅; collection := Scenario.three_entries;
  processed_photos := ∅; QUALIFIED_PHOTOS := ["a/x.jpg"; "a/y.jpg"; "a/z.jpg"];
  updates := []
|}.

(** A folder [pics] that holds one blurry picture. *)
Definition env_blurry : Pipeline.Env Scenario.Picture :=
  Scenario.run_env ["b.jpg"] Scenario.disk_A Scenario.healthy.

Definition submitted_blurry : Pipeline.State Scenario.Picture :=
  (process_photos_async env_blurry 1700000000.123 "pics" stale).2.

Definition finished_blurry : Pipeline.State Scenario.Picture :=
  (background_processing env_blurry "1700000000123" "pics" submitted_blurry).2.

(** Scenario A on the server that has indexed another folder. *)
Definition submitted_again : Pipeline.State Scenario.Picture :=
  (process_photos_async Scenario.env_A 1700000000.123 "pics" stale).2.

Definition finished_again : Pipeline.State Scenario.Picture :=
  (background_processing Scenario.env_A "1700000000123" "pics" submitted_again).2.

(** An upload of four files into the new directory [uploads/u1]. *)
Definition upload_request : list string := ["a.Jpg"; "b.png"; "notes.txt"; ".c.jpg"].

Definition uploaded : Py.result Upload.Response * gset string :=
  Upload.upload_photos Posix "uploads/u1" (Ok tt) (λ _, Upload.Saved) "u1"
    upload_request ∅.

(** The result that scenario A publishes. *)
Definition result_A : Pipeline.ResultData :=
  default {| total_photos := 0; bad_photos := 0; qualified_photos := 0;
             indexed_photos := 0; photos := [] |}
          (result Scenario.job_A).

End Cases.

(** * Properties *)

(** ** Running monadic code *)

Lemma bind_run {S A B} (m : M S A) (k : A → M S B) st a st1 :
  m st = (Ok a, st1) → (m ≫= k) st = k a st1.
Proof. intros H. unfold mbind, M_bind, Py.bind. by rewrite H. Qed.

Lemma bind_raise {S A B} (m : M S A) (k : A → M S B) st msg st1 :
  m st = (Raise msg, st1) → (m ≫= k) st = (Raise msg, st1).
Proof. intros H. unfold mbind, M_bind, Py.bind. by rewrite H. Qed.

Lemma bind_ok_inv {S A B} (m : M S A) (k : A → M S B) st b st' :
  (m ≫= k) st = (Ok b, st') → ∃ a st1, m st = (Ok a, st1) ∧ k a st1 = (Ok b, st').
Proof.
  unfold mbind, M_bind, Py.bind. destruct (m st) as [[a|msg] st1]; [eauto|done].
Qed.

Lemma mret_run {S A} (a : A) (st : S) : (mret a : M S A) st = (Ok a, st).
Proof. done. Qed.

Ltac run_M :=
  unfold mbind, M_bind, Py.bind, mret, M_ret, Py.ret, Py.lift, Py.raise,
    Py.try_except, Py.get, Py.put in *.

(** *** The string order is a total order *)

Lemma ascii_compare_eq c1 c2 : Ascii.compare c1 c2 = Eq → c1 = c2.
Proof. apply Ascii.compare_eq_iff. Qed.

Lemma string_compare_refl s : String.compare s s = Eq.
Proof.
  induction s as [|c s IH]; [done|]. simpl.
  unfold Ascii.compare. by rewrite N.compare_refl.
Qed.

Lemma string_compare_trans_le s1 : ∀ s2 s3,
  String.compare s1 s2 ≠ Gt → String.compare s2 s3 ≠ Gt → String.compare s1 s3 ≠ Gt.
Proof.
  induction s1 as [|c1 s1 IH]; intros [|c2 s2] [|c3 s3]; simpl; try done.
  unfold Ascii.compare.
  destruct (N.compare_spec (N_of_ascii c1) (N_of_ascii c2)) as [E12|L12|G12];
    destruct (N.compare_spec (N_of_ascii c2) (N_of_ascii c3)) as [E23|L23|G23];
    try done.
  - rewrite E12, E23, N.compare_refl. apply IH.
  - intros _ _. rewrite E12. by apply N.compare_lt_iff in L23 as ->.
  - intros _ _. rewrite <- E23. by apply N.compare_lt_iff in L12 as ->.
  - intros _ _. assert (N_of_ascii c1 < N_of_ascii c3)%N as L by lia.
    by apply N.compare_lt_iff in L as ->.
Qed.

Lemma str_le_iff s1 s2 : str_le s1 s2 ↔ String.compare s1 s2 ≠ Gt.
Proof. unfold str_le, String.leb. destruct (String.compare s1 s2); naive_solver. Qed.

#[global] Instance str_le_refl : Reflexive str_le.
Proof. intros s. apply str_le_iff. by rewrite string_compare_refl. Qed.

#[global] Instance str_le_trans : Transitive str_le.
Proof. intros s1 s2 s3. rewrite !str_le_iff. apply string_compare_trans_le. Qed.

#[global] Instance str_le_total : Total str_le.
Proof. intros s1 s2. apply String.leb_total. Qed.

#[global] Instance str_le_antisym : AntiSymm (=) str_le.
Proof. intros s1 s2. apply String.leb_antisym. Qed.

(** A [for] loop that extends an accumulator is a concatenation. *)
Lemma foldl_extend {A B} (f : B → list A) (l : list B) (acc : list A) :
  foldl (λ acc x, acc ++ f x) acc l = acc ++ (l ≫= f).
Proof.
  revert acc. induction l as [|x l IH]; intros acc; simpl.
  - by rewrite app_nil_r.
  - by rewrite IH, app_assoc.
Qed.

(** ** Scanner *)

Section scanner_facts.
Import Scanner.
Context (os : os_flavour) (folder : string).

(** The paths collected by the loop over the extensions. *)
Lemma elem_of_candidates names p :
  p ∈ foldl (λ acc ext, acc ++ glob_glob os names folder ext) [] image_extensions
  ↔ ∃ name ext, name ∈ names ∧ ext ∈ image_extensions ∧ ishidden name = false
      ∧ fnmatch_star os name ext = true ∧ p = os_path_join os folder name.
Proof.
  rewrite foldl_extend, app_nil_l, list_elem_of_bind. split.
  - intros (ext & Hp & Hext). unfold glob_glob in Hp.
    apply list_elem_of_fmap in Hp as (name & -> & Hname).
    apply list_elem_of_filter in Hname as [[Hh Hm] Hin]. eauto 10.
  - intros (name & ext & Hin & Hext & Hh & Hm & ->). exists ext. split; [|done].
    unfold glob_glob. apply list_elem_of_fmap. exists name. split; [done|].
    by apply list_elem_of_filter.
Qed.

Lemma elem_of_get_image_files names p :
  p ∈ get_image_files os names folder
  ↔ ∃ name ext, name ∈ names ∧ ext ∈ image_extensions ∧ ishidden name = false
      ∧ fnmatch_star os name ext = true ∧ p = os_path_join os folder name.
Proof.
  unfold get_image_files. rewrite merge_sort_Permutation, elem_of_elements,
    elem_of_list_to_set. apply elem_of_candidates.
Qed.

Lemma get_image_files_NoDup names : NoDup (get_image_files os names folder).
Proof.
  unfold get_image_files. rewrite merge_sort_Permutation. apply NoDup_elements.
Qed.

Lemma get_image_files_sorted names :
  StronglySorted str_le (get_image_files os names folder).
Proof. unfold get_image_files. apply StronglySorted_merge_sort; apply _. Qed.

Lemma get_image_files_same_entries names names' :
  (∀ n, n ∈ names ↔ n ∈ names') →
  get_image_files os names' folder = get_image_files os names folder.
Proof.
  intros Hsame. unfold get_image_files. do 2 f_equal. apply set_eq. intros p.
  rewrite !elem_of_list_to_set, !elem_of_candidates.
  split; intros (name & ext & Hin & H); exists name, ext;
    (split; [by apply Hsame|done]).
Qed.
End scanner_facts.

Lemma case_insensitive_matches_on_nt name :
  Spec.case_insensitive_image_name name = true →
  ∃ ext, ext ∈ Scanner.image_extensions ∧ Scanner.fnmatch_star Nt name ext = true.
Proof.
  unfold Spec.case_insensitive_image_name. rewrite existsb_exists.
  intros (ext & Hext & Hm). simpl in Hext.
  destruct Hext as [<-|[<-|[<-|[<-|[]]]]];
    match type of Hm with
    | endswith _ ?e = true =>
        exists e; split; [apply list_elem_of_In; simpl; tauto | exact Hm]
    end.
Qed.




(** ** Quality screening *)

Section checker_facts.
Import QualityChecker.
Context {image : Type} (cv : Cv2 image) (cfg : Config.t).

(** Decoding never raises: every failure is turned into [None]. *)
Lemma get_gray_image_returns path cache :
  ∃ o cache', _get_gray_image cv cfg path cache = (Ok o, cache').
Proof.
  unfold _get_gray_image. run_M.
  destruct (cache !! path); [eauto|].
  destruct (imread cv path) as [[img|]|]; [|eauto..].
  destruct (shape cv img) as [h w].
  destruct (Config.MAX_IMAGE_SIZE cfg <? h * w); [destruct (resize cv img _ _)|];
    try destruct (Z.of_nat (size cache) <? Config.IMAGE_CACHE_SIZE cfg); eauto.
Qed.

(** A file that is not cached and that [cv2.imread] cannot decode gives
    [None], and the cache is left as it was. *)
Lemma get_gray_image_undecodable path cache :
  cache !! path = None →
  (imread cv path = Ok None ∨ ∃ msg, imread cv path = Raise msg) →
  _get_gray_image cv cfg path cache = (Ok None, cache).
Proof.
  intros Hc Hd. unfold _get_gray_image. run_M. rewrite Hc.
  destruct Hd as [->|[msg ->]]; done.
Qed.

Lemma detect_blur_kind path cache b c1 :
  detect_blur cv cfg path cache = (Ok b, c1) →
  blur_defect_type b = Spec.blur_kind cfg b
  ∧ blur_is_defective b = Spec.is_some (Spec.blur_kind cfg b).
Proof.
  unfold detect_blur. intros H. apply bind_ok_inv in H as (o & c & _ & H).
  destruct o as [img|].
  - apply bind_ok_inv in H as (sc & c' & _ & H). run_M.
    injection H as <- _. unfold Spec.blur_kind. simpl.
    by destruct (Py.lt sc _).
  - run_M. by injection H as <- _.
Qed.

Lemma detect_exposure_kind path cache x c1 :
  detect_exposure cv cfg path cache = (Ok x, c1) →
  exposure_defect_type x = Spec.exposure_kind cfg x
  ∧ exposure_is_defective x = Spec.is_some (Spec.exposure_kind cfg x).
Proof.
  unfold detect_exposure. intros H. apply bind_ok_inv in H as (o & c & _ & H).
  destruct o as [img|].
  - destruct (shape cv img) as [h w].
    apply bind_ok_inv in H as (hist & c' & _ & H). run_M.
    injection H as <- _. unfold Spec.exposure_kind. simpl.
    by destruct (Py.lt (Config.OVEREXPOSURE_THRESHOLD cfg) _),
                (Py.lt (Config.UNDEREXPOSURE_THRESHOLD cfg) _).
  - run_M. by injection H as <- _.
Qed.

Lemma append_if_truthy_kind l (o : option string) :
  (∀ s, o = Some s → s ≠ "") →
  append_if_truthy l o = l ++ option_list o.
Proof.
  intros Hne. destruct o as [s|]; simpl; [|by rewrite app_nil_r].
  destruct (String.eqb_spec s ""); [by destruct (Hne s)|done].
Qed.

Lemma blur_kind_nonempty b s : Spec.blur_kind cfg b = Some s → s ≠ "".
Proof.
  unfold Spec.blur_kind. destruct (blur_score b); [|done].
  destruct (Py.lt _ _); [|done]. by intros [= <-].
Qed.

Lemma exposure_kind_nonempty x s : Spec.exposure_kind cfg x = Some s → s ≠ "".
Proof.
  unfold Spec.exposure_kind.
  destruct (overexposed_ratio x), (underexposed_ratio x); try done.
  repeat (destruct (Py.lt _ _); [by intros [= <-]|]). done.
Qed.

Lemma check_photo_quality_inv path cache r cache' :
  check_photo_quality cv cfg path cache = (Ok r, cache') →
  ∃ b x y c1,
    detect_blur cv cfg path cache = (Ok b, c1)
    ∧ detect_exposure cv cfg path c1 = (Ok x, cache')
    ∧ detect_closed_eyes path cache' = (Ok y, cache')
    ∧ r = {| image_path := path;
             is_defective :=
               blur_is_defective b || eyes_is_defective y || exposure_is_defective x;
             defect_types :=
               append_if_truthy
                 (append_if_truthy (append_if_truthy [] (blur_defect_type b))
                                   (eyes_defect_type y))
                 (exposure_defect_type x);
             details := DetectorDetails b y x |}.
Proof.
  unfold check_photo_quality. intros H.
  apply bind_ok_inv in H as (b & c1 & Hb & H).
  apply bind_ok_inv in H as (x & c2 & Hx & H).
  apply bind_ok_inv in H as (y & c3 & Hy & H).
  unfold detect_closed_eyes in Hy. run_M.
  injection Hy as <- <-. injection H as <- <-.
  do 4 eexists. split_and!; [exact Hb | exact Hx | reflexivity..].
Qed.

(** The image path of a report is the path that was checked. *)
Lemma check_photo_quality_image_path path cache r cache' :
  check_photo_quality cv cfg path cache = (Ok r, cache') → image_path r = path.
Proof.
  intros H. apply check_photo_quality_inv in H as (b & x & y & c1 & _ & _ & _ & ->).
  done.
Qed.

(** The batch worker never raises and produces one report per path, in
    the order of the paths. *)
Lemma process_batch_loop_reports batch : ∀ acc cache,
  ∃ rs cache',
    process_batch_loop cv cfg batch acc cache = (Ok (acc ++ rs), cache')
    ∧ image_path <$> rs = batch.
Proof.
  induction batch as [|path batch IH]; intros acc cache; simpl.
  - exists [], cache. by rewrite app_nil_r.
  - unfold mbind at 1, M_bind at 1, Py.bind at 1, try_except.
    unfold mbind at 1, M_bind at 1, Py.bind at 1.
    destruct (check_photo_quality cv cfg path cache) as [[r|msg] c1] eqn:Hc.
    + rewrite mret_run.
      destruct (IH (acc ++ [r]) c1) as (rs & c2 & -> & <-).
      exists (r :: rs), c2. rewrite <- app_assoc. split; [done|].
      simpl. f_equal. by eapply check_photo_quality_image_path.
    + rewrite mret_run.
      destruct (IH (acc ++ [fallback_report path]) c1) as (rs & c2 & -> & <-).
      exists (fallback_report path :: rs), c2. rewrite <- app_assoc. done.
Qed.

Lemma process_batch_photos_reports batch cache :
  ∃ rs cache',
    process_batch_photos cv cfg batch cache = (Ok rs, cache')
    ∧ image_path <$> rs = batch.
Proof. apply (process_batch_loop_reports batch [] cache). Qed.

Section numerics_return.
Hypothesis Hnum :
  ∀ img, is_ok (laplacian_var cv img) = true ∧ is_ok (calcHist64 cv img) = true.

Lemma detect_blur_returns path cache :
  ∃ b c1, detect_blur cv cfg path cache = (Ok b, c1).
Proof.
  unfold detect_blur.
  destruct (get_gray_image_returns path cache) as (o & c1 & H).
  rewrite (bind_run _ _ _ _ _ H). destruct o as [img|]; [|by do 2 eexists].
  destruct (Hnum img) as [Hl _]. run_M.
  destruct (laplacian_var cv img); [by do 2 eexists|done].
Qed.

Lemma detect_exposure_returns path cache :
  ∃ x c1, detect_exposure cv cfg path cache = (Ok x, c1).
Proof.
  unfold detect_exposure.
  destruct (get_gray_image_returns path cache) as (o & c1 & H).
  rewrite (bind_run _ _ _ _ _ H). destruct o as [img|]; [|by do 2 eexists].
  destruct (shape cv img) as [h w].
  destruct (Hnum (if 1000000 <? h * w then subsample5 cv img else img)) as [_ Hh].
  run_M. destruct (calcHist64 cv _); [by do 2 eexists|done].
Qed.

Lemma check_photo_quality_returns path cache :
  is_ok (check_photo_quality cv cfg path cache).1 = true.
Proof.
  unfold check_photo_quality.
  destruct (detect_blur_returns path cache) as (b & c1 & Hb).
  destruct (detect_exposure_returns path c1) as (x & c2 & Hx).
  by rewrite (bind_run _ _ _ _ _ Hb), (bind_run _ _ _ _ _ Hx).
Qed.
End numerics_return.

End checker_facts.



Example report_d_defects :
  QualityChecker.is_defective Scenario.report_d = true
  ∧ QualityChecker.defect_types Scenario.report_d = ["blur"; "overexposed"].
Proof. by vm_compute. Qed.

(** C8, as the specification states it, fails: for a file that cannot be
    decoded the report is non-defective with no defect types, but its
    details are not empty.  The empty-details record is built only by the
    batch worker when the check itself raises, which a failed decode never
    causes. *)
Lemma undecodable_report_details_not_empty :
  QualityChecker.imread (Scenario.cv2_on Scenario.disk_A) "pics/broken.jpg" = Ok None
  ∧ ∃ r, (QualityChecker.check_photo_quality (Scenario.cv2_on Scenario.disk_A)
            Config.default "pics/broken.jpg" ∅).1 = Ok r
         ∧ QualityChecker.is_defective r = false
         ∧ QualityChecker.defect_types r = []
         ∧ QualityChecker.details r ≠ QualityChecker.EmptyDetails.
Proof. split; [reflexivity|]. eexists. vm_compute. done. Qed.

(** C8, amended: for a path that is not cached and whose image cannot be
    decoded, [check_photo_quality] does not raise, leaves the cache as it
    was, and returns a non-defective report with no defect types whose
    details hold the three detector entries, the blur and exposure entries
    without any measurement; and the batch worker returns one report per
    input path, in order, whatever the batch. *)
Theorem undecodable_image_report {image : Type}
    (cv : QualityChecker.Cv2 image) (cfg : Config.t) (path : string)
    (cache : gmap string image) :
  cache !! path = None →
  (QualityChecker.imread cv path = Ok None
   ∨ ∃ msg, QualityChecker.imread cv path = Raise msg) →
  QualityChecker.check_photo_quality cv cfg path cache
  = (Ok {| QualityChecker.image_path := path;
           QualityChecker.is_defective := false;
           QualityChecker.defect_types := [];
           QualityChecker.details :=
             QualityChecker.DetectorDetails
               {| QualityChecker.blur_score := None;
                  QualityChecker.blur_is_defective := false;
                  QualityChecker.blur_defect_type := None |}
               {| QualityChecker.closed_eyes_count := 0;
                  QualityChecker.eyes_is_defective := false;
                  QualityChecker.eyes_defect_type := None |}
               {| QualityChecker.overexposed_ratio := None;
                  QualityChecker.underexposed_ratio := None;
                  QualityChecker.exposure_is_defective := false;
                  QualityChecker.exposure_defect_type := None |} |},
     cache)
  ∧ ∀ batch cache0, ∃ rs cache',
      QualityChecker.process_batch_photos cv cfg batch cache0 = (Ok rs, cache')
      ∧ QualityChecker.image_path <$> rs = batch.
Proof.
  intros Hc Hd. split; [|apply process_batch_photos_reports].
  unfold QualityChecker.check_photo_quality, QualityChecker.detect_blur,
    QualityChecker.detect_exposure.
  pose proof (get_gray_image_undecodable cv cfg path cache Hc Hd) as Hg.
  assert (∀ B (k : option image → M (gmap string image) B),
            (QualityChecker._get_gray_image cv cfg path ≫= k) cache = k None cache)
    as Hrun by (intros; by apply bind_run).
  unfold mbind at 1, M_bind at 1, Py.bind at 1. rewrite Hrun, mret_run.
  unfold mbind at 1, M_bind at 1, Py.bind at 1. rewrite Hrun, mret_run.
  reflexivity.
Qed.

(** The amended C8 on a path that is not on the disk. *)
Lemma undecodable_image_report_witness :
  QualityChecker.is_defective
    (match (QualityChecker.check_photo_quality (Scenario.cv2_on Scenario.disk_A)
              Config.default "pics/broken.jpg"
              (∅ : gmap string Scenario.Picture)).1 with
     | Ok r => r
     | Raise _ => QualityChecker.fallback_report ""
     end) = false.
Proof.
  destruct (undecodable_image_report (Scenario.cv2_on Scenario.disk_A)
              Config.default "pics/broken.jpg" ∅) as [-> _];
    [apply lookup_empty | left; reflexivity | reflexivity].
Defined.

(** ** Semantic search *)

Lemma py_lt_iff (a b : Q) : Py.lt a b = true ↔ (a < b)%Q.
Proof.
  unfold Py.lt. rewrite negb_true_iff, <- not_true_iff_false, Qle_bool_iff.
  split; [apply Qnot_le_lt | apply Qlt_not_le].
Qed.

Lemma py_lt_false_iff (a b : Q) : Py.lt a b = false ↔ (b <= a)%Q.
Proof.
  rewrite <- not_true_iff_false, py_lt_iff. split; [apply Qnot_lt_le | apply Qle_not_lt].
Qed.

Lemma py_min_cases (a b : Q) :
  ((b < a)%Q ∧ Py.min a b = b) ∨ ((a <= b)%Q ∧ Py.min a b = a).
Proof.
  unfold Py.min. destruct (Py.lt b a) eqn:E.
  - left. by apply py_lt_iff in E.
  - right. by apply py_lt_false_iff in E.
Qed.

Lemma py_max_cases (a b : Q) :
  ((a < b)%Q ∧ Py.max a b = b) ∨ ((b <= a)%Q ∧ Py.max a b = a).
Proof.
  unfold Py.max. destruct (Py.lt a b) eqn:E.
  - left. by apply py_lt_iff in E.
  - right. by apply py_lt_false_iff in E.
Qed.

Section similarity_facts.
Import SemanticSearch.

Lemma half_double d : (2 * (d / 2) == d)%Q.
Proof. by apply Qmult_div_r. Qed.

(** Replace [d / 2] by a fresh variable [x] with [2 * x == d]. *)
Ltac halve d :=
  let x := fresh "x" in
  let Hx := fresh "Hx" in
  pose proof (half_double d) as Hx;
  generalize dependent (d / 2)%Q; intros x; intros.

Lemma similarity_cases d :
  ((2 < d)%Q ∧ similarity_of_distance d = 0%Q)
  ∨ ((d < 0)%Q ∧ similarity_of_distance d = 1%Q)
  ∨ ((0 <= d <= 2)%Q ∧ (similarity_of_distance d == 1 - d / 2)%Q).
Proof.
  unfold similarity_of_distance.
  destruct (py_min_cases 1 (1 - d / 2)) as [[Hlt ->]|[Hle ->]].
  - destruct (py_max_cases 0 (1 - d / 2)) as [[Hlt' ->]|[Hle' ->]].
    + right. right. split; [|reflexivity]. halve d. split; lra.
    + destruct (Qlt_le_dec 2 d) as [H2|H2]; [by left|].
      right. right. halve d. split; [split; lra|lra].
  - destruct (py_max_cases 0 1) as [[_ ->]|[Hle' _]]; [|lra].
    destruct (Qlt_le_dec d 0) as [H0|H0]; [right; by left|].
    right. right. halve d. split; [split; lra|lra].
Qed.

Lemma similarity_range d : (0 <= similarity_of_distance d <= 1)%Q.
Proof.
  destruct (similarity_cases d) as [[_ ->]|[[_ ->]|[[? ?] ->]]];
    [lra..|halve d; lra].
Qed.

Lemma similarity_is_clamp d :
  (similarity_of_distance d == Spec.clamp (1 - d / 2) 0 1)%Q.
Proof.
  unfold Spec.clamp.
  destruct (similarity_cases d) as [[H ->]|[[H ->]|[[H1 H2] ->]]]; halve d.
  - rewrite Q.max_l; [reflexivity|]. eapply Qle_trans; [apply Q.le_min_r|lra].
  - rewrite Q.min_l by lra. by rewrite Q.max_r.
  - rewrite Q.min_r by lra. rewrite Q.max_r by lra. reflexivity.
Qed.

Lemma similarity_decreasing d1 d2 :
  (0 <= d1)%Q → (d1 < d2)%Q → (d2 <= 2)%Q →
  (similarity_of_distance d2 < similarity_of_distance d1)%Q.
Proof.
  intros H0 H12 H2.
  destruct (similarity_cases d1) as [[? _]|[[? _]|[_ ->]]]; [lra..|].
  destruct (similarity_cases d2) as [[? _]|[[? _]|[_ ->]]]; [lra..|].
  halve d1. halve d2. lra.
Qed.

(** The conversion loop: one result per hit, ranked from [idx + 1], whose
    score is the similarity of the distance at the same position, or
    [0.5] when the store returned no distances. *)
Lemma search_loop_scores results metas : ∀ idx acc out,
  0 ≤ idx →
  search_loop results idx metas acc = Ok out →
  ∃ new, out = acc ++ new ∧ length new = length metas
    ∧ ∀ i r, new !! i = Some r →
        rank r = idx + Z.of_nat i + 1
        ∧ match first_nonempty (distances results) with
          | Some ds => ∃ d, ds !! (Z.to_nat idx + i)%nat = Some d
                            ∧ similarity_score r = similarity_of_distance d
          | None => similarity_score r = 0.5%Q
          end.
Proof.
  induction metas as [|m metas IH]; intros idx acc out Hidx; simpl.
  - intros [= <-]. exists []. rewrite app_nil_r. split_and!; [done..|].
    intros i r Hi. by rewrite lookup_nil in Hi.
  - destruct (first_nonempty (distances results)) as [ds|] eqn:Hds.
    + destruct (ds !! Z.to_nat idx) as [d|] eqn:Hd; [|done].
      intros H. apply IH in H as (new & -> & Hlen & Hnew); [|lia].
      eexists (_ :: new). rewrite <- app_assoc. split_and!; [done|by simpl; f_equal|].
      intros [|i] r Hi; simpl in Hi.
      * injection Hi as <-. simpl. split; [lia|]. exists d.
        by rewrite Nat.add_0_r.
      * destruct (Hnew i r Hi) as [Hr (d' & Hd' & Hs)]. split; [lia|].
        exists d'. split; [|done]. rewrite <- Hd'. f_equal. lia.
    + intros H. apply IH in H as (new & -> & Hlen & Hnew); [|lia].
      eexists (_ :: new). rewrite <- app_assoc. split_and!; [done|by simpl; f_equal|].
      intros [|i] r Hi; simpl in Hi.
      * injection Hi as <-. simpl. split; [lia|done].
      * destruct (Hnew i r Hi) as [Hr Hs]. split; [lia|done].
Qed.

Lemma search_photos_results env query_text top_k st out st' :
  search_photos env query_text top_k st = (Ok out, st') →
  out = []
  ∨ ∃ emb, get_text_embedding env query_text = Some emb
      ∧ search_loop (nearest env st emb (Z.min top_k (len st))) 0
          (default [] (first_nonempty
                         (metadatas (nearest env st emb (Z.min top_k (len st))))))
          [] = Ok out.
Proof.
  unfold search_photos, collection_count, store_call_guard.
  destruct (clip_available env); simpl; [|intros [= <- _]; by left].
  destruct (get_text_embedding env query_text) as [[|v e]|] eqn:He;
    [intros [= <- _]; by left| |intros [= <- _]; by left].
  run_M.
  destruct (store_fails env CountForSearch); [done|].
  destruct (len st =? 0); [intros [= <- _]; by left|].
  destruct (store_fails env QueryCollection); [intros [= <- _]; by left|].
  destruct (first_nonempty (metadatas _)) as [metas|] eqn:Hm;
    [|intros [= <- _]; by left].
  destruct (search_loop _ 0 metas []) as [rs|] eqn:Hl; [|done].
  intros [= <- _]. right. exists (v :: e). split; [done|]. by rewrite Hm.
Qed.

End similarity_facts.

(** ** Indexing *)

Section index_facts.
Import SemanticSearch.
Context (env : Env).

Local Abbreviation basename := (os_path_basename (os env)).

Lemma index_step_indexes acc idx p :
  Spec.embeddable env p = true →
  basename p ∉ indexed_filenames acc →
  ∃ e, get_image_embedding env p = Some e
    ∧ index_step env acc idx p
      = {| ids := ids acc ++ [basename p +:+ "_" +:+ pretty idx];
           embeddings := embeddings acc ++ [e];
           acc_metadatas := acc_metadatas acc ++
             [{| path := p; filename := basename p; index := idx |}];
           indexed_count := indexed_count acc + 1;
           failed_count := failed_count acc;
           indexed_filenames := indexed_filenames acc ∪ {[basename p]} |}.
Proof.
  unfold Spec.embeddable, index_step. intros [Hex Hemb]%andb_true_iff Hnew.
  rewrite Hex. simpl. rewrite bool_decide_eq_false_2 by done.
  destruct (get_image_embedding env p) as [[|v e]|]; [done| |done].
  apply negb_true_iff in Hemb. rewrite Hemb. by exists (v :: e).
Qed.

Lemma index_step_skips acc idx p :
  Spec.embeddable env p = false ∨ basename p ∈ indexed_filenames acc →
  ∃ n, index_step env acc idx p
       = {| ids := ids acc; embeddings := embeddings acc;
            acc_metadatas := acc_metadatas acc;
            indexed_count := indexed_count acc;
            failed_count := n;
            indexed_filenames := indexed_filenames acc |}.
Proof.
  unfold Spec.embeddable, index_step, fail_one. intros Hskip.
  destruct (exists_ env p); simpl in *; [|by eexists].
  destruct acc as [i e m c f fs]; simpl in *.
  case_bool_decide; [by eexists|].
  destruct Hskip as [Hskip|?]; [|done].
  destruct (get_image_embedding env p) as [[|v e']|]; [by eexists| |by eexists].
  apply negb_false_iff in Hskip. rewrite Hskip. by eexists.
Qed.

Lemma index_invariant_init : Spec.index_invariant env [] index_acc_init.
Proof.
  split; simpl;
    [done | done | constructor | done | constructor
    | intros m Hm; by apply elem_of_nil in Hm
    | intros p Hp; by apply elem_of_nil in Hp].
Qed.

Lemma index_invariant_step seen acc p :
  Spec.index_invariant env seen acc →
  Spec.index_invariant env (seen ++ [p]) (index_step env acc (len seen) p).
Proof.
  intros [Hcount Hids Hemb Hfn Hnd Hfirst Hcov].
  assert (∀ m, m ∈ acc_metadatas acc →
            ∃ i : nat,
              (seen ++ [p]) !! i = Some (path m)
              ∧ index m = Z.of_nat i
              ∧ filename m = basename (path m)
              ∧ Spec.embeddable env (path m) = true
              ∧ ∀ (j : nat) q, (j < i)%nat → (seen ++ [p]) !! j = Some q →
                  Spec.embeddable env q = true → basename q ≠ filename m)
    as Hfirst'.
  { intros m Hm. destruct (Hfirst m Hm) as (i & Hi & Hidx & Hf & He & Hj).
    pose proof (lookup_lt_Some _ _ _ Hi) as Hlt.
    exists i. split_and!; try done.
    - by rewrite lookup_app_l.
    - intros j q Hji Hq. rewrite lookup_app_l in Hq by lia. by apply (Hj j). }
  destruct (decide (Spec.embeddable env p = true
                    ∧ basename p ∉ indexed_filenames acc)) as [[He Hnew]|Hskip].
  - destruct (index_step_indexes acc (len seen) p He Hnew) as (e & Hge & ->).
    split; simpl.
    + rewrite Hcount. unfold len. rewrite length_app. simpl. lia.
    + rewrite Hids, fmap_app. done.
    + apply Forall2_app; [done|]. by constructor.
    + rewrite fmap_app, list_to_set_app_L, Hfn. simpl.
      by rewrite (right_id_L ∅ (∪)).
    + rewrite fmap_app. apply NoDup_app. split_and!; [done| |apply NoDup_singleton].
      intros f Hf Hf'. apply list_elem_of_singleton in Hf' as ->.
      apply Hnew. rewrite Hfn. by apply elem_of_list_to_set.
    + intros m [Hm|Hm]%elem_of_app; [by apply Hfirst'|].
      apply list_elem_of_singleton in Hm as ->. simpl.
      exists (length seen). split_and!; try done.
      * by rewrite lookup_app_r, Nat.sub_diag by lia.
      * intros j q Hj Hq Heq Hb. rewrite lookup_app_l in Hq by lia.
        apply Hnew. rewrite <- Hb. apply Hcov; [|done].
        by eapply list_elem_of_lookup_2.
    + intros q [Hq|Hq]%elem_of_app Heq.
      * apply elem_of_union_l. by apply Hcov.
      * apply list_elem_of_singleton in Hq as ->.
        by apply elem_of_union_r, elem_of_singleton.
  - assert (Spec.embeddable env p = false ∨ basename p ∈ indexed_filenames acc)
      as Hskip'.
    { destruct (Spec.embeddable env p); [|by left].
      right. destruct (decide (basename p ∈ indexed_filenames acc)); [done|].
      by destruct Hskip. }
    destruct (index_step_skips acc (len seen) p Hskip') as (n & ->).
    split; simpl; try done.
    intros q [Hq|Hq]%elem_of_app Heq; [by apply Hcov|].
    apply list_elem_of_singleton in Hq as ->.
    destruct Hskip' as [Hne|?]; [congruence|done].
Qed.

Lemma index_invariant_loop rest : ∀ seen acc,
  Spec.index_invariant env seen acc →
  Spec.index_invariant env (seen ++ rest) (index_loop env acc (len seen) rest).
Proof.
  induction rest as [|p rest IH]; intros seen acc Hinv; simpl.
  - by rewrite app_nil_r.
  - replace (len seen + 1) with (len (seen ++ [p]))
      by (unfold len; rewrite length_app; simpl; lia).
    rewrite (assoc_L (++) seen [p] rest : seen ++ p :: rest = (seen ++ [p]) ++ rest).
    apply IH. by apply index_invariant_step.
Qed.

Lemma index_invariant_final photo_paths :
  Spec.index_invariant env photo_paths (index_loop env index_acc_init 0 photo_paths).
Proof. apply (index_invariant_loop photo_paths [] _ index_invariant_init). Qed.

Lemma make_entries_metadata (metas : list Metadata) : ∀ ids embs,
  length ids = length metas → length embs = length metas →
  entry_metadata <$> make_entries ids embs metas = metas.
Proof.
  induction metas as [|m metas IH]; intros [|i ids] [|e embs] Hi He;
    simpl in *; try done.
  f_equal. apply IH; lia.
Qed.

Lemma make_entries_ids (metas : list Metadata) : ∀ embs e,
  length embs = length metas →
  e ∈ make_entries (Spec.id_of <$> metas) embs metas →
  entry_id e = Spec.id_of (entry_metadata e).
Proof.
  induction metas as [|m metas IH]; intros [|v embs] e He; simpl in *;
    try done; try (by intros ?%elem_of_nil).
  intros [->|Hin]%elem_of_cons; [done|]. eapply IH; [|done]. lia.
Qed.

(** The clearing step: it raises exactly when counting fails, or when
    the collection is not empty and cannot be re-created. *)
Lemma clear_existing_step_run clear st :
  clear_existing_step env clear st
  = if clear then
      if store_fails env CountBeforeClear then (Raise "chromadb error", st)
      else if 0 <? len st then
        if store_fails env GetOrCreateCollection
        then (Raise "chromadb error",
              if store_fails env DeleteCollection then st else [])
        else (Ok tt, if store_fails env DeleteCollection then st else [])
      else (Ok tt, st)
    else (Ok tt, st).
Proof.
  unfold clear_existing_step, collection_count, clear_collection, store_call_guard.
  destruct clear; [|done]. run_M.
  destruct (store_fails env CountBeforeClear); [done|].
  destruct (0 <? len st); [|done].
  by destruct (store_fails env DeleteCollection),
              (store_fails env GetOrCreateCollection).
Qed.

(** The writing step never raises. *)
Lemma write_step_run acc st :
  write_step env acc st
  = match ids acc with
    | [] => (Ok (indexed_count acc), st)
    | _ :: _ =>
        if store_fails env AddEntries then (Ok 0, st)
        else if store_fails env CountAfterAdd
        then (Ok 0, st ++ make_entries (ids acc) (embeddings acc) (acc_metadatas acc))
        else (Ok (indexed_count acc),
              st ++ make_entries (ids acc) (embeddings acc) (acc_metadatas acc))
    end.
Proof.
  unfold write_step, collection_add, collection_count, store_call_guard.
  destruct (ids acc); [done|]. run_M.
  destruct (store_fails env AddEntries); [done|].
  by destruct (store_fails env CountAfterAdd).
Qed.

Lemma index_photos_run photo_paths clear st :
  index_photos env photo_paths clear st
  = match photo_paths with
    | [] => (Ok 0, st)
    | _ :: _ =>
        if clip_available env then
          match clear_existing_step env clear st with
          | (Ok _, st1) =>
              write_step env (index_loop env index_acc_init 0 photo_paths) st1
          | (Raise msg, st1) => (Raise msg, st1)
          end
        else (Ok 0, st)
    end.
Proof.
  unfold index_photos. destruct photo_paths; [done|].
  destruct (clip_available env); [|done]. simpl. run_M.
  by destruct (clear_existing_step env clear st) as [[[]|] ?].
Qed.

Local Abbreviation prepared := (Spec.prepared env).

Lemma prepared_metadata photo_paths :
  entry_metadata <$> prepared photo_paths
  = acc_metadatas (index_loop env index_acc_init 0 photo_paths).
Proof.
  unfold Spec.prepared. destruct (index_invariant_final photo_paths) as [_ Hids Hemb _ _ _ _].
  apply make_entries_metadata.
  - by rewrite Hids, length_fmap.
  - by apply Forall2_length in Hemb.
Qed.

Lemma prepared_length photo_paths :
  len (prepared photo_paths)
  = indexed_count (index_loop env index_acc_init 0 photo_paths).
Proof.
  destruct (index_invariant_final photo_paths) as [-> _ _ _ _ _ _].
  unfold len. by rewrite <- prepared_metadata, length_fmap.
Qed.

Lemma prepared_nil_iff photo_paths :
  ids (index_loop env index_acc_init 0 photo_paths) = [] ↔ prepared photo_paths = [].
Proof.
  destruct (index_invariant_final photo_paths) as [_ Hids _ _ _ _ _].
  rewrite Hids, <- prepared_metadata. split.
  - intros H%fmap_nil_inv. by apply fmap_nil_inv in H.
  - by intros ->.
Qed.

Lemma prepared_first_occurrence photo_paths e :
  e ∈ prepared photo_paths →
  ∃ i : nat,
    photo_paths !! i = Some (path (entry_metadata e))
    ∧ index (entry_metadata e) = Z.of_nat i
    ∧ filename (entry_metadata e) = basename (path (entry_metadata e))
    ∧ entry_id e = filename (entry_metadata e) +:+ "_" +:+ pretty (Z.of_nat i)
    ∧ Spec.embeddable env (path (entry_metadata e)) = true
    ∧ ∀ (j : nat) q, (j < i)%nat → photo_paths !! j = Some q →
        Spec.embeddable env q = true →
        basename q ≠ filename (entry_metadata e).
Proof.
  intros He.
  destruct (index_invariant_final photo_paths) as [_ Hids Hemb _ _ Hfirst _].
  assert (entry_metadata e ∈ acc_metadatas (index_loop env index_acc_init 0 photo_paths))
    as Hm by (rewrite <- prepared_metadata; by apply list_elem_of_fmap_2).
  destruct (Hfirst _ Hm) as (i & Hi & Hidx & Hf & Hemb' & Hj).
  exists i. split_and!; try done.
  unfold Spec.prepared in He. rewrite Hids in He.
  apply make_entries_ids in He; [|by apply Forall2_length in Hemb].
  rewrite He. unfold Spec.id_of. by rewrite Hidx.
Qed.

Lemma prepared_filenames photo_paths :
  (list_to_set (filename ∘ entry_metadata <$> prepared photo_paths) : gset string)
  = list_to_set (basename <$> filter (λ p, Spec.embeddable env p = true) photo_paths).
Proof.
  destruct (index_invariant_final photo_paths) as [_ _ _ Hfn _ Hfirst Hcov].
  rewrite list_fmap_compose, prepared_metadata.
  apply set_eq. intros f. rewrite !elem_of_list_to_set. split.
  - intros (m & -> & Hm)%list_elem_of_fmap.
    destruct (Hfirst m Hm) as (i & Hi & _ & -> & He & _).
    apply list_elem_of_fmap_2, list_elem_of_filter. split; [done|].
    by eapply list_elem_of_lookup_2.
  - intros (q & -> & [He Hq]%list_elem_of_filter)%list_elem_of_fmap.
    rewrite <- (elem_of_list_to_set (C:=gset string)), <- Hfn. by apply Hcov.
Qed.

Lemma prepared_NoDup photo_paths :
  NoDup (filename ∘ entry_metadata <$> prepared photo_paths).
Proof.
  destruct (index_invariant_final photo_paths) as [_ _ _ _ Hnd _ _].
  by rewrite list_fmap_compose, prepared_metadata.
Qed.

End index_facts.



Example scenario_B :
  (SemanticSearch.index_photos Scenario.healthy Scenario.paths_B true []).1 = Ok 4
  ∧ SemanticSearch.path ∘ SemanticSearch.entry_metadata
      <$> (SemanticSearch.index_photos Scenario.healthy Scenario.paths_B true []).2
    = ["a/x.jpg"; "a/y.jpg"; "a/z.jpg"; "a/w.jpg"].
Proof. vm_compute. done. Qed.






Example scenario_D :
  (λ r, (SemanticSearch.rank r, Qred (SemanticSearch.similarity_score r),
         SemanticSearch.result_filename r)) <$> Scenario.three_hits
  = [(1, (3 # 4)%Q, "x.jpg"); (2, (3 # 4)%Q, "y.jpg"); (3, (3 # 4)%Q, "z.jpg")].
Proof. vm_compute. reflexivity. Qed.

(** ** Slices, ranges and completion order *)

Lemma range_from_slices {A} (l : list A) (step : Z) :
  0 < step →
  ∀ fuel start, 0 ≤ start → (Z.to_nat (len l - start) ≤ fuel)%nat →
    concat ((λ i, slice l i (i + step)) <$> range_from fuel start (len l) step)
    = drop (Z.to_nat start) l.
Proof.
  intros Hstep. unfold len.
  induction fuel as [|fuel IH]; intros start Hstart Hfuel; simpl.
  - rewrite drop_ge; [done|lia].
  - destruct (start <? Z.of_nat (length l)) eqn:E.
    + simpl. rewrite IH by lia. unfold slice.
      replace (start + step - start) with step by lia.
      replace (Z.to_nat (start + step)) with (Z.to_nat start + Z.to_nat step)%nat by lia.
      by rewrite <- drop_drop, take_drop.
    + apply Z.ltb_ge in E. rewrite drop_ge; [done|lia].
Qed.

Lemma range_slices {A} (l : list A) (step : Z) starts :
  0 < step → Py.range (len l) step = Ok starts →
  concat ((λ i, slice l i (i + step)) <$> starts) = l.
Proof.
  intros Hstep. unfold Py.range.
  destruct (step =? 0) eqn:E0; [done|]. destruct (step <? 0) eqn:E1; [lia|].
  intros [= <-]. rewrite range_from_slices; [done|done|lia|lia].
Qed.

Lemma range_returns (stop step : Z) : 0 < step → ∃ starts, Py.range stop step = Ok starts.
Proof.
  intros Hstep. unfold Py.range.
  destruct (step =? 0) eqn:E0; [lia|]. destruct (step <? 0) eqn:E1; [lia|]. eauto.
Qed.

Lemma as_completed_from_Permutation {A} (pick : nat → nat) fuel : ∀ n (futures : list A),
  length futures = fuel →
  Pipeline.as_completed_from fuel pick n futures ≡ₚ futures.
Proof.
  induction fuel as [|fuel IH]; intros n futures Hlen; simpl.
  - by destruct futures.
  - assert (pick n mod length futures < length futures)%nat as Hlt
      by (apply Nat.mod_upper_bound; lia).
    destruct (lookup_lt_is_Some_2 futures _ Hlt) as [f Hf]. rewrite Hf.
    rewrite IH by (rewrite length_delete; [lia|eauto]).
    symmetry. by apply delete_Permutation.
Qed.

Lemma as_completed_Permutation {A} (pick : nat → nat) (futures : list A) :
  Pipeline.as_completed pick futures ≡ₚ futures.
Proof. by apply as_completed_from_Permutation. Qed.

Lemma collect_reported acc futures :
  Pipeline.collect acc futures = acc ++ (futures ≫= Spec.reported).
Proof.
  unfold Pipeline.collect. revert acc.
  induction futures as [|f futures IH]; intros acc; simpl.
  - by rewrite app_nil_r.
  - rewrite IH. destruct f; simpl; [by rewrite app_assoc|done].
Qed.

Lemma filter_defective_split (l : list QualityChecker.QualityReport) :
  len (filter (λ r, QualityChecker.is_defective r = true) l)
  + len (filter (λ r, QualityChecker.is_defective r = false) l) = len l.
Proof.
  unfold len. induction l as [|r l IH]; [done|].
  rewrite !filter_cons. destruct (QualityChecker.is_defective r) eqn:E;
    repeat case_decide; try done; simpl; lia.
Qed.

(** ** The job registry during a run *)

Section pipeline_facts.
Import QualityChecker SemanticSearch Pipeline.
Context {image : Type} (env : Pipeline.Env image) (tid : string).

Local Abbreviation keeps := (Spec.keeps_job (image:=image) tid).

Lemma keeps_ret {A} (a : A) : keeps (mret a).
Proof. by intros st. Qed.

Lemma keeps_lift {A} (r : Py.result A) : keeps (lift r).
Proof. by intros st. Qed.

Lemma keeps_raise {A} msg : keeps (raise msg : M (State image) A).
Proof. by intros st. Qed.

Lemma keeps_bind {A B} (m : M (State image) A) (k : A → M (State image) B) :
  keeps m → (∀ a, keeps (k a)) → keeps (m ≫= k).
Proof.
  intros Hm Hk st Hst. specialize (Hm st Hst).
  unfold mbind, M_bind, Py.bind. destruct (m st) as [[a|msg] st1]; [|done].
  by apply Hk.
Qed.

Lemma keeps_try_except {A} (m : M (State image) A) h :
  keeps m → (∀ e, keeps (h e)) → keeps (try_except m h).
Proof.
  intros Hm Hh st Hst. specialize (Hm st Hst).
  unfold try_except. destruct (m st) as [[a|msg] st1]; [done|].
  by apply Hh.
Qed.

Lemma keeps_with_cache {A} (m : M (gmap string image) A) : keeps (with_cache m).
Proof. intros st Hst. unfold with_cache. by destruct (m (image_cache st)). Qed.

Lemma keeps_with_store {A} (m : M Store A) : keeps (with_store m).
Proof. intros st Hst. unfold with_store. by destruct (m (collection st)). Qed.

Lemma keeps_set_globals pp qp : keeps (set_globals pp qp).
Proof. by intros st. Qed.

Lemma keeps_update tid' u : keeps (update tid' u).
Proof.
  intros st Hst. unfold update. destruct (processing_tasks st !! tid'); [|done].
  unfold Spec.has_job in *. simpl.
  destruct (decide (tid' = tid)) as [->|Hne].
  - rewrite lookup_insert_eq. eauto.
  - by rewrite lookup_insert_ne.
Qed.

Lemma update_run u (st : State image) j :
  processing_tasks st !! tid = Some j →
  ∃ st', update tid u st = (Ok tt, st')
    ∧ processing_tasks st' !! tid = Some (apply_update j u)
    ∧ updates st' = updates st ++ [(tid, u)].
Proof.
  intros Hj. unfold update. rewrite Hj. eexists. split; [done|]. simpl.
  by rewrite lookup_insert_eq.
Qed.

Lemma update_ok_inv u (st st' : State image) :
  update tid u st = (Ok tt, st') →
  ∃ j, processing_tasks st !! tid = Some j
    ∧ processing_tasks st' !! tid = Some (apply_update j u).
Proof.
  unfold update. destruct (processing_tasks st !! tid) as [j|]; [|done].
  intros [= <-]. exists j. simpl. by rewrite lookup_insert_eq.
Qed.

Lemma keeps_submit_all subs : keeps (submit_all env subs).
Proof.
  induction subs as [|sub subs IH]; simpl; [apply keeps_ret|].
  apply keeps_bind.
  - apply keeps_try_except; [|intros; apply keeps_ret].
    apply keeps_bind; [apply keeps_with_cache|intros; apply keeps_ret].
  - intros f. apply keeps_bind; [done|intros; apply keeps_ret].
Qed.

Lemma keeps_screening_step photo_paths total batch_size k i acc :
  keeps (screening_step env tid photo_paths total batch_size k i acc).
Proof.
  unfold screening_step. apply keeps_bind; [apply keeps_update|intros _].
  apply keeps_bind.
  { destruct (_ <=? 0); [apply keeps_raise|apply keeps_ret]. }
  intros _. apply keeps_bind; [apply keeps_lift|intros starts].
  apply keeps_bind; [apply keeps_submit_all|intros; apply keeps_ret].
Qed.

Lemma keeps_screening_loop photo_paths total batch_size starts : ∀ k acc,
  keeps (screening_loop env tid photo_paths total batch_size k starts acc).
Proof.
  induction starts as [|i starts IH]; intros k acc; simpl; [apply keeps_ret|].
  apply keeps_bind; [apply keeps_screening_step|intros; apply IH].
Qed.

Lemma keeps_indexing_loop qualified sbs starts : ∀ n,
  keeps (indexing_loop env tid qualified sbs starts n).
Proof.
  induction starts as [|i starts IH]; intros n; simpl; [apply keeps_ret|].
  apply keeps_bind; [|intros; apply IH].
  unfold indexing_step. apply keeps_bind; [apply keeps_with_store|intros].
  apply keeps_bind; [apply keeps_update|intros; apply keeps_ret].
Qed.

Lemma keeps_background_body folder : keeps (background_body env tid folder).
Proof.
  unfold background_body. apply keeps_bind; [apply keeps_update|intros _].
  destruct (_ =? 0); [apply keeps_update|].
  apply keeps_bind; [apply keeps_update|intros _].
  apply keeps_bind; [apply keeps_lift|intros starts].
  apply keeps_bind; [apply keeps_screening_loop|intros qr].
  apply keeps_bind; [apply keeps_with_cache|intros _].
  apply keeps_bind.
  { destruct (_ <$> _); [apply keeps_ret|].
    apply keeps_bind; [apply keeps_update|intros _].
    apply keeps_bind; [apply keeps_lift|intros; apply keeps_indexing_loop]. }
  intros n. apply keeps_bind; [apply keeps_set_globals|intros _].
  apply keeps_update.
Qed.

(** The futures of a batch report exactly the paths of its sub-batches. *)
Lemma submit_all_reports subs : ∀ st futures st',
  submit_all env subs st = (Ok futures, st') →
  image_path <$> (futures ≫= Spec.reported) = concat subs.
Proof.
  induction subs as [|sub subs IH]; intros st futures st'; simpl.
  - by intros [= <- _].
  - intros H. apply bind_ok_inv in H as (f & st1 & Hf & H).
    apply bind_ok_inv in H as (fs & st2 & Hfs & H).
    injection H as <- _. apply IH in Hfs.
    change (concat (sub :: subs)) with (sub ++ concat subs).
    rewrite bind_cons, fmap_app, Hfs. f_equal.
    unfold try_except in Hf. unfold mbind at 1, M_bind at 1, Py.bind at 1 in Hf.
    unfold with_cache in Hf.
    destruct (process_batch_photos_reports (cv env) (cfg env) sub (image_cache st))
      as (rs & c & Hrs & Hpaths).
    rewrite Hrs in Hf. injection Hf as <- _. done.
Qed.

Lemma screening_step_reports photo_paths total batch_size k i acc st qr st' :
  screening_step env tid photo_paths total batch_size k i acc st = (Ok qr, st') →
  image_path <$> qr ≡ₚ (image_path <$> acc) ++ slice photo_paths i (i + batch_size).
Proof.
  unfold screening_step. intros H.
  apply bind_ok_inv in H as (_ & st1 & _ & H).
  apply bind_ok_inv in H as (_ & st2 & _ & H).
  apply bind_ok_inv in H as (starts & st3 & Hr & H).
  apply bind_ok_inv in H as (futures & st4 & Hf & H).
  injection H as <- _. injection Hr as Hr _.
  apply submit_all_reports in Hf.
  apply range_slices in Hr; [|lia]. rewrite Hr in Hf.
  by rewrite collect_reported, fmap_app, as_completed_Permutation, Hf.
Qed.

Lemma screening_loop_reports photo_paths total batch_size starts :
  ∀ k acc st qr st',
    screening_loop env tid photo_paths total batch_size k starts acc st = (Ok qr, st') →
    image_path <$> qr
    ≡ₚ (image_path <$> acc)
       ++ concat ((λ i, slice photo_paths i (i + batch_size)) <$> starts).
Proof.
  induction starts as [|i starts IH]; intros k acc st qr st'; simpl.
  - intros [= <- _]. by rewrite app_nil_r.
  - intros H. apply bind_ok_inv in H as (qr1 & st1 & Hstep & H).
    apply IH in H. apply screening_step_reports in Hstep.
    by rewrite H, Hstep, <- app_assoc.
Qed.

(** How a run ends, for a registered job: the task returns, and the job
    is in error when the scan found nothing or the [try] block raised,
    completed otherwise. *)
Lemma background_processing_outcome folder (st : State image) :
  Spec.has_job tid st →
  ∃ st' j',
    background_processing env tid folder st = (Ok tt, st')
    ∧ processing_tasks st' !! tid = Some j'
    ∧ match (background_body env tid folder st).1 with
      | Raise e => status j' = error ∧ message j' = "处理失败: " +:+ e
      | Ok _ =>
          if len (Scanner.get_image_files (platform env) (listdir env folder) folder)
             =? 0
          then status j' = error ∧ message j' = "文件夹中未找到图片文件！"
          else
            status j' = completed ∧ progress j' = 100
            ∧ ∃ rd, result j' = Some rd
                ∧ total_photos rd
                  = len (Scanner.get_image_files (platform env) (listdir env folder)
                           folder)
                ∧ (0 < Config.BATCH_SIZE (cfg env) →
                   bad_photos rd + qualified_photos rd = total_photos rd
                   ∧ summary_image_path <$> photos rd
                     ≡ₚ Scanner.get_image_files (platform env) (listdir env folder)
                          folder)
      end.
Proof.
  intros Hjob. unfold background_processing, try_except.
  destruct (background_body env tid folder st) as [[[]|e] st1] eqn:Hb; simpl.
  - unfold background_body in Hb.
    apply bind_ok_inv in Hb as ([] & st2 & _ & Hb).
    destruct (len _ =? 0) eqn:Htotal.
    + apply update_ok_inv in Hb as (j & _ & Hj).
      exists st1; eexists. split_and!; [done|exact Hj|done|done].
    + apply bind_ok_inv in Hb as ([] & st3 & _ & Hb).
      apply bind_ok_inv in Hb as (starts & st4 & Hr & Hb).
      apply bind_ok_inv in Hb as (qr & st5 & Hqr & Hb).
      apply bind_ok_inv in Hb as ([] & st6 & _ & Hb).
      apply bind_ok_inv in Hb as (n & st7 & _ & Hb).
      apply bind_ok_inv in Hb as ([] & st8 & _ & Hb).
      apply update_ok_inv in Hb as (j & _ & Hj).
      exists st1; eexists. split_and!; [done|exact Hj|done|done|].
      eexists. split_and!; [done|done|]. simpl.
      intros Hbs. injection Hr as Hr _. apply range_slices in Hr; [|done].
      apply screening_loop_reports in Hqr. rewrite Hr in Hqr. simpl in Hqr.
      split.
      * unfold len at 2. rewrite length_fmap. fold (len (filter (λ r, is_defective r = false) qr)).
        rewrite filter_defective_split. unfold len.
        by rewrite <- Hqr, length_fmap.
      * rewrite <- Hqr, <- list_fmap_compose. done.
  - assert (Spec.has_job tid st1) as [j Hj].
    { pose proof (keeps_background_body folder st Hjob) as H. by rewrite Hb in H. }
    destruct (update_run {| set_status := Some error; set_progress := None;
                            set_current := None; set_total := None;
                            set_message := Some ("处理失败: " +:+ e);
                            set_result := None |} st1 j Hj) as (st' & Hu & Hj' & _).
    exists st'; eexists. split_and!; [exact Hu|exact Hj'|done|done].
Qed.

(** A task that returns was run on a registered job. *)
Lemma background_processing_needs_job folder (st st' : State image) :
  background_processing env tid folder st = (Ok tt, st') → Spec.has_job tid st.
Proof.
  unfold Spec.has_job. destruct (processing_tasks st !! tid) as [j|] eqn:Hj; [eauto|].
  unfold background_processing, try_except, background_body.
  unfold mbind at 1, M_bind at 1, Py.bind at 1. unfold update at 1. rewrite Hj.
  unfold update. by rewrite Hj.
Qed.

End pipeline_facts.

(** ** Job outcome *)

(** C9, as the specification states it, fails: submitting a folder that
    does not exist creates no job at all, so no job is ever in the [error]
    status because of it; the submit call itself answers with the error. *)
Lemma missing_folder_creates_no_job :
  Pipeline.path_exists Scenario.env_A "nowhere" = false
  ∧ (Scenario.run Scenario.env_A "nowhere").1
    = Ok (Pipeline.ErrorResponse "文件夹路径不存在！")
  ∧ ¬ ∃ tid j,
        Pipeline.processing_tasks (Scenario.run Scenario.env_A "nowhere").2 !! tid = Some j
        ∧ Pipeline.status j = Pipeline.error.
Proof.
  split_and!; [reflexivity..|].
  intros (tid & j & Hj & _). vm_compute in Hj. discriminate.
Qed.

(** C9, amended: submitting a folder that does not exist creates no job
    and changes nothing: the submit call answers with the path-not-found
    error, so nothing reaches [processing].  The run of a registered job
    always returns, leaving the job in [error] or [completed]; it is in
    [error] exactly when the scan yields no image or an exception escapes
    the [try] block.  When the scan yields no image, the run makes two
    updates, to [initializing] and to [error] with the no-image message. *)
Theorem missing_folder_rejected_at_submit {image : Type} (env : Pipeline.Env image)
    (now : Q) (folder : string) (st : Pipeline.State image) :
  (Pipeline.path_exists env folder = false →
   Pipeline.submit_and_run env now folder st
   = (Ok (Pipeline.ErrorResponse "文件夹路径不存在！"), st))
  ∧ ∀ tid, Spec.has_job tid st →
      ∃ st' j',
        Pipeline.background_processing env tid folder st = (Ok tt, st')
        ∧ Pipeline.processing_tasks st' !! tid = Some j'
        ∧ (Pipeline.status j' = Pipeline.error ∨ Pipeline.status j' = Pipeline.completed)
        ∧ (Pipeline.status j' = Pipeline.error
           ↔ Scanner.get_image_files (Pipeline.platform env)
               (Pipeline.listdir env folder) folder = []
             ∨ is_ok (Pipeline.background_body env tid folder st).1 = false)
        ∧ (Scanner.get_image_files (Pipeline.platform env)
             (Pipeline.listdir env folder) folder = [] →
           Pipeline.message j' = "文件夹中未找到图片文件！"
           ∧ ∃ u1 u2,
               Pipeline.updates st' = Pipeline.updates st ++ [(tid, u1); (tid, u2)]
               ∧ Pipeline.set_status u1 = Some Pipeline.initializing
               ∧ Pipeline.set_status u2 = Some Pipeline.error).
Proof.
  split.
  - intros Hmissing. unfold Pipeline.submit_and_run, Pipeline.process_photos_async.
    rewrite Hmissing. reflexivity.
  - intros tid Hjob.
    destruct (background_processing_outcome env tid folder st Hjob)
      as (st' & j' & Hrun & Hj' & Hout).
    exists st', j'. split_and!; [done|done|..].
    + destruct (Pipeline.background_body env tid folder st).1;
        [destruct (len _ =? 0)|]; [left|right|left]; apply Hout.
    + destruct (Pipeline.background_body env tid folder st).1 as [[]|e] eqn:Hb.
      * destruct (len _ =? 0) eqn:Hlen.
        -- apply Z.eqb_eq in Hlen. split; [|by intros _; apply Hout].
           intros _. left. unfold len in Hlen.
           destruct (Scanner.get_image_files _ _ _); [done|simpl in Hlen; lia].
        -- apply Z.eqb_neq in Hlen. destruct Hout as (Hs & _). rewrite Hs.
           split; [done|]. intros [Hnil|?]; [|done]. by rewrite Hnil in Hlen.
      * split; [by right|]. intros _. apply Hout.
    + intros Hnil. clear Hout. revert Hrun.
      unfold Pipeline.background_processing, try_except, Pipeline.background_body.
      rewrite Hnil. simpl. destruct Hjob as [j Hj].
      destruct (update_run tid
                  {| Pipeline.set_status := Some Pipeline.initializing;
                     Pipeline.set_progress := Some 0;
                     Pipeline.set_current := None; Pipeline.set_total := None;
                     Pipeline.set_message := Some "正在扫描文件夹...";
                     Pipeline.set_result := None |} st j Hj)
        as (st1 & Hu1 & Hj1 & Hup1).
      rewrite (bind_run _ _ _ _ _ Hu1).
      destruct (update_run tid
                  {| Pipeline.set_status := Some Pipeline.error;
                     Pipeline.set_progress := None;
                     Pipeline.set_current := None; Pipeline.set_total := None;
                     Pipeline.set_message := Some "文件夹中未找到图片文件！";
                     Pipeline.set_result := None |} st1 _ Hj1)
        as (st2 & Hu2 & Hj2 & Hup2).
      rewrite Hu2. intros [= <-]. rewrite Hj2 in Hj'. injection Hj' as <-.
      split; [done|]. do 2 eexists.
      split; [by rewrite Hup2, Hup1, <- app_assoc|done].
Qed.

(** The amended C9 on a folder that does not exist, and on an empty one. *)
Lemma missing_folder_rejected_at_submit_witness :
  Pipeline.submit_and_run Scenario.env_A 1700000000.123 "nowhere" Scenario.fresh
  = (Ok (Pipeline.ErrorResponse "文件夹路径不存在！"), Scenario.fresh).
Proof.
  apply (missing_folder_rejected_at_submit Scenario.env_A 1700000000.123 "nowhere"
           Scenario.fresh).
  reflexivity.
Defined.



Example scenario_A :
  Pipeline.result Scenario.job_A
  = Some {| Pipeline.total_photos := 3; Pipeline.bad_photos := 1;
            Pipeline.qualified_photos := 2; Pipeline.indexed_photos := 2;
            Pipeline.photos :=
              [ {| Pipeline.summary_image_path := "pics/a.jpg";
                   Pipeline.summary_filename := "a.jpg";
                   Pipeline.summary_is_defective := false;
                   Pipeline.summary_defect_types := [] |};
                {| Pipeline.summary_image_path := "pics/b.jpg";
                   Pipeline.summary_filename := "b.jpg";
                   Pipeline.summary_is_defective := true;
                   Pipeline.summary_defect_types := ["blur"] |};
                {| Pipeline.summary_image_path := "pics/c.jpg";
                   Pipeline.summary_filename := "c.jpg";
                   Pipeline.summary_is_defective := false;
                   Pipeline.summary_defect_types := [] |} ] |}.
Proof. vm_compute. reflexivity. Qed.


(** ** Job progress *)

(** C1 fails on the code: under the default configuration, a folder of 26
    sharp pictures makes the screening pass write 38, 76 and 100, after
    which the first indexing chunk writes 70 + int(25 / 26 * 30) = 98: the
    progress of the job goes from 100 back to 98. *)
Theorem progress_regresses_after_screening :
  Spec.progress_writes
    (Pipeline.updates
       (Scenario.run (Scenario.run_env (Scenario.names 26) (Scenario.sharp_disk 26)
                        Scenario.healthy) "pics").2)
    "1700000000123"
  = [0; 38; 76; 100; 98; 100; 100]
  ∧ ¬ Spec.non_decreasing [0; 38; 76; 100; 98; 100; 100].
Proof.
  split; [by vm_compute|].
  unfold Spec.non_decreasing. intros H.
  do 3 (apply Sorted_inv in H as [H _]).
  apply Sorted_inv in H as [_ H]. apply HdRel_inv in H. lia.
Qed.

(** C2 fails on the code: the screening pass does not stop at 70.  On a
    folder of three sharp pictures its only update already writes 100. *)
Theorem screening_progress_exceeds_70 :
  Spec.screening_writes
    (Pipeline.updates
       (Scenario.run (Scenario.run_env (Scenario.names 3) (Scenario.sharp_disk 3)
                        Scenario.healthy) "pics").2)
    "1700000000123"
  = [100]
  ∧ Pipeline.screening_progress 3 3 = 100.
Proof. by vm_compute. Qed.

Example scan_demo :
  Scanner.get_image_files Posix ["b.png"; "a.jpg"; "notes.txt"; "c.Jpg"; ".x.jpg"; "d.JPG"] "pics"
  = ["pics/a.jpg"; "pics/b.png"; "pics/d.JPG"].
Proof. vm_compute. reflexivity. Qed.

Example scan_demo_nt :
  Scanner.get_image_files Nt ["b.png"; "a.jpg"; "c.Jpg"] "pics"
  = ["pics\a.jpg"; "pics\b.png"; "pics\c.Jpg"].
Proof. vm_compute. reflexivity. Qed.

(** * Further properties *)

(** ** Invariants of monadic code *)

Section preserves_facts.
Context {S : Type} (Inv : S → Prop).

Lemma preserves_ret {A} (a : A) : Laws.preserves Inv (mret a : M S A).
Proof. by intros st. Qed.

Lemma preserves_lift {A} (r : Py.result A) : Laws.preserves Inv (lift r : M S A).
Proof. by intros st. Qed.

Lemma preserves_raise {A} msg : Laws.preserves Inv (raise msg : M S A).
Proof. by intros st. Qed.

Lemma preserves_get : Laws.preserves Inv (Py.get : M S S).
Proof. by intros st. Qed.

Lemma preserves_bind {A B} (m : M S A) (k : A → M S B) :
  Laws.preserves Inv m → (∀ a, Laws.preserves Inv (k a)) → Laws.preserves Inv (m ≫= k).
Proof.
  intros Hm Hk st Hst. specialize (Hm st Hst).
  unfold mbind, M_bind, Py.bind. destruct (m st) as [[a|msg] st1]; [|done].
  by apply Hk.
Qed.

Lemma preserves_try_except {A} (m : M S A) h :
  Laws.preserves Inv m → (∀ e, Laws.preserves Inv (h e)) →
  Laws.preserves Inv (try_except m h).
Proof.
  intros Hm Hh st Hst. specialize (Hm st Hst).
  unfold try_except. destruct (m st) as [[a|msg] st1]; [done|].
  by apply Hh.
Qed.

Lemma preserves_lift_bind {A B} (r : Py.result A) (k : A → M S B) :
  (∀ a, r = Ok a → Laws.preserves Inv (k a)) → Laws.preserves Inv (lift r ≫= k).
Proof.
  intros Hk st Hst. unfold mbind, M_bind, Py.bind, lift.
  destruct r as [a|msg]; [|done]. by apply Hk.
Qed.

Lemma transparent_ret {A} (a : A) : Laws.transparent Inv (mret a : M S A).
Proof. by intros st1 st2. Qed.

Lemma transparent_lift {A} (r : Py.result A) : Laws.transparent Inv (lift r : M S A).
Proof. by intros st1 st2. Qed.

Lemma transparent_bind {A B} (m : M S A) (k : A → M S B) :
  Laws.transparent Inv m → Laws.preserves Inv m →
  (∀ a, Laws.transparent Inv (k a)) →
  Laws.transparent Inv (m ≫= k).
Proof.
  intros Hm Hp Hk st1 st2 H1 H2.
  specialize (Hm st1 st2 H1 H2). pose proof (Hp st1 H1). pose proof (Hp st2 H2).
  unfold mbind, M_bind, Py.bind.
  destruct (m st1) as [[a1|e1] s1], (m st2) as [[a2|e2] s2]; simpl in *;
    try done.
  - injection Hm as <-. by apply Hk.
  - by injection Hm as <-.
Qed.

Lemma transparent_try_except {A} (m : M S A) h :
  Laws.transparent Inv m → Laws.preserves Inv m →
  (∀ e, Laws.transparent Inv (h e)) →
  Laws.transparent Inv (try_except m h).
Proof.
  intros Hm Hp Hh st1 st2 H1 H2.
  specialize (Hm st1 st2 H1 H2). pose proof (Hp st1 H1). pose proof (Hp st2 H2).
  unfold try_except.
  destruct (m st1) as [[a1|e1] s1], (m st2) as [[a2|e2] s2]; simpl in *;
    try done.
  injection Hm as <-. by apply Hh.
Qed.

End preserves_facts.

(** ** The decode cache *)

Section cache_facts.
Import QualityChecker.
Context {image : Type} (cv : Cv2 image) (cfg : Config.t).

Lemma coherent_empty : Laws.coherent cv cfg ∅.
Proof. intros path img H. by rewrite lookup_empty in H. Qed.

Lemma coherent_of_empty (cache : gmap string image) :
  cache = ∅ → Laws.coherent cv cfg cache.
Proof. intros ->. apply coherent_empty. Qed.

Lemma coherent_insert cache path img :
  Laws.coherent cv cfg cache → Laws.decode cv cfg path = Some img →
  Laws.coherent cv cfg (<[path := img]> cache).
Proof.
  intros Hc Hd p i. destruct (decide (path = p)) as [->|Hne].
  - rewrite lookup_insert_eq. by intros [= <-].
  - rewrite lookup_insert_ne by done. apply Hc.
Qed.

(** With a coherent cache, fetching a path gives what decoding it gives,
    whether it was cached or not; the cache stays coherent, loses nothing,
    and grows by at most this path, and only below the limit. *)
Lemma get_gray_image_coherent path cache :
  Laws.coherent cv cfg cache →
  ∃ cache',
    _get_gray_image cv cfg path cache = (Ok (Laws.decode cv cfg path), cache')
    ∧ Laws.coherent cv cfg cache'
    ∧ (cache' = cache
       ∨ (cache !! path = None
          ∧ Z.of_nat (size cache) < Config.IMAGE_CACHE_SIZE cfg
          ∧ ∃ img, cache' = <[path := img]> cache)).
Proof.
  intros Hc. unfold _get_gray_image. run_M. unfold Cache.
  destruct (cache !! path) as [img|] eqn:Hp.
  { exists cache. rewrite (Hc _ _ Hp). split_and!; auto. }
  assert (∀ img', Laws.decode cv cfg path = Some img' →
            ∃ cache',
              (if Z.of_nat (size cache) <? Config.IMAGE_CACHE_SIZE cfg
               then (Ok (Some img'), <[path := img']> cache)
               else (Ok (Some img'), cache))
              = (Ok (Laws.decode cv cfg path), cache')
              ∧ Laws.coherent cv cfg cache'
              ∧ (cache' = cache
                 ∨ (cache !! path = None
                    ∧ Z.of_nat (size cache) < Config.IMAGE_CACHE_SIZE cfg
                    ∧ ∃ i, cache' = <[path := i]> cache))) as Hput.
  { intros img' Hd. rewrite Hd. destruct (Z.of_nat (size cache) <? _) eqn:E.
    - eexists. split_and!; [done|by apply coherent_insert|].
      right. apply Z.ltb_lt in E. eauto.
    - exists cache. split_and!; auto. }
  pose proof (eq_refl (Laws.decode cv cfg path)) as Hd. unfold Laws.decode at 2 in Hd.
  destruct (imread cv path) as [[img|]|]; [|rewrite Hd; exists cache; split_and!; auto..].
  destruct (shape cv img) as [h w]. simpl in Hd.
  destruct (Config.MAX_IMAGE_SIZE cfg <? h * w).
  - destruct (resize cv img _ _) as [small|]; [|rewrite Hd; exists cache; split_and!; auto].
    specialize (Hput small Hd).
    destruct Hput as (c' & He & Hco & Hor). exists c'.
    destruct (Z.of_nat (size cache) <? Config.IMAGE_CACHE_SIZE cfg);
      (split_and!; [exact He | exact Hco
                   | destruct Hor as [?|(_ & ? & ?)]; [by left|by right]]).
  - specialize (Hput img Hd).
    destruct Hput as (c' & He & Hco & Hor). exists c'.
    destruct (Z.of_nat (size cache) <? Config.IMAGE_CACHE_SIZE cfg);
      (split_and!; [exact He | exact Hco
                   | destruct Hor as [?|(_ & ? & ?)]; [by left|by right]]).
Qed.

(** Whatever the cache holds, fetching a path leaves it as it was or adds
    this one path, and adds it only while the cache is below its limit. *)
Lemma get_gray_image_cache path (cache : gmap string image) :
  (_get_gray_image cv cfg path cache).2 = cache
  ∨ (cache !! path = None
     ∧ Z.of_nat (size cache) < Config.IMAGE_CACHE_SIZE cfg
     ∧ ∃ img, (_get_gray_image cv cfg path cache).2 = <[path := img]> cache).
Proof.
  unfold _get_gray_image. run_M. unfold Cache.
  destruct (cache !! path) as [img|] eqn:Hp; [by left|].
  destruct (imread cv path) as [[img|]|]; [|by left..].
  destruct (shape cv img) as [h w].
  destruct (Config.MAX_IMAGE_SIZE cfg <? h * w);
    [destruct (resize cv img _ _) as [small|]; [|by left]|];
    (destruct (Z.of_nat (size cache) <? Config.IMAGE_CACHE_SIZE cfg) eqn:E;
     [right; apply Z.ltb_lt in E; eauto|by left]).
Qed.

Lemma get_gray_image_within cache0 bound path :
  (Z.to_nat (Config.IMAGE_CACHE_SIZE cfg) ≤ bound)%nat →
  Laws.preserves (Laws.within cache0 bound) (_get_gray_image cv cfg path).
Proof.
  intros Hb cache [Hsub Hsize].
  change (Laws.within cache0 bound (_get_gray_image cv cfg path cache).2).
  destruct (get_gray_image_cache path cache) as [->|(Hnone & Hlt & img & ->)]; [done|].
  split.
  - etransitivity; [done|]. by apply insert_subseteq.
  - rewrite map_size_insert_None by done. lia.
Qed.

Lemma get_gray_image_preserves_coherent path :
  Laws.preserves (Laws.coherent cv cfg) (_get_gray_image cv cfg path).
Proof.
  intros cache Hc.
  change (Laws.coherent cv cfg (_get_gray_image cv cfg path cache).2).
  destruct (get_gray_image_coherent path cache Hc) as (c & -> & ? & _).
  done.
Qed.

Lemma get_gray_image_transparent path :
  Laws.transparent (Laws.coherent cv cfg) (_get_gray_image cv cfg path).
Proof.
  intros c1 c2 H1 H2.
  change ((_get_gray_image cv cfg path c1).1 = (_get_gray_image cv cfg path c2).1).
  destruct (get_gray_image_coherent path c1 H1) as (? & -> & _).
  by destruct (get_gray_image_coherent path c2 H2) as (? & -> & _).
Qed.

Section any_invariant.
Context (Inv : gmap string image → Prop).
Hypothesis Hget : ∀ path, Laws.preserves Inv (_get_gray_image cv cfg path).

Lemma detect_blur_preserves path : Laws.preserves Inv (detect_blur cv cfg path).
Proof.
  unfold detect_blur. apply preserves_bind; [apply Hget|intros [img|]].
  - apply preserves_bind; [apply preserves_lift|intros; apply preserves_ret].
  - apply preserves_ret.
Qed.

Lemma detect_exposure_preserves path : Laws.preserves Inv (detect_exposure cv cfg path).
Proof.
  unfold detect_exposure. apply preserves_bind; [apply Hget|intros [img|]].
  - destruct (shape cv img).
    apply preserves_bind; [apply preserves_lift|intros; apply preserves_ret].
  - apply preserves_ret.
Qed.

Lemma check_photo_quality_preserves path :
  Laws.preserves Inv (check_photo_quality cv cfg path).
Proof.
  unfold check_photo_quality.
  apply preserves_bind; [apply detect_blur_preserves|intros b].
  apply preserves_bind; [apply detect_exposure_preserves|intros x].
  apply preserves_bind; [apply preserves_ret|intros; apply preserves_ret].
Qed.

Lemma process_batch_loop_preserves batch : ∀ acc,
  Laws.preserves Inv (process_batch_loop cv cfg batch acc).
Proof.
  induction batch as [|path batch IH]; intros acc; simpl; [apply preserves_ret|].
  apply preserves_bind; [|intros; apply IH].
  apply preserves_try_except; [|intros; apply preserves_ret].
  apply preserves_bind; [apply check_photo_quality_preserves|intros; apply preserves_ret].
Qed.

Lemma batch_check_loop_preserves batch : ∀ acc,
  Laws.preserves Inv (QualityBatch.batch_check_loop cv cfg batch acc).
Proof.
  induction batch as [|path batch IH]; intros acc; simpl; [apply preserves_ret|].
  apply preserves_bind; [apply check_photo_quality_preserves|intros; apply IH].
Qed.

End any_invariant.

Lemma check_photo_quality_transparent path :
  Laws.transparent (Laws.coherent cv cfg) (check_photo_quality cv cfg path).
Proof.
  pose proof get_gray_image_preserves_coherent as Hget.
  unfold check_photo_quality.
  apply transparent_bind; [|by apply detect_blur_preserves|intros b].
  { unfold detect_blur. apply transparent_bind;
      [apply get_gray_image_transparent|apply Hget|intros [img|]].
    - apply transparent_bind;
        [apply transparent_lift|apply preserves_lift|intros; apply transparent_ret].
    - apply transparent_ret. }
  apply transparent_bind; [|by apply detect_exposure_preserves|intros x].
  { unfold detect_exposure. apply transparent_bind;
      [apply get_gray_image_transparent|apply Hget|intros [img|]].
    - destruct (shape cv img). apply transparent_bind;
        [apply transparent_lift|apply preserves_lift|intros; apply transparent_ret].
    - apply transparent_ret. }
  apply transparent_bind; [apply transparent_ret|apply preserves_ret|].
  intros; apply transparent_ret.
Qed.

(** With a coherent cache, a check gives the report of a fresh check. *)
Lemma check_photo_quality_fresh path cache :
  Laws.coherent cv cfg cache →
  (check_photo_quality cv cfg path cache).1 = Laws.fresh_report cv cfg path.
Proof.
  intros Hc. apply (check_photo_quality_transparent path cache ∅ Hc coherent_empty).
Qed.

Lemma process_batch_loop_fresh batch : ∀ acc cache,
  Laws.coherent cv cfg cache →
  (process_batch_loop cv cfg batch acc cache).1
  = Ok (acc ++ (Laws.fresh_or_fallback cv cfg <$> batch)).
Proof.
  induction batch as [|path batch IH]; intros acc cache Hc; simpl.
  - by rewrite app_nil_r.
  - pose proof (check_photo_quality_fresh path cache Hc) as Hf.
    pose proof (check_photo_quality_preserves _ get_gray_image_preserves_coherent
                  path cache Hc) as Hc1.
    unfold mbind at 1, M_bind at 1, Py.bind at 1, try_except.
    unfold mbind at 1, M_bind at 1, Py.bind at 1.
    unfold Laws.fresh_or_fallback at 1. rewrite <- Hf.
    destruct (check_photo_quality cv cfg path cache) as [[r|e] c1]; simpl in *;
      rewrite IH by done; by rewrite <- app_assoc.
Qed.

(** Where the batch check returns, the batch worker returns the same. *)
Lemma batch_check_loop_agrees batch : ∀ acc cache rs cache',
  QualityBatch.batch_check_loop cv cfg batch acc cache = (Ok rs, cache') →
  process_batch_loop cv cfg batch acc cache = (Ok rs, cache').
Proof.
  induction batch as [|path batch IH]; intros acc cache rs cache'; simpl; [done|].
  intros H. apply bind_ok_inv in H as (r & c1 & Hr & H).
  unfold mbind at 1, M_bind at 1, Py.bind at 1, try_except.
  rewrite (bind_run _ _ _ _ _ Hr), mret_run. by apply IH.
Qed.

Lemma batch_check_loop_returns batch : ∀ acc cache,
  Laws.coherent cv cfg cache →
  is_ok (QualityBatch.batch_check_loop cv cfg batch acc cache).1
  = forallb (λ path, is_ok (Laws.fresh_report cv cfg path)) batch.
Proof.
  induction batch as [|path batch IH]; intros acc cache Hc; simpl; [done|].
  pose proof (check_photo_quality_fresh path cache Hc) as Hf.
  pose proof (check_photo_quality_preserves _ get_gray_image_preserves_coherent
                path cache Hc) as Hc1.
  unfold mbind at 1, M_bind at 1, Py.bind at 1. rewrite <- Hf.
  destruct (check_photo_quality cv cfg path cache) as [[r|e] c1]; simpl in *; [|done].
  by apply IH.
Qed.

End cache_facts.

(** X1: a check made with a coherent cache (one that holds, for each path,
    the array that decoding the path gives) returns exactly what a check
    with an empty cache returns, and leaves the cache coherent: the decode
    cache never changes a report. *)
Theorem cached_check_is_fresh_check {image : Type} (cv : QualityChecker.Cv2 image)
    (cfg : Config.t) (path : string) (cache : gmap string image) :
  Laws.coherent cv cfg cache →
  (QualityChecker.check_photo_quality cv cfg path cache).1
  = (QualityChecker.check_photo_quality cv cfg path ∅).1
  ∧ Laws.coherent cv cfg (QualityChecker.check_photo_quality cv cfg path cache).2.
Proof.
  intros Hc. split.
  - apply (check_photo_quality_fresh cv cfg path cache Hc).
  - apply (check_photo_quality_preserves cv cfg _
             (get_gray_image_preserves_coherent cv cfg) path cache Hc).
Qed.

(** X1 on a cache that already holds the decoded [pics/b.jpg]. *)
Lemma cached_check_is_fresh_check_witness :
  (QualityChecker.check_photo_quality (Scenario.cv2_on Scenario.disk_A) Config.default
     "pics/b.jpg" {[ "pics/b.jpg" := Scenario.blurry ]}).1
  = (QualityChecker.check_photo_quality (Scenario.cv2_on Scenario.disk_A) Config.default
       "pics/b.jpg" ∅).1.
Proof.
  apply (cached_check_is_fresh_check (Scenario.cv2_on Scenario.disk_A) Config.default
           "pics/b.jpg" {[ "pics/b.jpg" := Scenario.blurry ]}).
  intros path img [<- <-]%lookup_singleton_Some. reflexivity.
Defined.

(** X2: the decode cache has a hard cap and no eviction: whatever the batch
    and the cache it starts from, the batch worker leaves a cache that still
    holds every entry it held, unchanged, and whose size is at most the
    larger of its initial size and [IMAGE_CACHE_SIZE]. *)
Theorem batch_keeps_cache_within_cap {image : Type} (cv : QualityChecker.Cv2 image)
    (cfg : Config.t) (batch : list string) (cache : gmap string image) :
  cache ⊆ (QualityChecker.process_batch_photos cv cfg batch cache).2
  ∧ (size (QualityChecker.process_batch_photos cv cfg batch cache).2
     ≤ size cache `max` Z.to_nat (Config.IMAGE_CACHE_SIZE cfg))%nat.
Proof.
  apply (process_batch_loop_preserves cv cfg
           (Laws.within cache (size cache `max` Z.to_nat (Config.IMAGE_CACHE_SIZE cfg)))).
  - intros path. apply get_gray_image_within. lia.
  - split; [done|lia].
Qed.

(** X3: [batch_check_quality] has no fallback: where it returns, it returns
    what the batch worker [process_batch_photos] returns, one report per
    path in order; and, from a coherent cache, it returns exactly when no
    path of the list makes a fresh check raise. *)
Theorem batch_check_quality_has_no_fallback {image : Type}
    (cv : QualityChecker.Cv2 image) (cfg : Config.t) (image_paths : list string)
    (cache : gmap string image) :
  (∀ rs cache',
     QualityBatch.batch_check_quality cv cfg image_paths cache = (Ok rs, cache') →
     QualityChecker.process_batch_photos cv cfg image_paths cache = (Ok rs, cache')
     ∧ QualityChecker.image_path <$> rs = image_paths)
  ∧ (Laws.coherent cv cfg cache →
     is_ok (QualityBatch.batch_check_quality cv cfg image_paths cache).1
     = forallb (λ path, is_ok (Laws.fresh_report cv cfg path)) image_paths).
Proof.
  split.
  - intros rs cache' H. apply batch_check_loop_agrees in H.
    split; [exact H|].
    destruct (process_batch_photos_reports cv cfg image_paths cache)
      as (rs' & c & Hrun & Hpaths).
    unfold QualityChecker.process_batch_photos in Hrun. rewrite H in Hrun.
    by injection Hrun as -> _.
  - apply batch_check_loop_returns.
Qed.

(** X3 on a sharp picture and a file that cannot be decoded: neither makes
    a check raise. *)
Lemma batch_check_quality_has_no_fallback_witness :
  is_ok (QualityBatch.batch_check_quality (Scenario.cv2_on Scenario.disk_A)
           Config.default ["pics/a.jpg"; "pics/broken.jpg"] ∅).1 = true.
Proof.
  rewrite (proj2 (batch_check_quality_has_no_fallback (Scenario.cv2_on Scenario.disk_A)
                    Config.default ["pics/a.jpg"; "pics/broken.jpg"] ∅)).
  - vm_compute. reflexivity.
  - intros path img H. by rewrite lookup_empty in H.
Defined.

(** ** More on indexing and search *)

Section more_index_facts.
Import SemanticSearch.
Context (env : Env).

(** With a working provider and store, a call writes the prepared entries
    after what the clearing step left. *)
Lemma index_photos_working photo_paths clear st :
  clip_available env = true → (∀ c, store_fails env c = false) →
  index_photos env photo_paths clear st
  = (Ok (len (Spec.prepared env photo_paths)),
     (if clear && bool_decide (photo_paths ≠ []) then [] else st)
     ++ Spec.prepared env photo_paths).
Proof.
  intros Hclip Hstore. rewrite index_photos_run.
  destruct photo_paths as [|p rest] eqn:Hp.
  { rewrite andb_false_r. by rewrite app_nil_r. }
  rewrite <- Hp. rewrite Hclip, clear_existing_step_run, !Hstore.
  rewrite bool_decide_eq_true_2, andb_true_r by (by rewrite Hp).
  assert (∀ old, write_step env (index_loop env index_acc_init 0 photo_paths) old
                 = (Ok (len (Spec.prepared env photo_paths)),
                    old ++ Spec.prepared env photo_paths)) as Hw.
  { intros old. rewrite write_step_run, !Hstore.
    destruct (ids _) eqn:Hids.
    - apply prepared_nil_iff in Hids.
      by rewrite <- prepared_length, Hids, app_nil_r.
    - rewrite prepared_length, <- Hids. reflexivity. }
  destruct clear; [|apply Hw].
  destruct (0 <? len st) eqn:E; [apply Hw|].
  rewrite Hw. destruct st; [done|]. apply Z.ltb_ge in E. unfold len in E. simpl in E. lia.
Qed.

(** The stored entries follow the input list: their paths form a
    subsequence of it and their indices increase. *)
Lemma index_loop_order rest : ∀ seen acc,
  path <$> acc_metadatas acc `sublist_of` seen →
  Forall (λ m, index m < len seen) (acc_metadatas acc) →
  StronglySorted Z.lt (index <$> acc_metadatas acc) →
  path <$> acc_metadatas (index_loop env acc (len seen) rest) `sublist_of` seen ++ rest
  ∧ StronglySorted Z.lt (index <$> acc_metadatas (index_loop env acc (len seen) rest)).
Proof.
  induction rest as [|p rest IH]; intros seen acc Hsub Hlt Hsorted; simpl.
  - by rewrite app_nil_r.
  - replace (len seen + 1) with (len (seen ++ [p]))
      by (unfold len; rewrite length_app; simpl; lia).
    rewrite (assoc_L (++) seen [p] rest : seen ++ p :: rest = (seen ++ [p]) ++ rest).
    destruct (decide (Spec.embeddable env p = true
                      ∧ os_path_basename (os env) p ∉ indexed_filenames acc))
      as [[He Hnew]|Hskip].
    + destruct (index_step_indexes env acc (len seen) p He Hnew) as (e & _ & Hstep).
      apply IH; rewrite Hstep; simpl.
      * rewrite fmap_app. by apply sublist_app.
      * apply Forall_app. split.
        -- eapply Forall_impl; [done|]. intros m Hm. simpl in Hm.
           unfold len in *. rewrite length_app. simpl. lia.
        -- constructor; [|done]. simpl. unfold len. rewrite length_app. simpl. lia.
      * rewrite fmap_app. simpl.
        apply StronglySorted_app_2; [|done|by repeat constructor].
        intros i j Hi Hj. apply list_elem_of_singleton in Hj as ->.
        apply list_elem_of_fmap in Hi as (m & -> & Hm).
        by eapply Forall_forall in Hlt.
    + assert (Spec.embeddable env p = false
              ∨ os_path_basename (os env) p ∈ indexed_filenames acc) as Hskip'.
      { destruct (Spec.embeddable env p); [|by left].
        right. destruct (decide (os_path_basename (os env) p ∈ indexed_filenames acc));
          [done|]. by destruct Hskip. }
      destruct (index_step_skips env acc (len seen) p Hskip') as (n & Hstep).
      apply IH; rewrite Hstep; simpl.
      * by apply sublist_inserts_r.
      * eapply Forall_impl; [done|]. intros m Hm. simpl in Hm.
        unfold len in *. rewrite length_app. simpl. lia.
      * done.
Qed.

End more_index_facts.

Section more_search_facts.
Import SemanticSearch.
Context (env : Env).

(** What a call leaves in the store besides what it wrote. *)
Lemma index_photos_writes photo_paths clear st n st' :
  index_photos env photo_paths clear st = (Ok n, st') →
  ∃ old written,
    st' = old ++ written ∧ (old = st ∨ old = [])
    ∧ (written = [] ∨ written = Spec.prepared env photo_paths).
Proof.
  rewrite index_photos_run. destruct photo_paths as [|p rest] eqn:Hp.
  { intros [= <- <-]. exists st, []. rewrite app_nil_r. auto. }
  rewrite <- Hp. destruct (clip_available env).
  2:{ intros [= <- <-]. exists st, []. rewrite app_nil_r. auto. }
  rewrite clear_existing_step_run.
  assert (∀ old, (old = st ∨ old = []) →
            write_step env (index_loop env index_acc_init 0 photo_paths) old
            = (Ok n, st') →
            ∃ old written,
              st' = old ++ written ∧ (old = st ∨ old = [])
              ∧ (written = [] ∨ written = Spec.prepared env photo_paths)) as Hw.
  { intros old Hold. rewrite write_step_run.
    destruct (ids _) eqn:Hids.
    - intros [= <- <-]. exists old, []. rewrite app_nil_r. auto.
    - rewrite <- Hids.
      change (make_entries _ _ _) with (Spec.prepared env photo_paths).
      destruct (store_fails env AddEntries).
      + intros [= <- <-]. exists old, []. rewrite app_nil_r. auto.
      + destruct (store_fails env CountAfterAdd); intros [= <- <-];
          exists old, (Spec.prepared env photo_paths); auto. }
  destruct clear; [|by apply Hw; left].
  destruct (store_fails env CountBeforeClear); [done|].
  destruct (0 <? len st); [|by apply Hw; left].
  destruct (store_fails env GetOrCreateCollection); [done|].
  apply Hw. destruct (store_fails env DeleteCollection); auto.
Qed.

Lemma prepared_order photo_paths :
  path ∘ entry_metadata <$> Spec.prepared env photo_paths `sublist_of` photo_paths
  ∧ StronglySorted Z.lt (index ∘ entry_metadata <$> Spec.prepared env photo_paths).
Proof.
  rewrite !list_fmap_compose, prepared_metadata.
  apply (index_loop_order env photo_paths [] index_acc_init); simpl;
    [done|constructor|constructor].
Qed.

(** The search, case by case. *)
Lemma search_photos_run query_text top_k st :
  search_photos env query_text top_k st
  = (if clip_available env then
       match get_text_embedding env query_text with
       | Some (v :: e) =>
           if store_fails env CountForSearch then Raise "chromadb error"
           else if len st =? 0 then Ok []
           else if store_fails env QueryCollection then Ok []
           else
             match first_nonempty
                     (metadatas (nearest env st (v :: e) (Z.min top_k (len st)))) with
             | Some metas =>
                 search_loop (nearest env st (v :: e) (Z.min top_k (len st))) 0 metas []
             | None => Ok []
             end
       | Some [] | None => Ok []
       end
     else Ok [],
     st).
Proof.
  unfold search_photos, collection_count, store_call_guard.
  destruct (clip_available env); simpl; [|done].
  destruct (get_text_embedding env query_text) as [[|v e]|]; [done| |done].
  run_M.
  destruct (store_fails env CountForSearch); [done|].
  destruct (len st =? 0); [done|].
  destruct (store_fails env QueryCollection); [done|].
  destruct (first_nonempty (metadatas _)) as [metas|]; [|done].
  by destruct (search_loop _ 0 metas []).
Qed.

(** The conversion loop raises exactly when it runs out of distances. *)
Lemma search_loop_returns results metas : ∀ idx acc,
  0 ≤ idx →
  (∀ ds, first_nonempty (distances results) = Some ds → (Z.to_nat idx ≤ length ds)%nat) →
  is_ok (search_loop results idx metas acc)
  = match first_nonempty (distances results) with
    | Some ds => bool_decide (Z.to_nat idx + length metas ≤ length ds)%nat
    | None => true
    end.
Proof.
  induction metas as [|m metas IH]; intros idx acc Hidx Hle; simpl.
  - destruct (first_nonempty (distances results)) as [ds|] eqn:Hds; [|done].
    symmetry. apply bool_decide_eq_true_2. specialize (Hle ds eq_refl). lia.
  - destruct (first_nonempty (distances results)) as [ds|] eqn:Hds.
    + destruct (ds !! Z.to_nat idx) as [d|] eqn:Hd.
      * apply lookup_lt_Some in Hd. rewrite IH; [|lia|].
        -- apply bool_decide_ext. lia.
        -- intros ds' [= <-]. lia.
      * apply lookup_ge_None in Hd. simpl. symmetry.
        apply bool_decide_eq_false_2. lia.
    + rewrite IH; [done|lia|done].
Qed.

End more_search_facts.

(** X4: with a working provider and store, a call of [index_photos] on a
    non-empty list returns the number of entries it writes; without
    [clear_existing] it keeps every stored entry and appends its own (stated
    for a store that holds none of the ids the call writes: what the vector
    store does with an id it already holds is left to the store); with
    [clear_existing] it leaves exactly its own entries, whatever the store
    held. *)
Theorem index_photos_appends_unless_cleared (env : SemanticSearch.Env)
    (photo_paths : list string) (st : list SemanticSearch.IndexEntry) :
  SemanticSearch.clip_available env = true →
  (∀ c, SemanticSearch.store_fails env c = false) →
  photo_paths ≠ [] →
  ((∀ e, e ∈ Spec.prepared env photo_paths →
         SemanticSearch.entry_id e ∉ SemanticSearch.entry_id <$> st) →
   SemanticSearch.index_photos env photo_paths false st
   = (Ok (len (Spec.prepared env photo_paths)), st ++ Spec.prepared env photo_paths))
  ∧ SemanticSearch.index_photos env photo_paths true st
    = (Ok (len (Spec.prepared env photo_paths)), Spec.prepared env photo_paths).
Proof.
  intros Hclip Hstore Hne.
  rewrite !(index_photos_working env _ _ _ Hclip Hstore). simpl.
  by rewrite bool_decide_eq_true_2 by done.
Qed.

(** X4 on scenario B's photos: appended to an empty store, and replacing a
    store of three entries, the call leaves its own four entries. *)
Lemma index_photos_appends_unless_cleared_witness :
  length (SemanticSearch.index_photos Scenario.healthy Scenario.paths_B false []).2
  = 4%nat
  ∧ length (SemanticSearch.index_photos Scenario.healthy Scenario.paths_B true
              Scenario.three_entries).2 = 4%nat.
Proof.
  split.
  - destruct (index_photos_appends_unless_cleared Scenario.healthy Scenario.paths_B [])
      as [H _]; [reflexivity | intros c; reflexivity | discriminate |].
    rewrite H; [vm_compute; reflexivity|]. intros e _. apply not_elem_of_nil.
  - destruct (index_photos_appends_unless_cleared Scenario.healthy Scenario.paths_B
                Scenario.three_entries) as [_ H];
      [reflexivity | intros c; reflexivity | discriminate |].
    rewrite H. vm_compute. reflexivity.
Defined.

(** X5: whatever a call of [index_photos] writes follows the input list:
    the store afterwards is what the call kept of the old store followed by
    the written entries, whose paths are a subsequence of the input paths
    and whose recorded indices strictly increase. *)
Theorem indexed_entries_follow_input (env : SemanticSearch.Env)
    (photo_paths : list string) (clear_existing : bool)
    (st st' : list SemanticSearch.IndexEntry) (n : Z) :
  SemanticSearch.index_photos env photo_paths clear_existing st = (Ok n, st') →
  ∃ old written,
    st' = old ++ written
    ∧ (old = st ∨ old = [])
    ∧ SemanticSearch.path ∘ SemanticSearch.entry_metadata <$> written
      `sublist_of` photo_paths
    ∧ StronglySorted Z.lt
        (SemanticSearch.index ∘ SemanticSearch.entry_metadata <$> written).
Proof.
  intros H. apply index_photos_writes in H as (old & written & -> & Hold & Hw).
  exists old, written. split_and!; [done|done|idtac..].
  - destruct Hw as [-> | ->]; [apply sublist_nil_l|apply prepared_order].
  - destruct Hw as [-> | ->]; [constructor|apply prepared_order].
Qed.

(** X5 on scenario B's photos. *)
Lemma indexed_entries_follow_input_witness :
  ∃ old written,
    (SemanticSearch.index_photos Scenario.healthy Scenario.paths_B true []).2
    = old ++ written
    ∧ (old = [] ∨ old = [])
    ∧ SemanticSearch.path ∘ SemanticSearch.entry_metadata <$> written
      `sublist_of` Scenario.paths_B
    ∧ StronglySorted Z.lt
        (SemanticSearch.index ∘ SemanticSearch.entry_metadata <$> written).
Proof.
  apply (indexed_entries_follow_input Scenario.healthy Scenario.paths_B true []
           _ (len (SemanticSearch.index_photos Scenario.healthy Scenario.paths_B
                     true []).2)).
  vm_compute. reflexivity.
Defined.

(** X6: [search_photos] never writes to the store, and degrades to the
    empty list, without raising, when the provider is unavailable, when
    the query cannot be embedded, when the store is empty, or when the
    query call on the store fails. *)
Theorem search_degrades_to_empty (env : SemanticSearch.Env) (query_text : string)
    (top_k : Z) (st : list SemanticSearch.IndexEntry) :
  (SemanticSearch.search_photos env query_text top_k st).2 = st
  ∧ (SemanticSearch.clip_available env = false
     ∨ SemanticSearch.get_text_embedding env query_text = None
     ∨ (SemanticSearch.store_fails env SemanticSearch.CountForSearch = false
        ∧ (st = []
           ∨ SemanticSearch.store_fails env SemanticSearch.QueryCollection = true)) →
     SemanticSearch.search_photos env query_text top_k st = (Ok [], st)).
Proof.
  rewrite search_photos_run. split; [done|].
  intros [Hclip|[Hemb|[Hcount Hor]]].
  - by rewrite Hclip.
  - rewrite Hemb. by destruct (SemanticSearch.clip_available env).
  - rewrite Hcount. destruct (SemanticSearch.clip_available env); [|done].
    destruct (SemanticSearch.get_text_embedding env query_text) as [[|v e]|];
      [done| |done].
    destruct Hor as [->|Hq]; [done|]. rewrite Hq. by destruct (len st =? 0).
Qed.

(** X6 without the CLIP model. *)
Lemma search_degrades_to_empty_witness :
  SemanticSearch.search_photos Scenario.no_clip "beach" 10 Scenario.three_entries
  = (Ok [], Scenario.three_entries).
Proof.
  apply (search_degrades_to_empty Scenario.no_clip "beach" 10 Scenario.three_entries).
  left. reflexivity.
Defined.

(** X7: once the query is embedded, the store counted (and not empty) and
    queried, [search_photos] raises exactly when the answer carries some
    distances but fewer of them than metadatas (the index error of the
    conversion loop); when it returns, it returns one result per metadata
    of the answer, or none when the answer has no metadatas. *)
Theorem search_raises_on_short_distances (env : SemanticSearch.Env)
    (query_text : string) (top_k : Z) (st : list SemanticSearch.IndexEntry)
    (v : Q) (e : list Q) :
  SemanticSearch.clip_available env = true →
  SemanticSearch.get_text_embedding env query_text = Some (v :: e) →
  SemanticSearch.store_fails env SemanticSearch.CountForSearch = false →
  SemanticSearch.store_fails env SemanticSearch.QueryCollection = false →
  st ≠ [] →
  (is_ok (SemanticSearch.search_photos env query_text top_k st).1
   = match SemanticSearch.first_nonempty
             (SemanticSearch.metadatas
                (SemanticSearch.nearest env st (v :: e) (Z.min top_k (len st)))),
           SemanticSearch.first_nonempty
             (SemanticSearch.distances
                (SemanticSearch.nearest env st (v :: e) (Z.min top_k (len st)))) with
     | Some metas, Some ds => bool_decide (length metas ≤ length ds)%nat
     | _, _ => true
     end)
  ∧ ∀ out st',
      SemanticSearch.search_photos env query_text top_k st = (Ok out, st') →
      length out
      = length (default []
                  (SemanticSearch.first_nonempty
                     (SemanticSearch.metadatas
                        (SemanticSearch.nearest env st (v :: e)
                           (Z.min top_k (len st)))))).
Proof.
  intros Hclip Hemb Hcount Hquery Hne.
  rewrite search_photos_run, Hclip, Hemb, Hcount, Hquery.
  assert ((len st =? 0) = false) as ->.
  { apply Z.eqb_neq. destruct st; [done|]. unfold len. simpl. lia. }
  destruct (SemanticSearch.first_nonempty (SemanticSearch.metadatas _)) as [metas|].
  - split.
    + simpl. rewrite search_loop_returns; [done|done|]. intros; simpl; lia.
    + intros out st' [= H _]. simpl.
      apply search_loop_scores in H as (new & -> & Hlen & _); [|done].
      by rewrite app_nil_l.
  - split; [done|]. by intros out st' [= <- _].
Qed.

(** X7 on the store of scenario D, whose answers carry one distance per
    metadata: the search returns three results. *)
Lemma search_raises_on_short_distances_witness :
  is_ok (SemanticSearch.search_photos Scenario.healthy "beach" 10
           Scenario.three_entries).1 = true.
Proof.
  rewrite (proj1 (search_raises_on_short_distances Scenario.healthy "beach" 10
                    Scenario.three_entries 0 [1%Q]
                    eq_refl eq_refl eq_refl eq_refl ltac:(discriminate))).
  vm_compute. reflexivity.
Defined.

(** ** More on the run of a job *)

Lemma range_from_bounds fuel : ∀ start stop step,
  0 < step → Forall (λ i, start ≤ i < stop) (range_from fuel start stop step).
Proof.
  induction fuel as [|fuel IH]; intros start stop step Hstep; simpl; [constructor|].
  destruct (start <? stop) eqn:E; [|constructor].
  apply Z.ltb_lt in E. constructor; [lia|].
  eapply Forall_impl; [by apply IH|]. simpl. intros i Hi. lia.
Qed.

Lemma range_bounds stop step starts :
  Py.range stop step = Ok starts → Forall (λ i, 0 ≤ i < stop) starts.
Proof.
  unfold Py.range. destruct (step =? 0) eqn:E0; [done|].
  destruct (step <? 0) eqn:E; intros [= <-]; [constructor|].
  apply Z.ltb_ge in E. apply Z.eqb_neq in E0. apply range_from_bounds. lia.
Qed.

(** [int] of a float between 0 and an integer [n] lies between 0 and [n]. *)
Lemma int_bounds (q : Q) (n : Z) :
  (0 <= q)%Q → (q <= inject_Z n)%Q → 0 ≤ int q ≤ n.
Proof.
  destruct q as [num den]. unfold Py.int, Qle. simpl. intros H0 Hn.
  assert (0 ≤ num) by lia.
  rewrite Z.quot_div_nonneg by lia. split.
  - apply Z.div_pos; lia.
  - apply Z.div_le_upper_bound; lia.
Qed.

Lemma truediv_unit (c t : Z) : 0 ≤ c → c ≤ t → 0 < t → (0 <= truediv c t <= 1)%Q.
Proof.
  intros Hc Hct Ht. unfold truediv.
  assert (0 < inject_Z t)%Q as Ht'.
  { change (inject_Z 0 < inject_Z t)%Q. by rewrite <- Zlt_Qlt. }
  split.
  - apply Qle_shift_div_l; [done|]. rewrite Qmult_0_l.
    change (inject_Z 0 <= inject_Z c)%Q. by rewrite <- Zle_Qle.
  - apply Qle_shift_div_r; [done|]. rewrite Qmult_1_l. by rewrite <- Zle_Qle.
Qed.

Lemma screening_progress_range (current total : Z) :
  0 ≤ current → current ≤ total → 0 < total →
  0 ≤ Pipeline.screening_progress current total ≤ 100.
Proof.
  intros H0 H1 H2. unfold Pipeline.screening_progress.
  pose proof (truediv_unit current total H0 H1 H2) as [Hl Hu].
  apply int_bounds; [lra|]. change (inject_Z 100) with 100%Q.
  set (x := truediv current total) in *. lra.
Qed.

Lemma indexing_progress_range (done n : Z) :
  0 ≤ done → done ≤ n → 0 < n →
  0 ≤ Pipeline.indexing_progress done n ≤ 30.
Proof.
  intros H0 H1 H2. unfold Pipeline.indexing_progress.
  pose proof (truediv_unit done n H0 H1 H2) as [Hl Hu].
  apply int_bounds; [lra|]. change (inject_Z 30) with 30%Q.
  set (x := truediv done n) in *. lra.
Qed.

Lemma slice_length_le {A} (l : list A) (i j : Z) :
  0 ≤ i → i + len (slice l i j) ≤ Z.max i (len l).
Proof.
  intros Hi. unfold len, slice. rewrite length_take, length_drop. lia.
Qed.

Lemma range_cases stop step starts :
  Py.range stop step = Ok starts →
  starts = [] ∨ (0 < step ∧ Forall (λ i, 0 ≤ i < stop) starts).
Proof.
  intros H. pose proof (range_bounds _ _ _ H) as Hb. revert H. unfold Py.range.
  destruct (step =? 0) eqn:E0; [done|]. apply Z.eqb_neq in E0.
  destruct (step <? 0) eqn:E; intros [= <-]; [by left|].
  apply Z.ltb_ge in E. right. split; [lia|done].
Qed.

Section run_invariants.
Import QualityChecker SemanticSearch Pipeline.
Context {image : Type} (env : Pipeline.Env image) (tid : string).
Context (Inv : State image → Prop) (ok : Update → Prop).
Hypothesis Hupd : ∀ u, ok u → Laws.preserves Inv (update tid u).
Hypothesis Hbatch : ∀ sub_batch,
  Laws.preserves Inv (with_cache (process_batch_photos (cv env) (cfg env) sub_batch)).
Hypothesis Hclear : Laws.preserves Inv (with_cache (image:=image) clear_cache).
Hypothesis Hindex : ∀ batch clear_flag,
  Laws.preserves Inv (with_store (index_photos (search_env env) batch clear_flag)).
Hypothesis Hglob : ∀ pp qp, Laws.preserves Inv (set_globals (image:=image) pp qp).
Hypothesis Hok : ∀ u, Laws.working_status u → Laws.progress_in_range u → ok u.

Lemma submit_all_preserves subs : Laws.preserves Inv (submit_all env subs).
Proof.
  induction subs as [|sub subs IH]; simpl; [apply preserves_ret|].
  apply preserves_bind.
  - apply preserves_try_except; [|intros; apply preserves_ret].
    apply preserves_bind; [apply Hbatch|intros; apply preserves_ret].
  - intros f. apply preserves_bind; [done|intros; apply preserves_ret].
Qed.

Lemma screening_loop_preserves photo_paths total batch_size starts : ∀ k acc,
  0 < batch_size → Forall (λ i, 0 ≤ i < total) starts →
  Laws.preserves Inv (screening_loop env tid photo_paths total batch_size k starts acc).
Proof.
  induction starts as [|i starts IH]; intros k acc Hbs Hstarts; simpl;
    [apply preserves_ret|].
  apply Forall_cons in Hstarts as [Hi Hstarts].
  apply preserves_bind; [|intros; by apply IH].
  unfold screening_step. apply preserves_bind.
  { apply Hupd, Hok; [by right; right|].
    unfold Laws.progress_in_range. simpl. apply screening_progress_range; lia. }
  intros _. apply preserves_bind.
  { destruct (_ <=? 0); [apply preserves_raise|apply preserves_ret]. }
  intros _. apply preserves_bind; [apply preserves_lift|intros ss].
  apply preserves_bind; [apply submit_all_preserves|intros; apply preserves_ret].
Qed.

Lemma indexing_loop_preserves qualified sbs starts : ∀ n,
  Forall (λ i, 0 ≤ i < len qualified) starts →
  Laws.preserves Inv (indexing_loop env tid qualified sbs starts n).
Proof.
  induction starts as [|i starts IH]; intros n Hstarts; simpl; [apply preserves_ret|].
  apply Forall_cons in Hstarts as [Hi Hstarts].
  apply preserves_bind; [|intros; by apply IH].
  unfold indexing_step. apply preserves_bind; [apply Hindex|intros m].
  apply preserves_bind; [|intros; apply preserves_ret].
  apply Hupd, Hok; [by left|]. unfold Laws.progress_in_range. simpl.
  pose proof (slice_length_le qualified i (i + sbs) ltac:(lia)).
  pose proof (indexing_progress_range (i + len (slice qualified i (i + sbs)))
                (len qualified)) as Hp.
  unfold len in *. lia.
Qed.

Lemma ends_bind {A B} Fin (m : M (State image) A) (k : A → M (State image) B) :
  Laws.preserves Inv m → (∀ a, Laws.ends Inv Fin (k a)) → Laws.ends Inv Fin (m ≫= k).
Proof.
  intros Hm Hk st Hst. specialize (Hm st Hst).
  unfold mbind, M_bind, Py.bind. destruct (m st) as [[a|msg] st1]; [|done].
  by apply Hk.
Qed.

Lemma ends_lift_bind {A B} Fin (r : Py.result A) (k : A → M (State image) B) :
  (∀ a, r = Ok a → Laws.ends Inv Fin (k a)) → Laws.ends Inv Fin (lift r ≫= k).
Proof.
  intros Hk st Hst. unfold mbind, M_bind, Py.bind, lift.
  destruct r as [a|msg]; [|done]. by apply Hk.
Qed.

(** The update that ends the job, as the last step. *)
Lemma ends_update u :
  Laws.final_status u → Laws.progress_in_range u →
  Laws.ends Inv
    (λ s', ∃ s u', Inv s ∧ Laws.final_status u' ∧ Laws.progress_in_range u'
                   ∧ update tid u' s = (Ok tt, s'))
    (update tid u).
Proof.
  intros Hfin Hrange st Hst.
  destruct (update tid u st) as [[[]|msg] st1] eqn:H; simpl; [by eauto 10|].
  unfold update in H. destruct (processing_tasks st !! tid); [done|].
  by injection H as _ <-.
Qed.

(** The [try] block keeps an invariant of the running job up to the update
    that ends the job, which is the last thing it does. *)
Lemma background_body_ends folder :
  Laws.ends Inv
    (λ s', ∃ s u, Inv s ∧ Laws.final_status u ∧ Laws.progress_in_range u
                  ∧ update tid u s = (Ok tt, s'))
    (background_body env tid folder).
Proof.
  unfold background_body. apply ends_bind.
  { apply Hupd, Hok; [by right; left|]. unfold Laws.progress_in_range. simpl. lia. }
  intros _. destruct (_ =? 0); [apply ends_update; [by left|done]|].
  apply ends_bind; [apply Hupd, Hok; [by left|done]|intros _].
  apply ends_lift_bind. intros starts Hr.
  apply ends_bind.
  { destruct (range_cases _ _ _ Hr) as [-> | [Hbs Hb]]; [apply preserves_ret|].
    by apply screening_loop_preserves. }
  intros qr. apply ends_bind; [apply Hclear|intros _].
  apply ends_bind.
  { destruct (_ <$> _) eqn:Hq; [apply preserves_ret|]. rewrite <- Hq.
    apply preserves_bind; [apply Hupd, Hok; [by left|done]|intros _].
    apply preserves_lift_bind. intros ss Hr'.
    apply indexing_loop_preserves. by apply range_bounds in Hr'. }
  intros n. apply ends_bind; [apply Hglob|intros _].
  apply ends_update; [by right|]. unfold Laws.progress_in_range. simpl. lia.
Qed.

Section whole_run.
Hypothesis Hfinal : ∀ u, Laws.final_status u → Laws.progress_in_range u → ok u.

Lemma background_body_preserves folder :
  Laws.preserves Inv (background_body env tid folder).
Proof.
  intros st Hst. pose proof (background_body_ends folder st Hst) as H.
  destruct (background_body env tid folder st) as [[[]|msg] st1]; simpl in *; [|done].
  destruct H as (s & u & Hs & Hfin & Hrange & Hu).
  pose proof (Hupd u (Hfinal u Hfin Hrange) s Hs) as H. by rewrite Hu in H.
Qed.

Lemma background_processing_preserves folder :
  Laws.preserves Inv (background_processing env tid folder).
Proof.
  unfold background_processing. apply preserves_try_except.
  - apply background_body_preserves.
  - intros e. apply Hupd, Hfinal; [by left|done].
Qed.

End whole_run.

End run_invariants.

(** X8: a run only touches its own job: whatever happens during
    [background_processing] of one task, the record of every other task is
    afterwards what it was before. *)
Theorem run_leaves_other_jobs_alone {image : Type} (env : Pipeline.Env image)
    (tid tid' folder : string) (st : Pipeline.State image) :
  tid' ≠ tid →
  Pipeline.processing_tasks (Pipeline.background_processing env tid folder st).2 !! tid'
  = Pipeline.processing_tasks st !! tid'.
Proof.
  intros Hne.
  apply (background_processing_preserves env tid
           (λ s, Pipeline.processing_tasks s !! tid' = Pipeline.processing_tasks st !! tid')
           (λ _, True)); [| | | | |done..].
  - intros u _ s Hs. unfold Pipeline.update.
    destruct (Pipeline.processing_tasks s !! tid); [|done]. simpl.
    by rewrite lookup_insert_ne.
  - intros sub s Hs. unfold Pipeline.with_cache.
    by destruct (QualityChecker.process_batch_photos _ _ _ _).
  - by intros s Hs.
  - intros batch clear_flag s Hs. unfold Pipeline.with_store.
    by destruct (SemanticSearch.index_photos _ _ _ _).
  - by intros pp qp s Hs.
Qed.

(** X8 on scenario A: the run of the submitted job does not create or
    change a job called [other]. *)
Lemma run_leaves_other_jobs_alone_witness :
  Pipeline.processing_tasks Scenario.finished_A !! "other"
  = Pipeline.processing_tasks Scenario.submitted_A !! "other".
Proof.
  apply (run_leaves_other_jobs_alone Scenario.env_A "1700000000123" "other" "pics"
           Scenario.submitted_A).
  discriminate.
Defined.

(** X9: every progress value written during a run lies between 0 and 100,
    whether the run completes or fails: if the progress of the job and
    every progress written so far are in this range before
    [background_processing], they are afterwards. *)
Theorem run_keeps_progress_in_range {image : Type} (env : Pipeline.Env image)
    (tid folder : string) (st : Pipeline.State image) :
  Forall (λ u, Laws.progress_in_range u.2) (Pipeline.updates st) →
  (∀ j, Pipeline.processing_tasks st !! tid = Some j → 0 ≤ Pipeline.progress j ≤ 100) →
  Forall (λ u, Laws.progress_in_range u.2)
    (Pipeline.updates (Pipeline.background_processing env tid folder st).2)
  ∧ ∀ j, Pipeline.processing_tasks (Pipeline.background_processing env tid folder st).2
           !! tid = Some j →
         0 ≤ Pipeline.progress j ≤ 100.
Proof.
  intros Hlog Hjob.
  apply (background_processing_preserves env tid
           (λ s, Forall (λ u, Laws.progress_in_range u.2) (Pipeline.updates s)
                 ∧ ∀ j, Pipeline.processing_tasks s !! tid = Some j →
                        0 ≤ Pipeline.progress j ≤ 100)
           Laws.progress_in_range); [| | | | |done..].
  - intros u Hu s [Hs1 Hs2]. unfold Laws.progress_in_range in Hu.
    unfold Pipeline.update.
    destruct (Pipeline.processing_tasks s !! tid) as [j|] eqn:Hj.
    2:{ simpl. split; [done|]. intros j. by rewrite Hj. }
    simpl. split.
    + apply Forall_app. split; [done|]. constructor; [|done].
      unfold Laws.progress_in_range. simpl. by destruct (Pipeline.set_progress u).
    + intros j'. rewrite lookup_insert_eq. intros [= <-]. simpl.
      specialize (Hs2 j eq_refl). by destruct (Pipeline.set_progress u).
  - intros sub s Hs. unfold Pipeline.with_cache.
    by destruct (QualityChecker.process_batch_photos _ _ _ _).
  - by intros s Hs.
  - intros batch clear_flag s Hs. unfold Pipeline.with_store.
    by destruct (SemanticSearch.index_photos _ _ _ _).
  - by intros pp qp s Hs.
Qed.

(** X9 on scenario A. *)
Lemma run_keeps_progress_in_range_witness :
  Forall (λ u, Laws.progress_in_range u.2) (Pipeline.updates Scenario.finished_A).
Proof.
  apply (run_keeps_progress_in_range Scenario.env_A "1700000000123" "pics"
           Scenario.submitted_A).
  - constructor.
  - intros j Hj. vm_compute in Hj. injection Hj as <-. simpl. lia.
Defined.

(** X25: a polling client sees the end of a job once, and last.  The run
    of a registered job appends to the log of updates a sequence of updates
    of this job that leave it running (they set no status, or
    [initializing], or [processing]), followed by exactly one update that
    sets the status to [completed] or [error]; nothing is written after
    it. *)
Theorem final_status_is_written_last {image : Type} (env : Pipeline.Env image)
    (tid folder : string) (st : Pipeline.State image) :
  Spec.has_job tid st →
  ∃ new last,
    Pipeline.updates (Pipeline.background_processing env tid folder st).2
    = Pipeline.updates st ++ new ++ [(tid, last)]
    ∧ Forall (λ u, u.1 = tid ∧ Laws.working_status u.2) new
    ∧ Laws.final_status last.
Proof.
  intros Hjob.
  set (Inv := λ s : Pipeline.State image,
         Spec.has_job tid s
         ∧ ∃ new, Pipeline.updates s = Pipeline.updates st ++ new
                  ∧ Forall (λ u, u.1 = tid ∧ Laws.working_status u.2) new).
  assert (∀ u (s s' : Pipeline.State image),
            Pipeline.update tid u s = (Ok tt, s') →
            Pipeline.updates s' = Pipeline.updates s ++ [(tid, u)]) as Hlog.
  { intros u s s'. unfold Pipeline.update.
    destruct (Pipeline.processing_tasks s !! tid); [|done]. by intros [= <-]. }
  assert (Inv st) as Hst.
  { split; [done|]. exists []. by rewrite app_nil_r. }
  pose proof (background_body_ends env tid Inv Laws.working_status) as Hends.
  specialize (Hends) with (6 := λ u Hu _, Hu).
  assert (Laws.ends Inv
            (λ s', ∃ s u, Inv s ∧ Laws.final_status u ∧ Laws.progress_in_range u
                          ∧ Pipeline.update tid u s = (Ok tt, s'))
            (Pipeline.background_body env tid folder)) as Hbody.
  { apply Hends.
    - intros u Hu s [Hs (new & Hnew & Hall)]. split; [by apply keeps_update|].
      unfold Pipeline.update. destruct (Pipeline.processing_tasks s !! tid); [|by eauto].
      simpl. exists (new ++ [(tid, u)]). rewrite Hnew, <- app_assoc. split; [done|].
      apply Forall_app. split; [done|]. by constructor.
    - intros sub s Hs. unfold Pipeline.with_cache.
      by destruct (QualityChecker.process_batch_photos _ _ _ _).
    - by intros s Hs.
    - intros batch clear_flag s Hs. unfold Pipeline.with_store.
      by destruct (SemanticSearch.index_photos _ _ _ _).
    - by intros pp qp s Hs. }
  specialize (Hbody st Hst). clear Hends.
  unfold Pipeline.background_processing, try_except.
  destruct (Pipeline.background_body env tid folder st) as [[[]|msg] st1];
    simpl in Hbody.
  - destruct Hbody as (s & u & [_ (new & Hnew & Hall)] & Hfin & _ & Hu).
    exists new, u. split_and!; [|done|done].
    simpl. by rewrite (Hlog _ _ _ Hu), Hnew, <- app_assoc.
  - destruct Hbody as [[j Hj] (new & Hnew & Hall)].
    destruct (update_run tid
                {| Pipeline.set_status := Some Pipeline.error;
                   Pipeline.set_progress := None;
                   Pipeline.set_current := None; Pipeline.set_total := None;
                   Pipeline.set_message := Some ("处理失败: " +:+ msg);
                   Pipeline.set_result := None |} st1 j Hj)
      as (st2 & Hu & _ & Hlog2).
    rewrite Hu. eexists new, _.
    split; [simpl; by rewrite Hlog2, Hnew, <- app_assoc|].
    split; [done|by left].
Qed.

(** X25 on scenario A. *)
Lemma final_status_is_written_last_witness :
  ∃ new last,
    Pipeline.updates Scenario.finished_A
    = Pipeline.updates Scenario.submitted_A ++ new ++ [("1700000000123", last)]
    ∧ Forall (λ u, u.1 = "1700000000123" ∧ Laws.working_status u.2) new
    ∧ Laws.final_status last.
Proof.
  apply (final_status_is_written_last Scenario.env_A "1700000000123" "pics"
           Scenario.submitted_A).
  eexists. vm_compute. reflexivity.
Defined.

(** ** Consistency of the reports *)

Section report_facts.
Import QualityChecker.
Context {image : Type} (cv : Cv2 image) (cfg : Config.t).

Lemma blur_kind_cases b :
  Spec.blur_kind cfg b = None ∨ Spec.blur_kind cfg b = Some "blur".
Proof.
  unfold Spec.blur_kind. destruct (blur_score b); [|by left].
  destruct (Py.lt _ _); auto.
Qed.

Lemma exposure_kind_cases x :
  Spec.exposure_kind cfg x = None
  ∨ Spec.exposure_kind cfg x = Some "overexposed"
  ∨ Spec.exposure_kind cfg x = Some "underexposed".
Proof.
  unfold Spec.exposure_kind.
  destruct (overexposed_ratio x), (underexposed_ratio x); auto.
  repeat (destruct (Py.lt _ _); auto).
Qed.

Lemma check_photo_quality_consistent path cache r cache' :
  check_photo_quality cv cfg path cache = (Ok r, cache') → Laws.consistent r.
Proof.
  intros H. apply check_photo_quality_inv in H as (b & x & y & c1 & Hb & Hx & Hy & ->).
  destruct (detect_blur_kind _ _ _ _ _ _ Hb) as [Hbt Hbd].
  destruct (detect_exposure_kind _ _ _ _ _ _ Hx) as [Hxt Hxd].
  unfold detect_closed_eyes in Hy. injection Hy as <-.
  unfold Laws.consistent, Laws.possible_defect_types. simpl.
  rewrite Hbt, Hxt, Hbd, Hxd.
  destruct (blur_kind_cases b) as [-> | ->],
           (exposure_kind_cases x) as [-> | [-> | ->]]; simpl;
    (split; [done|]); rewrite !elem_of_cons; auto 10.
Qed.

Lemma fallback_report_consistent path : Laws.consistent (fallback_report path).
Proof. split; [done|]. apply list_elem_of_here. Qed.

Lemma process_batch_loop_consistent batch : ∀ acc cache,
  Forall Laws.consistent acc →
  ∃ rs cache',
    process_batch_loop cv cfg batch acc cache = (Ok rs, cache')
    ∧ Forall Laws.consistent rs.
Proof.
  induction batch as [|path batch IH]; intros acc cache Hacc; simpl; [by eauto|].
  unfold mbind at 1, M_bind at 1, Py.bind at 1, try_except.
  unfold mbind at 1, M_bind at 1, Py.bind at 1.
  destruct (check_photo_quality cv cfg path cache) as [[r|msg] c1] eqn:Hc;
    rewrite mret_run; apply IH; apply Forall_app; (split; [done|]);
    constructor; try done.
  - by eapply check_photo_quality_consistent.
  - apply fallback_report_consistent.
Qed.

End report_facts.

(** X10: the batch worker never raises, and every record it produces, the
    fallback record included, is marked defective exactly when it lists a
    defect; the list is one of: nothing, blur, overexposed, underexposed,
    blur with overexposed, blur with underexposed. *)
Theorem batch_reports_are_consistent {image : Type} (cv : QualityChecker.Cv2 image)
    (cfg : Config.t) (batch_paths : list string) (cache : gmap string image) :
  match (QualityChecker.process_batch_photos cv cfg batch_paths cache).1 with
  | Ok batch_results => Forall Laws.consistent batch_results
  | Raise _ => False
  end.
Proof.
  destruct (process_batch_loop_consistent cv cfg batch_paths [] cache)
    as (rs & c & H & Hrs); [constructor|].
  unfold QualityChecker.process_batch_photos. by rewrite H.
Qed.

(** ** The passes of a run *)

Section run_structure.
Import QualityChecker SemanticSearch Pipeline.
Context {image : Type} (env : Pipeline.Env image) (tid : string).

Local Abbreviation coherent_cache :=
  (λ s : State image, Laws.coherent (cv env) (cfg env) (image_cache s)).
Local Abbreviation fresh := (Laws.fresh_or_fallback (cv env) (cfg env)).

Lemma screening_frame_refl (s : State image) : Laws.screening_frame s s.
Proof. by split_and!. Qed.

Lemma screening_frame_trans (s1 s2 s3 : State image) :
  Laws.screening_frame s1 s2 → Laws.screening_frame s2 s3 → Laws.screening_frame s1 s3.
Proof. intros (?&?&?) (?&?&?). split_and!; congruence. Qed.

Lemma indexing_frame_refl (s : State image) : Laws.indexing_frame s s.
Proof. by split_and!. Qed.

Lemma indexing_frame_trans (s1 s2 s3 : State image) :
  Laws.indexing_frame s1 s2 → Laws.indexing_frame s2 s3 → Laws.indexing_frame s1 s3.
Proof. intros (?&?&?) (?&?&?). split_and!; congruence. Qed.

(** An update changes the job and the log of updates, nothing else. *)
Lemma update_inv u (st st' : State image) :
  update tid u st = (Ok tt, st') →
  ∃ j, processing_tasks st !! tid = Some j
    ∧ processing_tasks st' !! tid = Some (apply_update j u)
    ∧ image_cache st' = image_cache st
    ∧ Laws.screening_frame st st'.
Proof.
  unfold update. destruct (processing_tasks st !! tid) as [j|]; [|done].
  intros [= <-]. exists j. simpl. rewrite lookup_insert_eq. by split_and!.
Qed.

Lemma with_cache_inv {A} (m : M (gmap string image) A) (st st' : State image) a :
  with_cache m st = (Ok a, st') →
  m (image_cache st) = (Ok a, image_cache st')
  ∧ processing_tasks st' = processing_tasks st
  ∧ Laws.screening_frame st st'.
Proof.
  unfold with_cache. destruct (m (image_cache st)) as [r c].
  intros [= -> <-]. by split_and!.
Qed.

Lemma with_store_inv {A} (m : M Store A) (st st' : State image) a :
  with_store m st = (Ok a, st') →
  m (collection st) = (Ok a, collection st')
  ∧ processing_tasks st' = processing_tasks st
  ∧ Laws.indexing_frame st st'.
Proof.
  unfold with_store. destruct (m (collection st)) as [r c].
  intros [= -> <-]. by split_and!.
Qed.

Lemma reported_fresh (subs : list (list string)) :
  ((λ sub : list string, Ok (fresh <$> sub) : Py.result (list QualityReport)) <$> subs)
    ≫= Spec.reported
  = fresh <$> concat subs.
Proof.
  induction subs as [|sub subs IH]; [done|].
  rewrite fmap_cons, bind_cons, IH. simpl. by rewrite fmap_app.
Qed.

(** The futures of a batch: the screening pass leaves the index and the
    globals alone, and from a coherent cache every future holds the fresh
    reports of its sub-batch. *)
Lemma submit_all_inv subs : ∀ (st : State image) futures st',
  submit_all env subs st = (Ok futures, st') →
  Laws.screening_frame st st'
  ∧ processing_tasks st' = processing_tasks st
  ∧ (coherent_cache st →
     coherent_cache st'
     ∧ futures = (λ sub : list string, Ok (fresh <$> sub)) <$> subs).
Proof.
  induction subs as [|sub subs IH]; intros st futures st'; simpl.
  - intros [= <- <-]. split_and!; [apply screening_frame_refl|done|done].
  - intros H. apply bind_ok_inv in H as (f & st1 & Hf & H).
    apply bind_ok_inv in H as (fs & st2 & Hfs & H).
    injection H as <- <-. apply IH in Hfs as (Hfr2 & Ht2 & Hc2).
    unfold try_except in Hf. unfold mbind at 1, M_bind at 1, Py.bind at 1 in Hf.
    destruct (with_cache (process_batch_photos (cv env) (cfg env) sub) st)
      as [[rs|e] st1'] eqn:Hw.
    + rewrite mret_run in Hf. injection Hf as <- <-.
      apply with_cache_inv in Hw as (Hrun & Ht1 & Hfr1).
      split_and!; [by eapply screening_frame_trans|congruence|].
      intros Hc.
      pose proof (process_batch_loop_fresh (cv env) (cfg env) sub [] _ Hc) as Hfresh.
      pose proof (process_batch_loop_preserves (cv env) (cfg env) _
                    (get_gray_image_preserves_coherent (cv env) (cfg env))
                    sub [] _ Hc) as Hc1.
      unfold process_batch_photos in Hrun. rewrite Hrun in Hfresh, Hc1.
      simpl in Hfresh, Hc1. injection Hfresh as ->.
      destruct (Hc2 Hc1) as [Hc' ->]. done.
    + exfalso. unfold with_cache in Hw.
      destruct (process_batch_photos_reports (cv env) (cfg env) sub (image_cache st))
        as (rs & c & Hrs & _).
      by rewrite Hrs in Hw.
Qed.

Lemma screening_step_inv photo_paths total batch_size k i acc (st : State image) qr st' :
  screening_step env tid photo_paths total batch_size k i acc st = (Ok qr, st') →
  Laws.screening_frame st st'
  ∧ (coherent_cache st →
     coherent_cache st'
     ∧ qr ≡ₚ acc ++ (fresh <$> slice photo_paths i (i + batch_size))).
Proof.
  unfold screening_step. intros H.
  apply bind_ok_inv in H as ([] & st1 & Hu & H).
  apply bind_ok_inv in H as ([] & st2 & Hw & H).
  apply bind_ok_inv in H as (starts & st3 & Hr & H).
  apply bind_ok_inv in H as (futures & st4 & Hf & H).
  injection H as <- <-. injection Hr as Hr <-.
  apply update_inv in Hu as (j & _ & _ & Hcache1 & Hfr1).
  assert (st2 = st1) as ->.
  { destruct (_ <=? 0); [done|]. by injection Hw. }
  apply submit_all_inv in Hf as (Hfr2 & _ & Hc).
  split; [by eapply screening_frame_trans|].
  intros Hcoh. rewrite <- Hcache1 in Hcoh. destruct (Hc Hcoh) as [Hcoh' ->].
  split; [done|].
  assert (0 < Z.max 1 (batch_size `div` Config.MAX_WORKERS (cfg env))) as Hpos by lia.
  rewrite collect_reported, as_completed_Permutation, reported_fresh.
  by rewrite (range_slices _ _ _ Hpos Hr).
Qed.

Lemma screening_loop_inv photo_paths total batch_size starts :
  ∀ k acc (st : State image) qr st',
    screening_loop env tid photo_paths total batch_size k starts acc st = (Ok qr, st') →
    Laws.screening_frame st st'
    ∧ (coherent_cache st →
       coherent_cache st'
       ∧ qr ≡ₚ acc ++ (fresh <$> concat ((λ i, slice photo_paths i (i + batch_size))
                                          <$> starts))).
Proof.
  induction starts as [|i starts IH]; intros k acc st qr st'; simpl.
  - intros [= <- <-]. split; [apply screening_frame_refl|].
    intros Hc. by rewrite app_nil_r.
  - intros H. apply bind_ok_inv in H as (qr1 & st1 & Hstep & H).
    apply screening_step_inv in Hstep as (Hfr1 & Hc1).
    apply IH in H as (Hfr2 & Hc2).
    split; [by eapply screening_frame_trans|].
    intros Hc. destruct (Hc1 Hc) as [Hc' Hqr1]. destruct (Hc2 Hc') as [Hc'' Hqr].
    split; [done|]. by rewrite Hqr, Hqr1, fmap_app, <- app_assoc.
Qed.

(** The indexing pass changes the store as [Laws.index_chunks] says and
    leaves the decode cache and the globals alone. *)
Lemma indexing_loop_inv qualified sbs starts : ∀ n (st : State image) n' st',
  indexing_loop env tid qualified sbs starts n st = (Ok n', st') →
  Laws.index_chunks (search_env env) qualified sbs starts n (collection st)
  = (Ok n', collection st')
  ∧ Laws.indexing_frame st st'.
Proof.
  induction starts as [|i starts IH]; intros n st n' st'; simpl.
  - intros [= <- <-]. split; [done|apply indexing_frame_refl].
  - intros H. apply bind_ok_inv in H as (n1 & st1 & Hstep & H).
    apply IH in H as (Hchunks & Hfr2).
    unfold indexing_step in Hstep.
    apply bind_ok_inv in Hstep as (m & st2 & Hidx & Hstep).
    apply bind_ok_inv in Hstep as ([] & st3 & Hu & Hstep).
    injection Hstep as <- <-.
    apply with_store_inv in Hidx as (Hidx & _ & Hfr1).
    apply update_inv in Hu as (j & _ & _ & Hcache & Hcoll & Hpp & Hqp).
    split.
    + rewrite (bind_run _ _ _ _ _ Hidx). by rewrite <- Hcoll.
    + eapply indexing_frame_trans; [|done].
      destruct Hfr1 as (? & ? & ?). split_and!; congruence.
Qed.

Local Abbreviation scan_of folder :=
  (Scanner.get_image_files (platform env) (listdir env folder) folder).

(** A job that ends completed went through the whole [try] block, on a
    scan that found something. *)
Lemma completed_run_inv folder (st st' : State image) j' :
  background_processing env tid folder st = (Ok tt, st') →
  processing_tasks st' !! tid = Some j' →
  status j' = completed →
  background_body env tid folder st = (Ok tt, st') ∧ scan_of folder ≠ [].
Proof.
  unfold background_processing, try_except.
  destruct (background_body env tid folder st) as [[[]|e] st1] eqn:Hb.
  - intros [= <-] Hj Hdone. split; [done|]. intros Hnil.
    unfold background_body in Hb. rewrite Hnil in Hb. simpl in Hb.
    apply bind_ok_inv in Hb as ([] & st2 & _ & Hb).
    apply update_inv in Hb as (j & _ & Hj2 & _).
    rewrite Hj in Hj2. injection Hj2 as ->. done.
  - intros Hu Hj Hdone. apply update_inv in Hu as (j & _ & Hj2 & _).
    rewrite Hj in Hj2. injection Hj2 as ->. done.
Qed.

(** What the [try] block has done when it returns on a scan that found
    something. *)
Lemma background_body_inv folder (st st' : State image) :
  background_body env tid folder st = (Ok tt, st') →
  scan_of folder ≠ [] →
  ∃ starts qr n j,
    range (len (scan_of folder)) (Config.BATCH_SIZE (cfg env)) = Ok starts
    ∧ (coherent_cache st →
       qr ≡ₚ fresh <$> concat ((λ i, slice (scan_of folder) i
                                        (i + Config.BATCH_SIZE (cfg env))) <$> starts))
    ∧ image_cache st' = ∅
    ∧ processed_photos st' = list_to_map ((λ r, (image_path r, r)) <$> qr)
    ∧ QUALIFIED_PHOTOS st' = Laws.qualified_of qr
    ∧ Laws.index_pass (search_env env) (Config.SEARCH_BATCH_SIZE (cfg env))
        (Laws.qualified_of qr) (collection st)
      = (Ok n, collection st')
    ∧ processing_tasks st' !! tid = Some j
    ∧ status j = completed
    ∧ result j
      = Some {| total_photos := len (scan_of folder);
                bad_photos := len (filter (λ r, is_defective r = true) qr);
                qualified_photos := len (Laws.qualified_of qr);
                indexed_photos := n;
                photos := summary env <$> qr |}
    ∧ image_path <$> qr
      ≡ₚ concat ((λ i, slice (scan_of folder) i (i + Config.BATCH_SIZE (cfg env)))
                   <$> starts).
Proof.
  intros Hb Hscan. unfold background_body in Hb.
  apply bind_ok_inv in Hb as ([] & st2 & Hu1 & Hb).
  destruct (len _ =? 0) eqn:Htotal.
  { apply Z.eqb_eq in Htotal. unfold len in Htotal.
    destruct (scan_of folder); [done|simpl in Htotal; lia]. }
  apply bind_ok_inv in Hb as ([] & st3 & Hu2 & Hb).
  apply bind_ok_inv in Hb as (starts & st4 & Hr & Hb).
  apply bind_ok_inv in Hb as (qr & st5 & Hqr & Hb).
  apply bind_ok_inv in Hb as ([] & st6 & Hcl & Hb).
  apply bind_ok_inv in Hb as (n & st7 & Hix & Hb).
  apply bind_ok_inv in Hb as ([] & st8 & Hg & Hb).
  injection Hr as Hr <-.
  apply update_inv in Hu1 as (j1 & _ & _ & Hc1 & Hf1).
  apply update_inv in Hu2 as (j2 & _ & _ & Hc2 & Hf2).
  pose proof (screening_loop_reports _ _ _ _ _ _ _ _ _ _ _ Hqr) as Hpaths.
  apply screening_loop_inv in Hqr as (Hf3 & Hcoh).
  apply with_cache_inv in Hcl as (Hclr & _ & Hf4).
  injection Hclr as Hcache6.
  fold (Laws.qualified_of qr) in Hix, Hg, Hb.
  assert (Laws.index_pass (search_env env) (Config.SEARCH_BATCH_SIZE (cfg env))
            (Laws.qualified_of qr) (collection st6) = (Ok n, collection st7)
          ∧ Laws.indexing_frame st6 st7) as [Hpass Hf5].
  { unfold Laws.index_pass. destruct (Laws.qualified_of qr) as [|q0 qs] eqn:Hq.
    - injection Hix as <- <-. split; [done|apply indexing_frame_refl].
    - apply bind_ok_inv in Hix as ([] & s1 & Hu & Hix).
      apply bind_ok_inv in Hix as (ss & s2 & Hr' & Hix).
      injection Hr' as Hr' <-.
      apply update_inv in Hu as (j0 & _ & _ & Hc & Hfr).
      apply indexing_loop_inv in Hix as (Hch & Hfr').
      destruct Hfr as (Hcoll & Hpp & Hqp). split.
      + unfold mbind, M_bind, Py.bind, lift. rewrite Hr'. by rewrite <- Hcoll.
      + eapply indexing_frame_trans; [|done]. by split_and!. }
  injection Hg as <-.
  apply update_inv in Hb as (j & _ & Hj & Hc8 & Hf8).
  destruct Hf1 as (Hcoll1 & _), Hf2 as (Hcoll2 & _), Hf3 as (Hcoll3 & _),
    Hf4 as (Hcoll4 & _), Hf5 as (Hcache7 & _), Hf8 as (Hcoll8 & Hpp8 & Hqp8).
  simpl in *.
  do 4 eexists. split_and!; [exact Hr| | |done|done| |exact Hj|done|done|exact Hpaths].
  2:{ by rewrite Hc8, Hcache7, <- Hcache6. }
  - intros Hcoherent. apply Hcoh. by rewrite Hc2, Hc1.
  - rewrite Hcoll8, <- Hpass. f_equal. congruence.
Qed.


Lemma elem_of_concat {A} (x : A) (ls : list (list A)) :
  x ∈ concat ls ↔ ∃ l, x ∈ l ∧ l ∈ ls.
Proof.
  induction ls as [|l ls IH]; simpl.
  - split; [by intros ?%elem_of_nil|]. by intros (l & _ & ?%elem_of_nil).
  - rewrite elem_of_app, IH. split.
    + intros [Hx|(l' & Hx & Hl)]; [exists l|exists l']; split; try done.
      * apply list_elem_of_here.
      * by apply list_elem_of_further.
    + intros (l' & Hx & [-> | Hl]%elem_of_cons); [by left|right; eauto].
Qed.

Lemma range_head stop step starts :
  0 < step → 0 < stop → range stop step = Ok starts →
  ∃ rest, starts = 0 :: rest ∧ Forall (λ i, i ≠ 0) rest.
Proof.
  intros Hstep Hstop. unfold range.
  destruct (step =? 0) eqn:E0; [lia|]. destruct (step <? 0) eqn:E1; [lia|].
  intros [= <-]. destruct (Z.to_nat stop) as [|fuel] eqn:E; [lia|]. simpl.
  destruct (0 <? stop) eqn:E2; [|lia].
  eexists. split; [done|].
  eapply Forall_impl; [apply range_from_bounds; lia|]. simpl. intros i Hi. lia.
Qed.

Section working_index.
Context (senv : SemanticSearch.Env).
Hypothesis Hclip : clip_available senv = true.
Hypothesis Hstore : ∀ c, store_fails senv c = false.

Lemma index_chunks_append qualified sbs starts : ∀ n store,
  Forall (λ i, i ≠ 0) starts →
  Laws.index_chunks senv qualified sbs starts n store
  = (Ok (n + len (concat (Spec.prepared senv
                            <$> ((λ i, slice qualified i (i + sbs)) <$> starts)))),
     store ++ concat (Spec.prepared senv
                        <$> ((λ i, slice qualified i (i + sbs)) <$> starts))).
Proof.
  induction starts as [|i starts IH]; intros n store Hall; simpl.
  - rewrite app_nil_r. unfold len. simpl. by rewrite Z.add_0_r.
  - apply Forall_cons in Hall as [Hi Hall].
    rewrite (bind_run _ _ _ _ _ (index_photos_working senv _ _ _ Hclip Hstore)).
    apply Z.eqb_neq in Hi. rewrite Hi. simpl. rewrite IH by done.
    f_equal; [f_equal|by rewrite app_assoc].
    unfold len. rewrite length_app. unfold fmap. lia.
Qed.

Lemma index_pass_nonempty sbs qualified :
  qualified ≠ [] →
  Laws.index_pass senv sbs qualified
  = (starts ← lift (range (len qualified) sbs);
     Laws.index_chunks senv qualified sbs starts 0).
Proof. by destruct qualified. Qed.

(** With a working provider and store, the indexing pass of a run leaves
    in the store the entries of its chunks, and nothing else. *)
Lemma index_pass_working sbs qualified store :
  0 < sbs → qualified ≠ [] →
  ∃ starts,
    range (len qualified) sbs = Ok starts
    ∧ Laws.index_pass senv sbs qualified store
      = (Ok (len (concat (Spec.prepared senv
                            <$> ((λ i, slice qualified i (i + sbs)) <$> starts)))),
         concat (Spec.prepared senv
                   <$> ((λ i, slice qualified i (i + sbs)) <$> starts))).
Proof.
  intros Hsbs Hq. destruct (range_returns (len qualified) sbs Hsbs) as [starts Hr].
  exists starts. split; [done|].
  assert (0 < len qualified) as Hlen.
  { unfold len. destruct qualified; [done|simpl; lia]. }
  destruct (range_head _ _ _ Hsbs Hlen Hr) as (rest & -> & Hrest).
  assert (slice qualified 0 (0 + sbs) ≠ []) as Hne.
  { destruct qualified as [|q0 qs]; [done|]. unfold slice. simpl.
    destruct (Z.to_nat (0 + sbs - 0)) eqn:E; [lia|done]. }
  rewrite index_pass_nonempty by done.
  unfold mbind at 1, M_bind at 1, Py.bind at 1, lift. rewrite Hr.
  cbn [Laws.index_chunks].
  rewrite (bind_run _ _ _ _ _ (index_photos_working senv _ _ _ Hclip Hstore)).
  rewrite index_chunks_append by done.
  simpl. rewrite bool_decide_eq_true_2 by done. simpl.
  f_equal. f_equal. unfold len. rewrite length_app. unfold fmap. lia.
Qed.

End working_index.

End run_structure.

(** X11: the result of a completed run depends neither on the order in
    which the workers finish nor on what the decode cache held: from a
    coherent cache and with a positive batch size, the published photo
    records are, up to order, the records of a fresh check of each scanned
    path (the fallback record, which is not defective, where the fresh check
    raises), and the bad and qualified counts are those of these records.
    The run leaves the decode cache empty. *)
Theorem run_result_is_fresh_check_of_scan {image : Type} (env : Pipeline.Env image)
    (tid folder : string) (st st' : Pipeline.State image) (j' : Pipeline.Job) :
  Laws.coherent (Pipeline.cv env) (Pipeline.cfg env) (Pipeline.image_cache st) →
  0 < Config.BATCH_SIZE (Pipeline.cfg env) →
  Pipeline.background_processing env tid folder st = (Ok tt, st') →
  Pipeline.processing_tasks st' !! tid = Some j' →
  Pipeline.status j' = Pipeline.completed →
  ∃ rd,
    Pipeline.result j' = Some rd
    ∧ Pipeline.photos rd
      ≡ₚ Pipeline.summary env
           <$> (Laws.fresh_or_fallback (Pipeline.cv env) (Pipeline.cfg env)
                  <$> Scanner.get_image_files (Pipeline.platform env)
                        (Pipeline.listdir env folder) folder)
    ∧ Pipeline.bad_photos rd
      = len (filter (λ r, QualityChecker.is_defective r = true)
               (Laws.fresh_or_fallback (Pipeline.cv env) (Pipeline.cfg env)
                  <$> Scanner.get_image_files (Pipeline.platform env)
                        (Pipeline.listdir env folder) folder))
    ∧ Pipeline.qualified_photos rd
      = len (filter (λ r, QualityChecker.is_defective r = false)
               (Laws.fresh_or_fallback (Pipeline.cv env) (Pipeline.cfg env)
                  <$> Scanner.get_image_files (Pipeline.platform env)
                        (Pipeline.listdir env folder) folder))
    ∧ Pipeline.image_cache st' = ∅.
Proof.
  intros Hc Hbs Hrun Hj Hdone.
  destruct (completed_run_inv env tid folder st st' j' Hrun Hj Hdone) as [Hb Hscan].
  destruct (background_body_inv env tid folder st st' Hb Hscan)
    as (starts & qr & n & j & Hr & Hfresh & Hcache & _ & _ & _ & Hj2 & _ & Hres & _).
  rewrite Hj in Hj2. injection Hj2 as ->.
  specialize (Hfresh Hc). rewrite (range_slices _ _ _ Hbs Hr) in Hfresh.
  eexists. split; [exact Hres|]. simpl. split_and!; [| | |done].
  - by rewrite Hfresh.
  - unfold len. by rewrite Hfresh.
  - unfold len, Laws.qualified_of. by rewrite length_fmap, Hfresh.
Qed.

(** X11 on scenario A: the three published records are the fresh checks of
    the three scanned pictures. *)
Lemma run_result_is_fresh_check_of_scan_witness :
  ∃ rd,
    Pipeline.result Scenario.job_A = Some rd
    ∧ Pipeline.photos rd
      ≡ₚ Pipeline.summary Scenario.env_A
           <$> (Laws.fresh_or_fallback (Scenario.cv2_on Scenario.disk_A) Config.default
                  <$> Scanner.get_image_files Posix ["a.jpg"; "b.jpg"; "c.jpg"] "pics")
    ∧ Pipeline.bad_photos rd
      = len (filter (λ r, QualityChecker.is_defective r = true)
               (Laws.fresh_or_fallback (Scenario.cv2_on Scenario.disk_A) Config.default
                  <$> Scanner.get_image_files Posix ["a.jpg"; "b.jpg"; "c.jpg"] "pics"))
    ∧ Pipeline.qualified_photos rd
      = len (filter (λ r, QualityChecker.is_defective r = false)
               (Laws.fresh_or_fallback (Scenario.cv2_on Scenario.disk_A) Config.default
                  <$> Scanner.get_image_files Posix ["a.jpg"; "b.jpg"; "c.jpg"] "pics"))
    ∧ Pipeline.image_cache Scenario.finished_A = ∅.
Proof.
  apply (run_result_is_fresh_check_of_scan Scenario.env_A "1700000000123" "pics"
           Scenario.submitted_A Scenario.finished_A Scenario.job_A).
  - apply coherent_of_empty. reflexivity.
  - reflexivity.
  - vm_compute. reflexivity.
  - vm_compute. reflexivity.
  - vm_compute. reflexivity.
Defined.

(** X12: when a completed run finds no qualified photo, it does not touch
    the vector store: the entries of an earlier folder stay in it, the
    result reports no indexed photo, and, [QUALIFIED_PHOTOS] being empty,
    the search endpoint answers 400 afterwards. *)
Theorem run_without_qualified_photos_keeps_index {image : Type}
    (env : Pipeline.Env image) (tid folder : string) (st st' : Pipeline.State image)
    (j' : Pipeline.Job) (rd : Pipeline.ResultData) :
  Pipeline.background_processing env tid folder st = (Ok tt, st') →
  Pipeline.processing_tasks st' !! tid = Some j' →
  Pipeline.status j' = Pipeline.completed →
  Pipeline.result j' = Some rd →
  Pipeline.qualified_photos rd = 0 →
  Pipeline.collection st' = Pipeline.collection st
  ∧ Pipeline.indexed_photos rd = 0
  ∧ Pipeline.QUALIFIED_PHOTOS st' = []
  ∧ ∀ query top_k,
      Api.search_photos env query top_k st'
      = (Ok (Api.HTTPException 400 "请先处理照片文件夹"), st').
Proof.
  intros Hrun Hj Hdone Hrd Hq.
  destruct (completed_run_inv env tid folder st st' j' Hrun Hj Hdone) as [Hb Hscan].
  destruct (background_body_inv env tid folder st st' Hb Hscan)
    as (starts & qr & n & j & _ & _ & _ & _ & Hqp & Hpass & Hj2 & _ & Hres & _).
  rewrite Hj in Hj2. injection Hj2 as ->. rewrite Hrd in Hres. injection Hres as ->.
  simpl in Hq. unfold len in Hq.
  destruct (Laws.qualified_of qr) as [|q0 qs]; [|simpl in Hq; lia].
  injection Hpass as <- <-. split_and!; [done..|].
  intros query top_k. unfold Api.search_photos.
  unfold mbind, M_bind, Py.bind, Py.get. by rewrite Hqp.
Qed.

(** X12 on a folder that holds one blurry picture, on a server that has
    indexed three photos of another folder. *)
Lemma run_without_qualified_photos_keeps_index_witness :
  Pipeline.collection Cases.finished_blurry = Scenario.three_entries.
Proof.
  eapply (run_without_qualified_photos_keeps_index Cases.env_blurry "1700000000123"
            "pics" Cases.submitted_blurry Cases.finished_blurry).
  - vm_compute. reflexivity.
  - vm_compute. reflexivity.
  - reflexivity.
  - reflexivity.
  - reflexivity.
Defined.

(** X13: with a working provider and store and a positive
    [SEARCH_BATCH_SIZE], a completed run that found a qualified photo
    replaces the index: whatever the store held, it holds afterwards only
    entries of photos that this run published as not defective and that are
    embeddable, and [indexed_photos] is the number of entries in the
    store. *)
Theorem completed_run_replaces_index {image : Type} (env : Pipeline.Env image)
    (tid folder : string) (st st' : Pipeline.State image) (j' : Pipeline.Job)
    (rd : Pipeline.ResultData) :
  SemanticSearch.clip_available (Pipeline.search_env env) = true →
  (∀ c, SemanticSearch.store_fails (Pipeline.search_env env) c = false) →
  0 < Config.SEARCH_BATCH_SIZE (Pipeline.cfg env) →
  Pipeline.background_processing env tid folder st = (Ok tt, st') →
  Pipeline.processing_tasks st' !! tid = Some j' →
  Pipeline.status j' = Pipeline.completed →
  Pipeline.result j' = Some rd →
  Pipeline.qualified_photos rd ≠ 0 →
  Pipeline.indexed_photos rd = len (Pipeline.collection st')
  ∧ ∀ e, e ∈ Pipeline.collection st' →
      Spec.embeddable (Pipeline.search_env env)
        (SemanticSearch.path (SemanticSearch.entry_metadata e)) = true
      ∧ ∃ s, s ∈ Pipeline.photos rd
          ∧ Pipeline.summary_image_path s
            = SemanticSearch.path (SemanticSearch.entry_metadata e)
          ∧ Pipeline.summary_is_defective s = false.
Proof.
  intros Hclip Hstore Hsbs Hrun Hj Hdone Hrd Hq.
  destruct (completed_run_inv env tid folder st st' j' Hrun Hj Hdone) as [Hb Hscan].
  destruct (background_body_inv env tid folder st st' Hb Hscan)
    as (starts & qr & n & j & _ & _ & _ & _ & _ & Hpass & Hj2 & _ & Hres & _).
  rewrite Hj in Hj2. injection Hj2 as ->. rewrite Hrd in Hres. injection Hres as ->.
  simpl in Hq |- *.
  assert (Laws.qualified_of qr ≠ []) as Hne by (by intros H; rewrite H in Hq).
  destruct (index_pass_working (Pipeline.search_env env) Hclip Hstore _ _
              (Pipeline.collection st) Hsbs Hne) as (ss & Hr & Hpass').
  rewrite Hpass' in Hpass. injection Hpass as <- Hcoll. split; [by rewrite <- Hcoll|].
  intros e He. rewrite <- Hcoll in He.
  apply elem_of_concat in He as (chunk & He & Hchunk).
  apply list_elem_of_fmap in Hchunk as (paths & -> & Hpaths).
  apply list_elem_of_fmap in Hpaths as (i & -> & Hi).
  destruct (prepared_first_occurrence _ _ _ He) as (k & Hk & _ & _ & _ & Hemb & _).
  split; [done|].
  apply list_elem_of_lookup_2 in Hk. unfold slice in Hk.
  apply subseteq_take, subseteq_drop in Hk.
  unfold Laws.qualified_of in Hk.
  apply list_elem_of_fmap in Hk as (r & Hpath & Hr').
  apply list_elem_of_filter in Hr' as [Hnd Hr'].
  exists (Pipeline.summary env r). split_and!; [|done|done].
  by apply list_elem_of_fmap_2.
Qed.

(** X13 on scenario A, run on a server that has indexed another folder:
    the store ends with the two qualified pictures of the run. *)
Lemma completed_run_replaces_index_witness :
  ∃ rd,
    Pipeline.indexed_photos rd = len (Pipeline.collection Cases.finished_again)
    ∧ ∀ e, e ∈ Pipeline.collection Cases.finished_again →
        Spec.embeddable Scenario.healthy
          (SemanticSearch.path (SemanticSearch.entry_metadata e)) = true
        ∧ ∃ s, s ∈ Pipeline.photos rd
            ∧ Pipeline.summary_image_path s
              = SemanticSearch.path (SemanticSearch.entry_metadata e)
            ∧ Pipeline.summary_is_defective s = false.
Proof.
  eexists.
  eapply (completed_run_replaces_index Scenario.env_A "1700000000123" "pics"
            Cases.submitted_again Cases.finished_again).
  - reflexivity.
  - intros c. reflexivity.
  - reflexivity.
  - vm_compute. reflexivity.
  - vm_compute. reflexivity.
  - reflexivity.
  - reflexivity.
  - discriminate.
Defined.

(** ** Counting what is indexed *)

Section index_count_facts.
Import SemanticSearch.
Context (senv : SemanticSearch.Env).

Lemma len_app {A} (l1 l2 : list A) : len (l1 ++ l2) = len l1 + len l2.
Proof. unfold len. rewrite length_app. lia. Qed.

Lemma prepared_count photo_paths :
  0 ≤ len (Spec.prepared senv photo_paths) ≤ len photo_paths.
Proof.
  destruct (prepared_order senv photo_paths) as [Hsub _].
  apply sublist_length in Hsub. rewrite length_fmap in Hsub. unfold len. lia.
Qed.

(** A call returns a count between 0 and the number of its paths. *)
Lemma index_photos_count photo_paths clear st n st' :
  index_photos senv photo_paths clear st = (Ok n, st') → 0 ≤ n ≤ len photo_paths.
Proof.
  pose proof (prepared_count photo_paths) as Hc.
  rewrite (prepared_length senv) in Hc.
  rewrite index_photos_run. destruct photo_paths as [|p rest] eqn:Hp.
  { intros [= <- _]. unfold len. simpl. lia. }
  rewrite <- Hp in *. destruct (clip_available senv); [|intros [= <- _]; lia].
  destruct (clear_existing_step senv clear st) as [[[]|e] st1]; [|done].
  rewrite write_step_run. destruct (ids _); [intros [= <- _]; lia|].
  destruct (store_fails senv AddEntries); [intros [= <- _]; lia|].
  destruct (store_fails senv CountAfterAdd); intros [= <- _]; lia.
Qed.

Lemma index_chunks_count qualified sbs starts : ∀ n st n' st',
  Laws.index_chunks senv qualified sbs starts n st = (Ok n', st') →
  n ≤ n' ≤ n + len (concat ((λ i, slice qualified i (i + sbs)) <$> starts)).
Proof.
  induction starts as [|i starts IH]; intros n st n' st'.
  - intros [= <- _]. unfold len. simpl. lia.
  - cbn [Laws.index_chunks]. intros H.
    apply bind_ok_inv in H as (m & st1 & Hm & H).
    apply index_photos_count in Hm. apply IH in H.
    rewrite fmap_cons. cbn [concat]. rewrite len_app. lia.
Qed.

Lemma index_pass_count sbs qualified st n st' :
  Laws.index_pass senv sbs qualified st = (Ok n, st') → 0 ≤ n ≤ len qualified.
Proof.
  unfold Laws.index_pass. destruct qualified as [|q0 qs] eqn:Hq.
  { intros [= <- _]. unfold len. simpl. lia. }
  rewrite <- Hq. intros H. apply bind_ok_inv in H as (starts & st1 & Hr & H).
  injection Hr as Hr _. apply index_chunks_count in H.
  destruct (range_cases _ _ _ Hr) as [-> | [Hsbs _]].
  - unfold len in *. simpl in H. lia.
  - rewrite (range_slices _ _ _ Hsbs Hr) in H. lia.
Qed.

End index_count_facts.

(** ** The synchronous endpoint *)

Section sync_facts.
Import QualityChecker SemanticSearch Pipeline.
Context {image : Type} (env : Pipeline.Env image).

Local Abbreviation coherent_cache :=
  (λ s : State image, Laws.coherent (cv env) (cfg env) (image_cache s)).
Local Abbreviation fresh := (Laws.fresh_or_fallback (cv env) (cfg env)).
Local Abbreviation scan_of folder :=
  (Scanner.get_image_files (platform env) (listdir env folder) folder).

(** Without [clear_existing], a call never raises and only appends. *)
Lemma index_photos_no_clear (senv : SemanticSearch.Env) photo_paths st :
  ∃ n written, index_photos senv photo_paths false st = (Ok n, st ++ written).
Proof.
  rewrite index_photos_run. destruct photo_paths as [|p rest].
  { exists 0, []. by rewrite app_nil_r. }
  destruct (clip_available senv); [|exists 0, []; by rewrite app_nil_r].
  rewrite clear_existing_step_run, write_step_run.
  destruct (ids _); [eexists _, []; by rewrite app_nil_r|].
  destruct (store_fails senv AddEntries); [exists 0, []; by rewrite app_nil_r|].
  destruct (store_fails senv CountAfterAdd); eauto.
Qed.

(** The loop of the endpoint: it leaves the store alone; from a coherent
    cache it returns the fresh reports, in the order of the paths, and it
    returns exactly when no fresh check raises. *)
Lemma check_each_inv photo_paths : ∀ acc (st : State image) qr st',
  Api.check_each env photo_paths acc st = (Ok qr, st') →
  collection st' = collection st
  ∧ (coherent_cache st →
     coherent_cache st' ∧ qr = acc ++ (fresh <$> photo_paths)).
Proof.
  induction photo_paths as [|p rest IH]; intros acc st qr st'; simpl.
  - intros [= <- <-]. split; [done|]. intros Hc. by rewrite app_nil_r.
  - intros H. apply bind_ok_inv in H as (r & st1 & Hr & H).
    apply with_cache_inv in Hr as (Hr & _ & Hcoll1 & _).
    apply IH in H as (Hcoll2 & Hc2). split; [congruence|].
    intros Hc.
    pose proof (check_photo_quality_fresh (cv env) (cfg env) p _ Hc) as Hf.
    pose proof (check_photo_quality_preserves (cv env) (cfg env) _
                  (get_gray_image_preserves_coherent (cv env) (cfg env))
                  p _ Hc) as Hc1.
    rewrite Hr in Hf, Hc1. simpl in Hf, Hc1.
    destruct (Hc2 Hc1) as [Hc' ->]. split; [done|].
    unfold Laws.fresh_or_fallback at 2. rewrite <- Hf. by rewrite <- app_assoc.
Qed.

Lemma check_each_paths photo_paths : ∀ acc (st : State image) qr st',
  Api.check_each env photo_paths acc st = (Ok qr, st') →
  image_path <$> qr = (image_path <$> acc) ++ photo_paths.
Proof.
  induction photo_paths as [|p rest IH]; intros acc st qr st'; simpl.
  - intros [= <- _]. by rewrite app_nil_r.
  - intros H. apply bind_ok_inv in H as (r & st1 & Hr & H).
    apply with_cache_inv in Hr as (Hr & _).
    apply check_photo_quality_image_path in Hr.
    apply IH in H. rewrite H, fmap_app. simpl. by rewrite Hr, <- app_assoc.
Qed.

Lemma check_each_returns photo_paths : ∀ acc (st : State image),
  coherent_cache st →
  is_ok (Api.check_each env photo_paths acc st).1
  = forallb (λ p, is_ok (Laws.fresh_report (cv env) (cfg env) p)) photo_paths.
Proof.
  induction photo_paths as [|p rest IH]; intros acc st Hc; simpl; [done|].
  pose proof (check_photo_quality_fresh (cv env) (cfg env) p _ Hc) as Hf.
  pose proof (check_photo_quality_preserves (cv env) (cfg env) _
                (get_gray_image_preserves_coherent (cv env) (cfg env))
                p _ Hc) as Hc1.
  unfold mbind at 1, M_bind at 1, Py.bind at 1, with_cache at 1. rewrite <- Hf.
  destruct (check_photo_quality (cv env) (cfg env) p (image_cache st)) as [[r|e] c1];
    simpl in *; [|done].
  by apply IH.
Qed.

(** What the endpoint has done when it answers with a result. *)
Lemma process_photos_sync_inv folder (st st' : State image) d :
  Api.process_photos_sync env folder st = (Ok (Api.SyncSuccess d), st') →
  ∃ qr n written,
    (coherent_cache st → qr = fresh <$> scan_of folder)
    ∧ image_path <$> qr = scan_of folder
    ∧ 0 ≤ n ≤ len (Laws.qualified_of qr)
    ∧ collection st' = collection st ++ written
    ∧ QUALIFIED_PHOTOS st' = Laws.qualified_of qr
    ∧ d = {| total_photos := len (scan_of folder);
             bad_photos := len (filter (λ r, is_defective r = true) qr);
             qualified_photos := len (Laws.qualified_of qr);
             indexed_photos := n;
             photos := summary env <$> qr |}.
Proof.
  unfold Api.process_photos_sync.
  destruct (negb (path_exists env folder)); [done|].
  destruct (scan_of folder) as [|p0 ps] eqn:Hscan; [done|]. rewrite <- Hscan.
  intros H. apply bind_ok_inv in H as (qr & st1 & Hce & H).
  apply bind_ok_inv in H as (n & st2 & Hix & H).
  apply bind_ok_inv in H as ([] & st3 & Hg & H).
  injection H as <- <-. injection Hg as <-.
  fold (Laws.qualified_of qr) in *.
  pose proof (check_each_inv _ _ _ _ _ Hce) as (Hcoll1 & Hc1).
  pose proof (check_each_paths _ _ _ _ _ Hce) as Hpaths.
  exists qr, n.
  assert (0 ≤ n ≤ len (Laws.qualified_of qr)
          ∧ ∃ written, collection st2 = collection st1 ++ written) as [Hn [written Hw]].
  { destruct (Laws.qualified_of qr) as [|q0 qs] eqn:Hq.
    - injection Hix as <- <-. split; [done|]. exists []. by rewrite app_nil_r.
    - rewrite <- Hq in Hix |- *. apply with_store_inv in Hix as (Hix & _).
      split; [by eapply index_photos_count|].
      destruct (index_photos_no_clear (search_env env) (Laws.qualified_of qr)
                  (collection st1)) as (n' & written & Hrun).
      rewrite Hrun in Hix. injection Hix as _ <-. eauto. }
  exists written. simpl in *. split_and!; [|done|lia|lia|by rewrite Hw, Hcoll1|done|done].
  intros Hc. by destruct (Hc1 Hc) as [_ ->].
Qed.

Lemma check_each_preserves (Inv : State image → Prop) photo_paths :
  (∀ p, Laws.preserves Inv (with_cache (check_photo_quality (cv env) (cfg env) p))) →
  ∀ acc, Laws.preserves Inv (Api.check_each env photo_paths acc).
Proof.
  intros Hcheck. induction photo_paths as [|p rest IH]; intros acc; simpl;
    [apply preserves_ret|].
  apply preserves_bind; [apply Hcheck|intros; apply IH].
Qed.

Lemma fresh_image_path p : image_path (fresh p) = p.
Proof.
  unfold Laws.fresh_or_fallback, Laws.fresh_report.
  destruct (check_photo_quality (cv env) (cfg env) p ∅) as [[r|e] c] eqn:H; [|done].
  by eapply check_photo_quality_image_path.
Qed.

End sync_facts.

(** X14: the synchronous endpoint has no fallback and keeps the scan
    order.  From a coherent cache, on an existing folder with images, it
    returns exactly when no scanned path makes a fresh check raise (an
    exception otherwise leaves the handler); its answer then lists the
    records of the fresh checks in the order of the scan, its total is the
    number of scanned paths, and bad and qualified add up to the total. *)
Theorem sync_processing_reports_in_scan_order {image : Type} (env : Pipeline.Env image)
    (folder : string) (st : Pipeline.State image) :
  Laws.coherent (Pipeline.cv env) (Pipeline.cfg env) (Pipeline.image_cache st) →
  Pipeline.path_exists env folder = true →
  Scanner.get_image_files (Pipeline.platform env) (Pipeline.listdir env folder) folder
  ≠ [] →
  is_ok (Api.process_photos_sync env folder st).1
  = forallb (λ p, is_ok (Laws.fresh_report (Pipeline.cv env) (Pipeline.cfg env) p))
      (Scanner.get_image_files (Pipeline.platform env) (Pipeline.listdir env folder)
         folder)
  ∧ ∀ d st',
      Api.process_photos_sync env folder st = (Ok (Api.SyncSuccess d), st') →
      Pipeline.photos d
      = Pipeline.summary env
          <$> (Laws.fresh_or_fallback (Pipeline.cv env) (Pipeline.cfg env)
                 <$> Scanner.get_image_files (Pipeline.platform env)
                       (Pipeline.listdir env folder) folder)
      ∧ Pipeline.summary_image_path <$> Pipeline.photos d
        = Scanner.get_image_files (Pipeline.platform env) (Pipeline.listdir env folder)
            folder
      ∧ Pipeline.total_photos d
        = len (Scanner.get_image_files (Pipeline.platform env)
                 (Pipeline.listdir env folder) folder)
      ∧ Pipeline.bad_photos d + Pipeline.qualified_photos d = Pipeline.total_photos d.
Proof.
  intros Hc Hex Hscan. split.
  - rewrite <- (check_each_returns env _ [] st Hc).
    unfold Api.process_photos_sync. rewrite Hex. simpl.
    destruct (Scanner.get_image_files _ _ _) as [|p0 ps] eqn:Hs; [done|].
    rewrite <- Hs.
    unfold mbind at 1, M_bind at 1, Py.bind at 1.
    destruct (Api.check_each env _ [] st) as [[qr|e] st1]; [|done]. simpl.
    unfold mbind at 1, M_bind at 1, Py.bind at 1.
    destruct (QualityChecker.image_path <$> filter _ qr) as [|q0 qs] eqn:Hq; [done|].
    rewrite <- Hq. unfold Pipeline.with_store.
    destruct (index_photos_no_clear (Pipeline.search_env env)
                (QualityChecker.image_path <$>
                   filter (λ r, QualityChecker.is_defective r = false) qr)
                (Pipeline.collection st1)) as (n & written & ->).
    done.
  - intros d st' H.
    apply process_photos_sync_inv in H as (qr & n & written & Hqr & _ & _ & _ & _ & ->).
    rewrite (Hqr Hc). simpl. split_and!; [done| |done|].
    + rewrite <- !list_fmap_compose. rewrite <- (list_fmap_id (Scanner.get_image_files _ _ _)) at 2.
      apply list_fmap_ext. intros i p _. simpl. apply fresh_image_path.
    + unfold Laws.qualified_of. unfold len at 2. rewrite length_fmap.
      fold (len (filter (λ r, QualityChecker.is_defective r = false)
                   (Laws.fresh_or_fallback (Pipeline.cv env) (Pipeline.cfg env)
                      <$> Scanner.get_image_files (Pipeline.platform env)
                            (Pipeline.listdir env folder) folder))).
      rewrite filter_defective_split. unfold len. by rewrite length_fmap.
Qed.

(** X14 on scenario A's folder. *)
Lemma sync_processing_reports_in_scan_order_witness :
  is_ok (Api.process_photos_sync Scenario.env_A "pics" Scenario.fresh).1 = true.
Proof.
  destruct (sync_processing_reports_in_scan_order Scenario.env_A "pics" Scenario.fresh)
    as [H _].
  - apply coherent_of_empty. reflexivity.
  - reflexivity.
  - vm_compute. discriminate.
  - rewrite H. vm_compute. reflexivity.
Defined.

(** X15: the two ways of processing a folder agree.  From coherent caches
    and with a positive batch size, when the synchronous endpoint answers
    with a result and the background run of the same folder completes, the
    run publishes the same photo records up to order, and the same total,
    bad and qualified counts. *)
Theorem sync_and_async_agree {image : Type} (env : Pipeline.Env image)
    (tid folder : string) (s1 s1' s2 s2' : Pipeline.State image)
    (d : Pipeline.ResultData) (j' : Pipeline.Job) :
  Laws.coherent (Pipeline.cv env) (Pipeline.cfg env) (Pipeline.image_cache s1) →
  Laws.coherent (Pipeline.cv env) (Pipeline.cfg env) (Pipeline.image_cache s2) →
  0 < Config.BATCH_SIZE (Pipeline.cfg env) →
  Api.process_photos_sync env folder s1 = (Ok (Api.SyncSuccess d), s1') →
  Pipeline.background_processing env tid folder s2 = (Ok tt, s2') →
  Pipeline.processing_tasks s2' !! tid = Some j' →
  Pipeline.status j' = Pipeline.completed →
  ∃ rd,
    Pipeline.result j' = Some rd
    ∧ Pipeline.photos rd ≡ₚ Pipeline.photos d
    ∧ Pipeline.total_photos rd = Pipeline.total_photos d
    ∧ Pipeline.bad_photos rd = Pipeline.bad_photos d
    ∧ Pipeline.qualified_photos rd = Pipeline.qualified_photos d.
Proof.
  intros Hc1 Hc2 Hbs Hsync Hrun Hj Hdone.
  apply process_photos_sync_inv in Hsync
    as (qr1 & n1 & written & Hqr1 & _ & _ & _ & _ & ->).
  specialize (Hqr1 Hc1).
  destruct (completed_run_inv env tid folder s2 s2' j' Hrun Hj Hdone) as [Hb Hscan].
  destruct (background_body_inv env tid folder s2 s2' Hb Hscan)
    as (starts & qr & n & j & Hr & Hfresh & _ & _ & _ & _ & Hj2 & _ & Hres & _).
  rewrite Hj in Hj2. injection Hj2 as ->.
  specialize (Hfresh Hc2). rewrite (range_slices _ _ _ Hbs Hr), <- Hqr1 in Hfresh.
  eexists. split; [exact Hres|]. simpl. split_and!; [|done| |].
  - by rewrite Hfresh.
  - unfold len. by rewrite Hfresh.
  - unfold len, Laws.qualified_of. by rewrite !length_fmap, Hfresh.
Qed.

(** X15 on scenario A: both ways report three photos, one of them bad. *)
Lemma sync_and_async_agree_witness :
  ∃ rd,
    Pipeline.result Scenario.job_A = Some rd
    ∧ Pipeline.total_photos rd = 3 ∧ Pipeline.bad_photos rd = 1
    ∧ Pipeline.qualified_photos rd = 2.
Proof.
  destruct (sync_and_async_agree Scenario.env_A "1700000000123" "pics"
              Scenario.fresh (Api.process_photos_sync Scenario.env_A "pics" Scenario.fresh).2
              Scenario.submitted_A Scenario.finished_A
              {| Pipeline.total_photos := 3; Pipeline.bad_photos := 1;
                 Pipeline.qualified_photos := 2; Pipeline.indexed_photos := 2;
                 Pipeline.photos :=
                   Pipeline.summary Scenario.env_A
                     <$> (Laws.fresh_or_fallback (Scenario.cv2_on Scenario.disk_A)
                            Config.default
                            <$> ["pics/a.jpg"; "pics/b.jpg"; "pics/c.jpg"]) |}
              Scenario.job_A)
    as (rd & Hrd & _ & Ht & Hb & Hq).
  - apply coherent_of_empty. reflexivity.
  - apply coherent_of_empty. reflexivity.
  - reflexivity.
  - vm_compute. reflexivity.
  - vm_compute. reflexivity.
  - vm_compute. reflexivity.
  - vm_compute. reflexivity.
  - exists rd. by split_and!.
Defined.

(** X16: the synchronous endpoint never clears the index: whatever it
    answers, and also when a check raises, the store afterwards begins with
    everything it held before (the background run, by contrast, clears the
    store at its first chunk). *)
Theorem sync_processing_never_clears_index {image : Type} (env : Pipeline.Env image)
    (folder : string) (st : Pipeline.State image) :
  Pipeline.collection st
  `prefix_of` Pipeline.collection (Api.process_photos_sync env folder st).2.
Proof.
  assert (Laws.preserves
            (λ s, Pipeline.collection st `prefix_of` Pipeline.collection s)
            (Api.process_photos_sync env folder)) as H; [|by apply H].
  unfold Api.process_photos_sync.
  destruct (negb _); [apply preserves_ret|].
  destruct (Scanner.get_image_files _ _ _) as [|p0 ps]; [apply preserves_ret|].
  apply preserves_bind.
  { apply check_each_preserves. intros p s Hs. unfold Pipeline.with_cache.
    by destruct (QualityChecker.check_photo_quality _ _ _ _). }
  intros qr. apply preserves_bind.
  { destruct (_ <$> _) as [|q0 qs]; [apply preserves_ret|].
    intros s Hs. unfold Pipeline.with_store.
    destruct (index_photos_no_clear (Pipeline.search_env env) (q0 :: qs)
                (Pipeline.collection s)) as (n & written & ->).
    simpl. etransitivity; [done|]. by apply prefix_app_r. }
  intros n. apply preserves_bind; [by intros s Hs|intros; apply preserves_ret].
Qed.

(** ** The other endpoints *)

Section endpoint_facts.
Import QualityChecker SemanticSearch Pipeline.
Context {image : Type} (env : Pipeline.Env image).

(** Rebuilding a state from its own fields gives the state. *)
Lemma with_store_same {A} (m : M Store A) (st : State image) r :
  m (collection st) = (r, collection st) → with_store m st = (r, st).
Proof. unfold with_store. intros ->. by destruct st. Qed.

Lemma background_processing_keeps_id tid folder :
  Laws.preserves (λ s : State image,
                    ∀ j, processing_tasks s !! tid = Some j → task_id j = tid)
    (background_processing env tid folder).
Proof.
  apply (background_processing_preserves env tid _ (λ _, True)); [| | | | |done..].
  - intros u _ s Hs. unfold update.
    destruct (processing_tasks s !! tid) as [j|] eqn:Hj.
    2:{ simpl. intros j. by rewrite Hj. }
    simpl. intros j'. rewrite lookup_insert_eq. intros [= <-]. simpl. by apply Hs.
  - intros sub s Hs. unfold with_cache. by destruct (process_batch_photos _ _ _ _).
  - by intros s Hs.
  - intros batch clear_flag s Hs. unfold with_store. by destruct (index_photos _ _ _ _).
  - by intros pp qp s Hs.
Qed.

Lemma background_processing_without_job tid folder (st : State image) :
  processing_tasks st !! tid = None →
  background_processing env tid folder st = (Raise "KeyError", st).
Proof.
  intros Hj. unfold background_processing, try_except, background_body.
  unfold mbind at 1, M_bind at 1, Py.bind at 1. unfold update at 1. rewrite Hj.
  unfold update. by rewrite Hj.
Qed.

Lemma api_search_photos_run query top_k (st : State image) :
  Api.search_photos env query top_k st
  = match QUALIFIED_PHOTOS st with
    | [] => (Ok (Api.HTTPException 400 "请先处理照片文件夹"), st)
    | _ :: _ =>
        (match (SemanticSearch.search_photos (search_env env) query top_k
                  (collection st)).1 with
         | Ok results => Ok (Api.Reply results)
         | Raise e => Raise e
         end, st)
    end.
Proof.
  unfold Api.search_photos, mbind, M_bind, Py.bind, Py.get.
  destruct (QUALIFIED_PHOTOS st) as [|q0 qs]; [done|].
  pose proof (search_photos_run (search_env env) query top_k (collection st)) as Hrun.
  set (r := (SemanticSearch.search_photos (search_env env) query top_k
               (collection st)).1).
  assert (SemanticSearch.search_photos (search_env env) query top_k (collection st)
          = (r, collection st)) as Hr.
  { unfold r. by rewrite Hrun. }
  rewrite (with_store_same _ _ _ Hr). by destruct r.
Qed.

End endpoint_facts.

(** X17: a submitted job can be polled from submission to the end of its
    run.  Submitting an existing folder at time [now] registers, under the
    id [str(int(now * 1000))], a pending job with progress 0 and no result,
    replacing whatever record this id had; the status endpoint returns this
    record; the run of the job returns, and the status endpoint then
    returns a record that bears the same id and is completed or in error. *)
Theorem submitted_job_can_be_polled {image : Type} (env : Pipeline.Env image)
    (now : Q) (folder : string) (st : Pipeline.State image) :
  Pipeline.path_exists env folder = true →
  ∃ st1 st2 j,
    Pipeline.process_photos_async env now folder st
    = (Ok (Pipeline.StartedResponse (pretty (int (now * 1000)))
             "照片处理已开始，请使用task_id查询进度"), st1)
    ∧ Api.get_processing_status (pretty (int (now * 1000))) st1
      = (Ok (Api.Reply {| Pipeline.task_id := pretty (int (now * 1000));
                          Pipeline.status := Pipeline.pending;
                          Pipeline.progress := 0; Pipeline.current := 0;
                          Pipeline.total := 0;
                          Pipeline.message := "任务已创建，等待开始...";
                          Pipeline.result := None |}), st1)
    ∧ Pipeline.background_processing env (pretty (int (now * 1000))) folder st1
      = (Ok tt, st2)
    ∧ Api.get_processing_status (pretty (int (now * 1000))) st2 = (Ok (Api.Reply j), st2)
    ∧ Pipeline.task_id j = pretty (int (now * 1000))
    ∧ (Pipeline.status j = Pipeline.completed ∨ Pipeline.status j = Pipeline.error).
Proof.
  intros Hex. unfold Pipeline.process_photos_async. rewrite Hex. simpl.
  set (tid := pretty (int (now * 1000))).
  set (job := {| Pipeline.task_id := tid; Pipeline.status := Pipeline.pending;
                 Pipeline.progress := 0; Pipeline.current := 0; Pipeline.total := 0;
                 Pipeline.message := "任务已创建，等待开始...";
                 Pipeline.result := None |}).
  destruct (Pipeline.set_task tid job st) as [r st1] eqn:Hset.
  unfold Pipeline.set_task in Hset. injection Hset as <- Hst1.
  assert (Pipeline.processing_tasks st1 !! tid = Some job) as Hjob.
  { rewrite <- Hst1. simpl. apply lookup_insert_eq. }
  destruct (background_processing_outcome env tid folder st1) as (st2 & j & Hrun & Hj & Hout).
  { unfold Spec.has_job. by rewrite Hjob. }
  exists st1, st2, j. split_and!.
  - unfold mbind, M_bind, Py.bind, Pipeline.set_task. by rewrite Hst1.
  - unfold Api.get_processing_status, mbind, M_bind, Py.bind, Py.get. by rewrite Hjob.
  - exact Hrun.
  - unfold Api.get_processing_status, mbind, M_bind, Py.bind, Py.get. by rewrite Hj.
  - pose proof (background_processing_keeps_id env tid folder st1) as Hid.
    rewrite Hrun in Hid. apply Hid; [|done].
    intros j0. rewrite Hjob. by intros [= <-].
  - destruct (Pipeline.background_body env tid folder st1).1;
      [destruct (len _ =? 0)|]; [right|left|right]; apply Hout.
Qed.

(** X17 on scenario A. *)
Lemma submitted_job_can_be_polled_witness :
  ∃ st1 st2 j,
    Pipeline.process_photos_async Scenario.env_A 1700000000.123 "pics" Scenario.fresh
    = (Ok (Pipeline.StartedResponse (pretty (int (1700000000.123 * 1000)))
             "照片处理已开始，请使用task_id查询进度"), st1)
    ∧ Api.get_processing_status (pretty (int (1700000000.123 * 1000))) st1
      = (Ok (Api.Reply {| Pipeline.task_id := pretty (int (1700000000.123 * 1000));
                          Pipeline.status := Pipeline.pending;
                          Pipeline.progress := 0; Pipeline.current := 0;
                          Pipeline.total := 0;
                          Pipeline.message := "任务已创建，等待开始...";
                          Pipeline.result := None |}), st1)
    ∧ Pipeline.background_processing Scenario.env_A
        (pretty (int (1700000000.123 * 1000))) "pics" st1
      = (Ok tt, st2)
    ∧ Api.get_processing_status (pretty (int (1700000000.123 * 1000))) st2
      = (Ok (Api.Reply j), st2)
    ∧ Pipeline.task_id j = pretty (int (1700000000.123 * 1000))
    ∧ (Pipeline.status j = Pipeline.completed ∨ Pipeline.status j = Pipeline.error).
Proof.
  apply (submitted_job_can_be_polled Scenario.env_A 1700000000.123 "pics" Scenario.fresh).
  reflexivity.
Defined.

(** X18: [/clear_cache] never raises and always empties the job registry.
    When it answers with success, the upload directory was reset, the
    store handle re-created, the decode cache and the two globals are
    empty, and the store is empty unless deleting the collection failed, in
    which case it still holds every entry.  When it answers with an error,
    resetting the upload directory or re-creating the store handle failed,
    and the two globals are as they were. *)
Theorem clear_cache_outcome {image : Type} (env : Pipeline.Env image)
    (reset_temp_upload_dir : Py.result unit) (st : Pipeline.State image) :
  ∃ resp st',
    Api.clear_cache env reset_temp_upload_dir st = (Ok resp, st')
    ∧ Pipeline.processing_tasks st' = ∅
    ∧ match resp with
      | Api.ClearSuccess _ =>
          reset_temp_upload_dir = Ok tt
          ∧ SemanticSearch.store_fails (Pipeline.search_env env)
              SemanticSearch.GetOrCreateCollection = false
          ∧ Pipeline.image_cache st' = ∅
          ∧ Pipeline.processed_photos st' = ∅
          ∧ Pipeline.QUALIFIED_PHOTOS st' = []
          ∧ Pipeline.collection st'
            = (if SemanticSearch.store_fails (Pipeline.search_env env)
                    SemanticSearch.DeleteCollection
               then Pipeline.collection st else [])
      | Api.ClearError _ =>
          (is_ok reset_temp_upload_dir = false
           ∨ SemanticSearch.store_fails (Pipeline.search_env env)
               SemanticSearch.GetOrCreateCollection = true)
          ∧ Pipeline.processed_photos st' = Pipeline.processed_photos st
          ∧ Pipeline.QUALIFIED_PHOTOS st' = Pipeline.QUALIFIED_PHOTOS st
      end.
Proof.
  unfold Api.clear_cache, Api.clear_tasks, SemanticSearch.clear_collection,
    SemanticSearch.store_call_guard, QualityChecker.clear_cache,
    Pipeline.with_cache, Pipeline.with_store, Pipeline.set_globals.
  unfold try_except, mbind, M_bind, Py.bind, mret, M_ret, Py.ret, Py.lift, Py.raise,
    Py.put.
  destruct reset_temp_upload_dir as [[]|e]; simpl.
  - destruct (SemanticSearch.store_fails _ SemanticSearch.DeleteCollection),
             (SemanticSearch.store_fails _ SemanticSearch.GetOrCreateCollection);
      simpl; do 2 eexists; (split; [reflexivity|]); simpl; split_and!; auto.
  - do 2 eexists. split; [reflexivity|]. simpl. split_and!; auto.
Qed.

(** X19: a run needs its job record.  When the registry holds no record
    under the id (the id was never submitted, or [/clear_cache] emptied the
    registry while the job was waiting), the run raises [KeyError] out of
    its own error handler and changes nothing; so after [/clear_cache],
    whatever it answered, every run fails in this way. *)
Theorem run_of_removed_job_raises {image : Type} (env : Pipeline.Env image)
    (tid folder : string) (st : Pipeline.State image) :
  (Pipeline.processing_tasks st !! tid = None →
   Pipeline.background_processing env tid folder st = (Raise "KeyError", st))
  ∧ ∀ reset_temp_upload_dir,
      Pipeline.background_processing env tid folder
        (Api.clear_cache env reset_temp_upload_dir st).2
      = (Raise "KeyError", (Api.clear_cache env reset_temp_upload_dir st).2).
Proof.
  split; [apply background_processing_without_job|].
  intros reset. apply background_processing_without_job.
  unfold Api.clear_cache, Api.clear_tasks, SemanticSearch.clear_collection,
    SemanticSearch.store_call_guard, QualityChecker.clear_cache,
    Pipeline.with_cache, Pipeline.with_store, Pipeline.set_globals,
    try_except, mbind, M_bind, Py.bind, mret, M_ret, Py.ret, Py.lift, Py.raise, Py.put.
  destruct reset as [[]|e]; simpl; [|apply lookup_empty].
  destruct (SemanticSearch.store_fails _ SemanticSearch.DeleteCollection),
           (SemanticSearch.store_fails _ SemanticSearch.GetOrCreateCollection);
    apply lookup_empty.
Qed.

(** X19 on a server that has no job. *)
Lemma run_of_removed_job_raises_witness :
  Pipeline.background_processing Scenario.env_A "1700000000123" "pics" Scenario.fresh
  = (Raise "KeyError", Scenario.fresh).
Proof.
  apply (run_of_removed_job_raises Scenario.env_A "1700000000123" "pics" Scenario.fresh).
  apply lookup_empty.
Defined.

(** X20: the search endpoint is gated by [QUALIFIED_PHOTOS], not by the
    store, and never changes the state: with an empty [QUALIFIED_PHOTOS] it
    answers 400 whatever the store holds; otherwise it answers with exactly
    what [search_photos] of the index gives on the store, and raises when
    that raises. *)
Theorem search_endpoint_gate {image : Type} (env : Pipeline.Env image)
    (query : string) (top_k : Z) (st : Pipeline.State image) :
  (Api.search_photos env query top_k st).2 = st
  ∧ (Pipeline.QUALIFIED_PHOTOS st = [] →
     (Api.search_photos env query top_k st).1
     = Ok (Api.HTTPException 400 "请先处理照片文件夹"))
  ∧ (Pipeline.QUALIFIED_PHOTOS st ≠ [] →
     (Api.search_photos env query top_k st).1
     = match (SemanticSearch.search_photos (Pipeline.search_env env) query top_k
                (Pipeline.collection st)).1 with
       | Ok results => Ok (Api.Reply results)
       | Raise e => Raise e
       end).
Proof.
  rewrite api_search_photos_run.
  destruct (Pipeline.QUALIFIED_PHOTOS st) as [|q0 qs]; by split_and!.
Qed.

(** X20 on a server that has processed nothing. *)
Lemma search_endpoint_gate_witness :
  (Api.search_photos Scenario.env_A "beach" 10 Scenario.fresh).1
  = Ok (Api.HTTPException 400 "请先处理照片文件夹").
Proof.
  apply (proj1 (proj2 (search_endpoint_gate Scenario.env_A "beach" 10 Scenario.fresh))).
  reflexivity.
Defined.

(** ** Uploads *)

Section upload_facts.
Import Upload.
Context (os : os_flavour) (upload_dir : string) (mkdir : Py.result unit)
  (save : string → SaveOutcome).

Local Abbreviation kept filenames := (filter (λ name, accepted name = true) filenames).
Local Abbreviation join := (os_path_join os upload_dir).

Lemma kept_cons_accepted name rest :
  accepted name = true → kept (name :: rest) = name :: kept rest.
Proof. intros H. by rewrite filter_cons_True. Qed.

Lemma kept_cons_rejected name rest :
  accepted name = false → kept (name :: rest) = kept rest.
Proof. intros H. rewrite filter_cons_False; [done|]. by rewrite H. Qed.

(** Where the loop returns, every accepted name has been saved, in order. *)
Lemma save_all_inv filenames : ∀ uploaded names files names',
  save_all os upload_dir save filenames uploaded names = (Ok files, names') →
  files = uploaded ++ (join <$> kept filenames)
  ∧ names' = names ∪ list_to_set (kept filenames).
Proof.
  induction filenames as [|name rest IH]; intros uploaded names files names'; simpl.
  - intros [= <- <-]. rewrite app_nil_r. split; [done|].
    by rewrite (right_id_L ∅ (∪)).
  - destruct (accepted name) eqn:Ha; simpl.
    + rewrite kept_cons_accepted by done.
      destruct (save (join name)) as [|msg|msg]; [|done..].
      unfold create. run_M. intros H. apply IH in H as [-> ->].
      split; [by rewrite <- app_assoc|].
      by rewrite list_to_set_cons, (assoc_L (∪)).
    + rewrite kept_cons_rejected by done. apply IH.
Qed.

(** Whatever happens, the directory only gains accepted names. *)
Lemma save_all_names filenames : ∀ uploaded names,
  names ⊆ (save_all os upload_dir save filenames uploaded names).2
  ∧ (save_all os upload_dir save filenames uploaded names).2
    ⊆ names ∪ list_to_set (kept filenames).
Proof.
  induction filenames as [|name rest IH]; intros uploaded names; simpl.
  - split; [done|apply union_subseteq_l].
  - destruct (accepted name) eqn:Ha; cbn [negb].
    + rewrite kept_cons_accepted by done.
      rewrite list_to_set_cons, (assoc_L (∪)).
      destruct (save (join name)) as [|msg|msg]; unfold create; run_M.
      * destruct (IH (uploaded ++ [join name]) (names ∪ {[name]})) as [H1 H2].
        split; [|done]. etransitivity; [|exact H1]. apply union_subseteq_l.
      * simpl. split; [done|]. etransitivity; apply union_subseteq_l.
      * simpl. split; apply union_subseteq_l.
    + rewrite kept_cons_rejected by done. apply IH.
Qed.

(** When every accepted file can be saved, the loop returns. *)
Lemma save_all_returns filenames : ∀ uploaded names,
  (∀ name, name ∈ filenames → accepted name = true → save (join name) = Saved) →
  ∃ files names', save_all os upload_dir save filenames uploaded names = (Ok files, names').
Proof.
  induction filenames as [|name rest IH]; intros uploaded names Hsave; simpl; [by eauto|].
  assert (∀ n, n ∈ rest → accepted n = true → save (join n) = Saved) as Hrest.
  { intros n Hn. apply Hsave. by apply list_elem_of_further. }
  destruct (accepted name) eqn:Ha; simpl; [|by apply IH].
  rewrite (Hsave name) by (done || apply list_elem_of_here).
  unfold create. run_M. by apply IH.
Qed.

(** What a success answer tells. *)
Lemma upload_success_inv upload_id filenames id n folder files names :
  upload_photos os upload_dir mkdir save upload_id filenames ∅
  = (Ok (UploadSuccess id n folder files), names) →
  id = upload_id ∧ folder = upload_dir
  ∧ files = join <$> kept filenames
  ∧ n = len (kept filenames)
  ∧ names = list_to_set (kept filenames).
Proof.
  unfold upload_photos, try_except.
  unfold mbind at 1, M_bind at 1, Py.bind at 1, lift.
  destruct mkdir as [[]|e]; [|done].
  unfold mbind at 1, M_bind at 1, Py.bind at 1.
  destruct (save_all os upload_dir save filenames [] ∅) as [[fs|e] ns] eqn:Hs; [|done].
  apply save_all_inv in Hs as [Hfiles Hn]. rewrite (left_id_L ∅ (∪)) in Hn.
  simpl in Hfiles. destruct fs as [|f fs'] eqn:Hf; [done|].
  intros [= <- <- <- <- <-]. split_and!; try done.
  unfold len. by rewrite Hfiles, length_fmap.
Qed.

Lemma append_inj_r (s a b : string) : s +:+ a = s +:+ b → a = b.
Proof. induction s as [|c s IH]; simpl; [done|]. intros [= H]. by apply IH. Qed.

Lemma os_path_join_inj (a b : string) : join a = join b → a = b.
Proof.
  unfold os_path_join. destruct (_ || _)%bool.
  - apply append_inj_r.
  - intros H. by do 2 apply append_inj_r in H.
Qed.


End upload_facts.

Lemma accepted_matches_on_nt name :
  Upload.accepted name = true →
  ∃ ext, ext ∈ Scanner.image_extensions ∧ Scanner.fnmatch_star Nt name ext = true.
Proof.
  unfold Upload.accepted. rewrite existsb_exists.
  intros (ext & Hext & Hm). simpl in Hext.
  destruct Hext as [<-|[<-|[<-|[]]]];
    match type of Hm with
    | endswith _ ?e = true =>
        exists e; split; [apply list_elem_of_In; simpl; tauto | exact Hm]
    end.
Qed.





(** ** Exposure ratios *)

Lemma sum_from (a : Q) (l : list Q) : (foldl Qplus a l == a + foldl Qplus 0 l)%Q.
Proof.
  revert a. induction l as [|x l IH]; intros a; simpl; [ring|].
  rewrite IH, (IH (0 + x)%Q). ring.
Qed.

Lemma sum_app (a b : list Q) : (Py.sum (a ++ b) == Py.sum a + Py.sum b)%Q.
Proof. unfold Py.sum. rewrite foldl_app. apply sum_from. Qed.

Lemma sum_nonneg (l : list Q) : Forall (λ v, 0 <= v)%Q l → (0 <= Py.sum l)%Q.
Proof.
  unfold Py.sum. induction 1 as [|x l Hx Hl IH]; simpl; [apply Qle_refl|].
  rewrite sum_from. lra.
Qed.

(** The two tails of a histogram hold no more than the histogram. *)
Lemma sum_tails (hist : list Q) :
  Forall (λ v, 0 <= v)%Q hist →
  (0 <= Py.sum (drop 60 hist))%Q ∧ (0 <= Py.sum (take 4 hist))%Q
  ∧ (Py.sum (drop 60 hist) + Py.sum (take 4 hist) <= Py.sum hist)%Q.
Proof.
  intros Hpos.
  assert (hist = take 4 hist ++ take 56 (drop 4 hist) ++ drop 60 hist) as Hsplit.
  { assert (drop 56 (drop 4 hist) = drop 60 hist) as <- by (by rewrite drop_drop).
    by rewrite !take_drop. }
  pose proof (sum_nonneg (drop 60 hist) ltac:(by apply Forall_drop)) as H1.
  pose proof (sum_nonneg (take 4 hist) ltac:(by apply Forall_take)) as H2.
  pose proof (sum_nonneg (take 56 (drop 4 hist))
                ltac:(by apply Forall_take, Forall_drop)) as H3.
  split_and!; [done|done|].
  rewrite Hsplit at 3. rewrite !sum_app. lra.
Qed.

Section exposure_facts.
Import QualityChecker.
Context {image : Type} (cv : Cv2 image) (cfg : Config.t).

Lemma detect_exposure_inv path cache x c' :
  detect_exposure cv cfg path cache = (Ok x, c') →
  (∃ c1, _get_gray_image cv cfg path cache = (Ok None, c1)
         ∧ overexposed_ratio x = None ∧ underexposed_ratio x = None)
  ∨ ∃ img hist,
      _get_gray_image cv cfg path cache = (Ok (Some img), c')
      ∧ calcHist64 cv (Laws.exposure_sample cv img) = Ok hist
      ∧ x = {| overexposed_ratio :=
                 Some (Py.sum (drop 60 hist)
                       / inject_Z ((shape cv (Laws.exposure_sample cv img)).1
                                   * (shape cv (Laws.exposure_sample cv img)).2))%Q;
               underexposed_ratio :=
                 Some (Py.sum (take 4 hist)
                       / inject_Z ((shape cv (Laws.exposure_sample cv img)).1
                                   * (shape cv (Laws.exposure_sample cv img)).2))%Q;
               exposure_is_defective :=
                 Py.lt (Config.OVEREXPOSURE_THRESHOLD cfg)
                   (Py.sum (drop 60 hist)
                    / inject_Z ((shape cv (Laws.exposure_sample cv img)).1
                                * (shape cv (Laws.exposure_sample cv img)).2))%Q
                 || Py.lt (Config.UNDEREXPOSURE_THRESHOLD cfg)
                      (Py.sum (take 4 hist)
                       / inject_Z ((shape cv (Laws.exposure_sample cv img)).1
                                   * (shape cv (Laws.exposure_sample cv img)).2))%Q;
               exposure_defect_type :=
                 if Py.lt (Config.OVEREXPOSURE_THRESHOLD cfg)
                      (Py.sum (drop 60 hist)
                       / inject_Z ((shape cv (Laws.exposure_sample cv img)).1
                                   * (shape cv (Laws.exposure_sample cv img)).2))%Q
                 then Some "overexposed"
                 else if Py.lt (Config.UNDEREXPOSURE_THRESHOLD cfg)
                           (Py.sum (take 4 hist)
                            / inject_Z ((shape cv (Laws.exposure_sample cv img)).1
                                        * (shape cv (Laws.exposure_sample cv img)).2))%Q
                      then Some "underexposed" else None |}.
Proof.
  unfold detect_exposure. intros H. apply bind_ok_inv in H as (o & c & Hg & H).
  destruct o as [img|].
  - right. unfold Laws.exposure_sample. destruct (shape cv img) as [h w] eqn:Hs.
    apply bind_ok_inv in H as (hist & c1 & Hh & H). run_M.
    injection Hh as Hh <-. injection H as <- <-.
    exists img, hist. rewrite !Hs. cbn [fst snd]. by split_and!.
  - left. run_M. injection H as <- <-. by exists c.
Qed.

End exposure_facts.

(** X23: the two exposure ratios share the pixels.  When the histogram
    counts every pixel of the (non-empty) sampled array once, the
    overexposed and underexposed ratios that [detect_exposure] reports are
    not negative and add up to at most 1; so when the two thresholds add up
    to at least 1, as the defaults 0.95 and 0.05 do, the two checks never
    trip together, and the priority of [overexposed] over [underexposed]
    never decides: the reported type is [underexposed] exactly when the
    underexposure check trips. *)
Theorem exposure_ratios_share_the_pixels {image : Type} (cv : QualityChecker.Cv2 image)
    (cfg : Config.t) (path : string) (cache cache' : gmap string image)
    (x : QualityChecker.ExposureResult) (o u : Q) :
  (∀ img c1 hist,
     QualityChecker._get_gray_image cv cfg path cache = (Ok (Some img), c1) →
     QualityChecker.calcHist64 cv (Laws.exposure_sample cv img) = Ok hist →
     Laws.proper_histogram cv (Laws.exposure_sample cv img) hist) →
  QualityChecker.detect_exposure cv cfg path cache = (Ok x, cache') →
  QualityChecker.overexposed_ratio x = Some o →
  QualityChecker.underexposed_ratio x = Some u →
  (0 <= o)%Q ∧ (0 <= u)%Q ∧ (o + u <= 1)%Q
  ∧ ((1 <= Config.OVEREXPOSURE_THRESHOLD cfg + Config.UNDEREXPOSURE_THRESHOLD cfg)%Q →
     ¬ (Py.lt (Config.OVEREXPOSURE_THRESHOLD cfg) o = true
        ∧ Py.lt (Config.UNDEREXPOSURE_THRESHOLD cfg) u = true)
     ∧ (QualityChecker.exposure_defect_type x = Some "underexposed"
        ↔ Py.lt (Config.UNDEREXPOSURE_THRESHOLD cfg) u = true)).
Proof.
  intros Hproper Hx Ho Hu.
  apply detect_exposure_inv in Hx as [(c1 & _ & Hn & _)|(img & hist & Hg & Hh & ->)];
    [by rewrite Hn in Ho|].
  destruct (Hproper img cache' hist Hg Hh) as (Hpos & Hsum & Hpix).
  simpl in Ho, Hu. injection Ho as <-. injection Hu as <-.
  set (T := inject_Z ((QualityChecker.shape cv (Laws.exposure_sample cv img)).1
                      * (QualityChecker.shape cv (Laws.exposure_sample cv img)).2)) in *.
  assert (0 < T)%Q as HT.
  { unfold T. change 0%Q with (inject_Z 0). by rewrite <- Zlt_Qlt. }
  destruct (sum_tails hist Hpos) as (Hd & Ht & Hle). rewrite Hsum in Hle.
  set (a := Py.sum (drop 60 hist)) in *. set (b := Py.sum (take 4 hist)) in *.
  assert (0 <= a / T)%Q as Ha.
  { apply Qle_shift_div_l; [done|]. by rewrite Qmult_0_l. }
  assert (0 <= b / T)%Q as Hb.
  { apply Qle_shift_div_l; [done|]. by rewrite Qmult_0_l. }
  assert (a / T + b / T <= 1)%Q as Hab.
  { assert (a / T + b / T == (a + b) / T)%Q as Heq by (field; lra).
    rewrite Heq. apply Qle_shift_div_r; [done|]. by rewrite Qmult_1_l. }
  split_and!; [done|done|done|].
  intros Hthr.
  assert (¬ (Py.lt (Config.OVEREXPOSURE_THRESHOLD cfg) (a / T) = true
             ∧ Py.lt (Config.UNDEREXPOSURE_THRESHOLD cfg) (b / T) = true)) as Hnot.
  { intros [H1 H2]. apply py_lt_iff in H1, H2. lra. }
  split; [done|]. simpl.
  destruct (Py.lt (Config.OVEREXPOSURE_THRESHOLD cfg) (a / T)) eqn:E1,
           (Py.lt (Config.UNDEREXPOSURE_THRESHOLD cfg) (b / T)) eqn:E2; try done.
  by destruct Hnot.
Qed.

(** X23 on the burnt picture of scenario A, under the default thresholds:
    its two ratios add up to at most 1 and only one check trips. *)
Lemma exposure_ratios_share_the_pixels_witness :
  ∃ x o u,
    (QualityChecker.detect_exposure (Scenario.cv2_on Scenario.disk_A) Config.default
       "pics/d.jpg" ∅).1 = Ok x
    ∧ QualityChecker.overexposed_ratio x = Some o
    ∧ QualityChecker.underexposed_ratio x = Some u
    ∧ (o + u <= 1)%Q
    ∧ ¬ (Py.lt (Config.OVEREXPOSURE_THRESHOLD Config.default) o = true
         ∧ Py.lt (Config.UNDEREXPOSURE_THRESHOLD Config.default) u = true).
Proof.
  do 3 eexists. split; [vm_compute; reflexivity|].
  split; [reflexivity|]. split; [reflexivity|].
  assert (∀ img c1 hist,
            QualityChecker._get_gray_image (Scenario.cv2_on Scenario.disk_A)
              Config.default "pics/d.jpg" ∅ = (Ok (Some img), c1) →
            QualityChecker.calcHist64 (Scenario.cv2_on Scenario.disk_A)
              (Laws.exposure_sample (Scenario.cv2_on Scenario.disk_A) img) = Ok hist →
            Laws.proper_histogram (Scenario.cv2_on Scenario.disk_A)
              (Laws.exposure_sample (Scenario.cv2_on Scenario.disk_A) img) hist)
    as Hproper.
  { intros img c1 hist Hg Hh. apply (f_equal fst) in Hg. vm_compute in Hg.
    injection Hg as <-. vm_compute in Hh. injection Hh as <-.
    split; [|split; [vm_compute; reflexivity|reflexivity]].
    repeat (constructor; [by vm_compute|]). constructor. }
  destruct (exposure_ratios_share_the_pixels (Scenario.cv2_on Scenario.disk_A)
              Config.default "pics/d.jpg" ∅ _ _ _ _ Hproper
              ltac:(vm_compute; reflexivity) eq_refl eq_refl)
    as (_ & _ & Hsum & Hexcl).
  split; [exact Hsum|]. apply Hexcl. by vm_compute.
Defined.

(** X24: the counts of a result are ordered.  In the result that a
    completed run publishes, and in the answer of the synchronous endpoint,
    the number of indexed photos lies between 0 and the number of qualified
    photos, which is at most the total; this holds for every provider and
    vector store, working or failing, and every configuration. *)
Theorem indexed_never_exceeds_qualified {image : Type} (env : Pipeline.Env image)
    (folder : string) :
  (∀ tid st st' j' rd,
     Pipeline.background_processing env tid folder st = (Ok tt, st') →
     Pipeline.processing_tasks st' !! tid = Some j' →
     Pipeline.status j' = Pipeline.completed →
     Pipeline.result j' = Some rd →
     0 ≤ Pipeline.indexed_photos rd ≤ Pipeline.qualified_photos rd
     ∧ Pipeline.qualified_photos rd ≤ Pipeline.total_photos rd)
  ∧ ∀ st st' d,
      Api.process_photos_sync env folder st = (Ok (Api.SyncSuccess d), st') →
      0 ≤ Pipeline.indexed_photos d ≤ Pipeline.qualified_photos d
      ∧ Pipeline.qualified_photos d ≤ Pipeline.total_photos d.
Proof.
  assert (∀ qr : list QualityChecker.QualityReport,
            len (Laws.qualified_of qr) ≤ len (QualityChecker.image_path <$> qr)) as Hq.
  { intros qr. unfold len, Laws.qualified_of. rewrite !length_fmap.
    pose proof (length_filter (λ r, QualityChecker.is_defective r = false) qr). lia. }
  split.
  - intros tid st st' j' rd Hrun Hj Hdone Hrd.
    destruct (completed_run_inv env tid folder st st' j' Hrun Hj Hdone) as [Hb Hscan].
    destruct (background_body_inv env tid folder st st' Hb Hscan)
      as (starts & qr & n & j & Hr & _ & _ & _ & _ & Hpass & Hj2 & _ & Hres & Hpaths).
    rewrite Hj in Hj2. injection Hj2 as ->. rewrite Hrd in Hres. injection Hres as ->.
    simpl. split; [by eapply index_pass_count|].
    specialize (Hq qr). unfold len in Hq |- *. rewrite Hpaths in Hq.
    destruct (range_cases _ _ _ Hr) as [-> | [Hbs _]]; [simpl in Hq; lia|].
    by rewrite (range_slices _ _ _ Hbs Hr) in Hq.
  - intros st st' d H.
    apply process_photos_sync_inv in H as (qr & n & written & _ & Hpaths & Hn & _ & _ & ->).
    simpl. split; [done|]. specialize (Hq qr). by rewrite Hpaths in Hq.
Qed.

(** X24 on scenario A: two indexed, two qualified, three in total. *)
Lemma indexed_never_exceeds_qualified_witness :
  ∃ rd,
    Pipeline.result Scenario.job_A = Some rd
    ∧ 0 ≤ Pipeline.indexed_photos rd ≤ Pipeline.qualified_photos rd
    ∧ Pipeline.qualified_photos rd ≤ Pipeline.total_photos rd.
Proof.
  eexists. split; [vm_compute; reflexivity|].
  eapply (proj1 (indexed_never_exceeds_qualified Scenario.env_A "pics")
            "1700000000123" Scenario.submitted_A Scenario.finished_A Scenario.job_A).
  - vm_compute. reflexivity.
  - vm_compute. reflexivity.
  - vm_compute. reflexivity.
  - vm_compute. reflexivity.
Defined.

(** ** The progress of a run *)

Lemma int_floor (q : Q) : (0 <= q)%Q → int q = Qfloor q.
Proof.
  destruct q as [n d]. unfold int, Qfloor, Qle. simpl. intros H.
  apply Z.quot_div_nonneg; lia.
Qed.

Lemma int_mono (q1 q2 : Q) : (0 <= q1)%Q → (q1 <= q2)%Q → int q1 ≤ int q2.
Proof.
  intros H0 H. rewrite !int_floor by lra. by apply Qfloor_resp_le.
Qed.

Lemma int_eq_Z (q : Q) (n : Z) : (q == inject_Z n)%Q → 0 ≤ n → int q = n.
Proof.
  intros Hq Hn. rewrite int_floor.
  - rewrite Hq. apply Qfloor_Z.
  - rewrite Hq. change 0%Q with (inject_Z 0). by rewrite <- Zle_Qle.
Qed.

Lemma truediv_mono (c1 c2 t : Z) : 0 < t → c1 ≤ c2 → (truediv c1 t <= truediv c2 t)%Q.
Proof.
  intros Ht Hc. unfold truediv.
  assert (0 < inject_Z t)%Q as Ht'.
  { change 0%Q with (inject_Z 0). by rewrite <- Zlt_Qlt. }
  apply Qle_shift_div_l; [done|].
  assert (inject_Z c1 / inject_Z t * inject_Z t == inject_Z c1)%Q as Heq by (field; lra).
  rewrite Heq. by rewrite <- Zle_Qle.
Qed.

Lemma truediv_self (t : Z) : 0 < t → (truediv t t == 1)%Q.
Proof.
  intros Ht. unfold truediv.
  assert (0 < inject_Z t)%Q as Ht'.
  { change 0%Q with (inject_Z 0). by rewrite <- Zlt_Qlt. }
  field. lra.
Qed.

Lemma truediv_lt_one (c t : Z) : 0 < t → c < t → (truediv c t < 1)%Q.
Proof.
  intros Ht Hc. unfold truediv.
  assert (0 < inject_Z t)%Q as Ht'.
  { change 0%Q with (inject_Z 0). by rewrite <- Zlt_Qlt. }
  apply Qlt_shift_div_r; [done|]. rewrite Qmult_1_l. by rewrite <- Zlt_Qlt.
Qed.

Lemma screening_progress_mono (c1 c2 t : Z) :
  0 < t → 0 ≤ c1 → c1 ≤ c2 →
  Pipeline.screening_progress c1 t ≤ Pipeline.screening_progress c2 t.
Proof.
  intros Ht H0 Hc. unfold Pipeline.screening_progress.
  pose proof (truediv_mono c1 c2 t Ht Hc).
  pose proof (truediv_mono 0 c1 t Ht H0) as Hz.
  assert (truediv 0 t == 0)%Q as Hz0 by (unfold truediv; field; 
    (assert (0 < inject_Z t)%Q by (change 0%Q with (inject_Z 0); by rewrite <- Zlt_Qlt)); lra).
  apply int_mono; lra.
Qed.

Lemma screening_progress_full (t : Z) : 0 < t → Pipeline.screening_progress t t = 100.
Proof.
  intros Ht. unfold Pipeline.screening_progress. apply int_eq_Z; [|lia].
  rewrite (truediv_self t Ht). reflexivity.
Qed.

Lemma indexing_progress_mono (c1 c2 n : Z) :
  0 < n → 0 ≤ c1 → c1 ≤ c2 →
  Pipeline.indexing_progress c1 n ≤ Pipeline.indexing_progress c2 n.
Proof.
  intros Ht H0 Hc. unfold Pipeline.indexing_progress.
  pose proof (truediv_mono c1 c2 n Ht Hc).
  pose proof (truediv_mono 0 c1 n Ht H0) as Hz.
  assert (truediv 0 n == 0)%Q as Hz0 by (unfold truediv; field; 
    (assert (0 < inject_Z n)%Q by (change 0%Q with (inject_Z 0); by rewrite <- Zlt_Qlt)); lra).
  apply int_mono; lra.
Qed.

Lemma indexing_progress_full (n : Z) : 0 < n → Pipeline.indexing_progress n n = 30.
Proof.
  intros Ht. unfold Pipeline.indexing_progress. apply int_eq_Z; [|lia].
  rewrite (truediv_self n Ht). reflexivity.
Qed.

Lemma indexing_progress_partial (c n : Z) :
  0 < n → 0 ≤ c → c < n → Pipeline.indexing_progress c n < 30.
Proof.
  intros Hn H0 Hc. unfold Pipeline.indexing_progress.
  pose proof (truediv_lt_one c n Hn Hc) as H1.
  pose proof (truediv_mono 0 c n Hn H0) as Hz.
  assert (truediv 0 n == 0)%Q as Hz0 by (unfold truediv; field; 
    (assert (0 < inject_Z n)%Q by (change 0%Q with (inject_Z 0); by rewrite <- Zlt_Qlt)); lra).
  rewrite int_floor by lra.
  assert (Qfloor (truediv c n * 30) < 30 ∨ 30 ≤ Qfloor (truediv c n * 30)) as [|H] by lia; [done|].
  pose proof (Qfloor_le (truediv c n * 30)) as Hf.
  assert (inject_Z 30 <= inject_Z (Qfloor (truediv c n * 30)))%Q by (by rewrite <- Zle_Qle).
  change (inject_Z 30) with 30%Q in *. lra.
Qed.

Lemma range_from_sorted fuel : ∀ start stop step,
  0 < step → StronglySorted Z.lt (range_from fuel start stop step).
Proof.
  induction fuel as [|fuel IH]; intros start stop step Hstep; simpl; [constructor|].
  destruct (start <? stop); [|constructor].
  constructor; [by apply IH|].
  eapply Forall_impl; [apply (range_from_bounds fuel (start + step) stop step Hstep)|].
  simpl. intros i Hi. lia.
Qed.

Lemma range_from_last fuel : ∀ start stop step i,
  0 < step → (Z.to_nat (stop - start) ≤ fuel)%nat →
  last (range_from fuel start stop step) = Some i → stop ≤ i + step.
Proof.
  induction fuel as [|fuel IH]; intros start stop step i Hstep Hfuel; simpl; [done|].
  destruct (start <? stop) eqn:E; [|done]. apply Z.ltb_lt in E.
  rewrite last_cons.
  destruct (last (range_from fuel (start + step) stop step)) as [j|] eqn:Hl.
  - intros [= <-]. apply (IH (start + step) stop step j); [done|lia|done].
  - intros [= <-]. apply last_None in Hl.
    destruct fuel as [|fuel]; [lia|]. simpl in Hl.
    destruct (start + step <? stop) eqn:E2; [done|]. apply Z.ltb_ge in E2. lia.
Qed.

Lemma range_sorted stop step starts :
  0 < step → range stop step = Ok starts →
  StronglySorted Z.lt starts ∧ Forall (λ i, 0 ≤ i < stop) starts
  ∧ ∀ i, last starts = Some i → stop ≤ i + step.
Proof.
  intros Hstep Hr. pose proof (range_bounds _ _ _ Hr) as Hb. revert Hr. unfold range.
  destruct (step =? 0) eqn:E0; [done|]. destruct (step <? 0) eqn:E1; [lia|].
  intros [= <-]. split_and!; [by apply range_from_sorted|done|].
  intros i. apply range_from_last; [done|lia].
Qed.

(** A range that fits into one step is [[0]]. *)
Lemma range_single stop step :
  0 < stop → stop ≤ step → range stop step = Ok [0].
Proof.
  intros Hstop Hstep. unfold range.
  destruct (step =? 0) eqn:E0; [lia|]. destruct (step <? 0) eqn:E1; [lia|].
  destruct (Z.to_nat stop) as [|fuel] eqn:E; [lia|]. simpl.
  destruct (0 <? stop) eqn:E2; [|lia]. do 2 f_equal.
  destruct fuel; simpl; [done|]. destruct (0 + step <? stop) eqn:E3; [lia|done].
Qed.

Lemma map_sorted (f : Z → Z) (l : list Z) :
  StronglySorted Z.lt l → Forall (λ i, 0 ≤ i) l →
  (∀ a b, 0 ≤ a → a ≤ b → f a ≤ f b) →
  StronglySorted Z.le (f <$> l).
Proof.
  intros Hs Hpos Hf. induction Hs as [|a l Hs IH Hall]; [constructor|].
  apply Forall_cons in Hpos as [Ha Hpos]. rewrite fmap_cons.
  constructor; [by apply IH|].
  apply Forall_fmap. eapply Forall_impl; [exact Hall|]. simpl.
  intros b Hb. apply Hf; lia.
Qed.

Lemma slice_end {A} (l : list A) (i step : Z) :
  0 ≤ i → i ≤ len l → 0 ≤ step → i + len (slice l i (i + step)) = Z.min (i + step) (len l).
Proof.
  intros Hi Hl Hstep. unfold len, slice in *. rewrite length_take, length_drop. lia.
Qed.


Lemma progress_writes_app l1 l2 tid :
  Spec.progress_writes (l1 ++ l2) tid
  = Spec.progress_writes l1 tid ++ Spec.progress_writes l2 tid.
Proof. unfold Spec.progress_writes. by rewrite filter_app, omap_app. Qed.

Lemma progress_writes_snoc l tid u :
  Spec.progress_writes (l ++ [(tid, u)]) tid
  = Spec.progress_writes l tid ++ option_list (Pipeline.set_progress u).
Proof.
  rewrite progress_writes_app. f_equal. unfold Spec.progress_writes.
  rewrite filter_cons_True by done. simpl. by destruct (Pipeline.set_progress u).
Qed.

Section run_writes.
Import QualityChecker SemanticSearch Pipeline.
Context {image : Type} (env : Pipeline.Env image) (tid : string).

Local Abbreviation writes := (λ s : State image, Spec.progress_writes (updates s) tid).

Lemma update_writes u (st st' : State image) :
  update tid u st = (Ok tt, st') →
  writes st' = writes st ++ option_list (set_progress u).
Proof.
  unfold update. destruct (processing_tasks st !! tid); [|done].
  intros [= <-]. simpl. apply progress_writes_snoc.
Qed.

Lemma submit_all_updates subs (st : State image) :
  updates (submit_all env subs st).2 = updates st.
Proof.
  apply (submit_all_preserves env (λ s, updates s = updates st)); [|done].
  intros sub s Hs. unfold with_cache. by destruct (process_batch_photos _ _ _ _).
Qed.

Lemma screening_loop_writes photo_paths total batch_size starts :
  ∀ k acc (st : State image) qr st',
    screening_loop env tid photo_paths total batch_size k starts acc st = (Ok qr, st') →
    writes st' = writes st ++ Laws.screening_values total batch_size starts.
Proof.
  induction starts as [|i starts IH]; intros k acc st qr st'; simpl.
  - intros [= _ <-]. by rewrite app_nil_r.
  - intros H. apply bind_ok_inv in H as (qr1 & st1 & Hstep & H).
    apply IH in H. rewrite H. unfold Laws.screening_values in *.
    rewrite cons_middle, (assoc_L (++)). f_equal.
    unfold screening_step in Hstep.
    apply bind_ok_inv in Hstep as ([] & s1 & Hu & Hstep).
    apply bind_ok_inv in Hstep as ([] & s2 & Hw & Hstep).
    apply bind_ok_inv in Hstep as (ss & s3 & Hr & Hstep).
    apply bind_ok_inv in Hstep as (futures & s4 & Hf & Hstep).
    injection Hstep as _ <-. injection Hr as _ <-.
    assert (s2 = s1) as -> by (destruct (_ <=? 0); [done|by injection Hw]).
    apply update_writes in Hu. simpl in Hu.
    pose proof (submit_all_updates
                  ((λ j, slice (slice photo_paths i (i + batch_size)) j
                           (j + Z.max 1 (batch_size `div` Config.MAX_WORKERS (cfg env))))
                     <$> ss) s1) as Hs.
    rewrite Hf in Hs. simpl in Hs. by rewrite Hs.
Qed.

Lemma indexing_loop_writes qualified sbs starts : ∀ n (st : State image) n' st',
  indexing_loop env tid qualified sbs starts n st = (Ok n', st') →
  writes st' = writes st ++ Laws.indexing_values qualified sbs starts.
Proof.
  induction starts as [|i starts IH]; intros n st n' st'; simpl.
  - intros [= _ <-]. by rewrite app_nil_r.
  - intros H. apply bind_ok_inv in H as (n1 & st1 & Hstep & H).
    apply IH in H. rewrite H. unfold Laws.indexing_values in *.
    rewrite cons_middle, (assoc_L (++)). f_equal.
    unfold indexing_step in Hstep.
    apply bind_ok_inv in Hstep as (m & s1 & Hidx & Hstep).
    apply bind_ok_inv in Hstep as ([] & s2 & Hu & Hstep).
    injection Hstep as _ <-.
    apply update_writes in Hu. simpl in Hu. rewrite Hu. f_equal.
    unfold with_store in Hidx. destruct (index_photos _ _ _ _). by injection Hidx as _ <-.
Qed.

Local Abbreviation scan_of folder :=
  (Scanner.get_image_files (platform env) (listdir env folder) folder).

(** The progress values a run writes when its [try] block returns on a
    scan that found something. *)
Lemma background_body_writes folder (st st' : State image) :
  background_body env tid folder st = (Ok tt, st') →
  scan_of folder ≠ [] →
  ∃ starts qr starts_q j rd,
    range (len (scan_of folder)) (Config.BATCH_SIZE (cfg env)) = Ok starts
    ∧ (Laws.qualified_of qr = [] ∧ starts_q = []
       ∨ Laws.qualified_of qr ≠ []
         ∧ range (len (Laws.qualified_of qr)) (Config.SEARCH_BATCH_SIZE (cfg env))
           = Ok starts_q)
    ∧ processing_tasks st' !! tid = Some j
    ∧ result j = Some rd
    ∧ qualified_photos rd = len (Laws.qualified_of qr)
    ∧ writes st'
      = writes st ++ [0]
        ++ Laws.screening_values (len (scan_of folder)) (Config.BATCH_SIZE (cfg env))
             starts
        ++ Laws.indexing_values (Laws.qualified_of qr)
             (Config.SEARCH_BATCH_SIZE (cfg env)) starts_q
        ++ [100].
Proof.
  intros Hb Hscan. unfold background_body in Hb.
  apply bind_ok_inv in Hb as ([] & st2 & Hu1 & Hb).
  destruct (len _ =? 0) eqn:Htotal.
  { apply Z.eqb_eq in Htotal. unfold len in Htotal.
    destruct (scan_of folder); [done|simpl in Htotal; lia]. }
  apply bind_ok_inv in Hb as ([] & st3 & Hu2 & Hb).
  apply bind_ok_inv in Hb as (starts & st4 & Hr & Hb).
  apply bind_ok_inv in Hb as (qr & st5 & Hqr & Hb).
  apply bind_ok_inv in Hb as ([] & st6 & Hcl & Hb).
  apply bind_ok_inv in Hb as (n & st7 & Hix & Hb).
  apply bind_ok_inv in Hb as ([] & st8 & Hg & Hb).
  injection Hr as Hr <-.
  apply update_writes in Hu1, Hu2. simpl in Hu1, Hu2.
  apply screening_loop_writes in Hqr.
  assert (writes st6 = writes st5) as Hw6.
  { unfold with_cache in Hcl. simpl in Hcl. by injection Hcl as <-. }
  fold (Laws.qualified_of qr) in Hix, Hg, Hb.
  assert (∃ starts_q,
            (Laws.qualified_of qr = [] ∧ starts_q = []
             ∨ Laws.qualified_of qr ≠ []
               ∧ range (len (Laws.qualified_of qr)) (Config.SEARCH_BATCH_SIZE (cfg env))
                 = Ok starts_q)
            ∧ writes st7
              = writes st6 ++ Laws.indexing_values (Laws.qualified_of qr)
                                (Config.SEARCH_BATCH_SIZE (cfg env)) starts_q)
    as (starts_q & Hsq & Hw7).
  { destruct (Laws.qualified_of qr) as [|q0 qs] eqn:Hq.
    - injection Hix as _ <-. exists []. split; [by left|]. by rewrite app_nil_r.
    - apply bind_ok_inv in Hix as ([] & s1 & Hu & Hix).
      apply bind_ok_inv in Hix as (ss & s2 & Hr' & Hix).
      injection Hr' as Hr' <-.
      apply update_writes in Hu. simpl in Hu. rewrite app_nil_r in Hu.
      apply indexing_loop_writes in Hix.
      exists ss. split; [by right|]. by rewrite Hix, Hu. }
  injection Hg as <-.
  pose proof (update_inv tid _ _ _ Hb) as (j & _ & Hj & _).
  apply update_writes in Hb. simpl in Hb.
  do 5 eexists. split_and!; [exact Hr|exact Hsq|exact Hj|done|done|].
  rewrite Hb, Hw7, Hw6, Hqr, Hu2, Hu1. simpl. rewrite app_nil_r.
  by rewrite <- !app_assoc.
Qed.

End run_writes.

Lemma screening_values_facts (total batch_size : Z) (starts : list Z) :
  0 < batch_size → 0 < total → range total batch_size = Ok starts →
  StronglySorted Z.le (Laws.screening_values total batch_size starts)
  ∧ Forall (λ p, 0 ≤ p ≤ 100) (Laws.screening_values total batch_size starts)
  ∧ last (Laws.screening_values total batch_size starts) = Some 100.
Proof.
  intros Hbs Htotal Hr.
  destruct (range_sorted _ _ _ Hbs Hr) as (Hsorted & Hbounds & Hlast).
  unfold Laws.screening_values. split_and!.
  - apply map_sorted; [done|by eapply Forall_impl; [exact Hbounds|]; simpl; lia|].
    intros a b Ha Hab. apply screening_progress_mono; lia.
  - apply Forall_fmap. eapply Forall_impl; [exact Hbounds|]. simpl. intros i Hi.
    apply screening_progress_range; lia.
  - rewrite fmap_last.
    destruct (range_head _ _ _ Hbs Htotal Hr) as (rest & -> & _).
    destruct (last (0 :: rest)) as [i|] eqn:Hl; [|by apply last_None in Hl].
    unfold fmap, option_fmap, option_map. f_equal. specialize (Hlast i eq_refl).
    replace (Z.min (i + batch_size) total) with total by lia.
    by apply screening_progress_full.
Qed.

Lemma indexing_values_facts (qualified : list string) (sbs : Z) (starts : list Z) :
  0 < sbs → qualified ≠ [] → range (len qualified) sbs = Ok starts →
  StronglySorted Z.le (Laws.indexing_values qualified sbs starts)
  ∧ Forall (λ p, 70 ≤ p ≤ 100) (Laws.indexing_values qualified sbs starts)
  ∧ (len qualified ≤ sbs → Laws.indexing_values qualified sbs starts = [100])
  ∧ (sbs < len qualified →
     ∃ p rest, Laws.indexing_values qualified sbs starts = p :: rest ∧ p < 100).
Proof.
  intros Hsbs Hq Hr.
  assert (0 < len qualified) as Hn.
  { unfold len. destruct qualified; [done|simpl; lia]. }
  destruct (range_sorted _ _ _ Hsbs Hr) as (Hsorted & Hbounds & _).
  assert (Laws.indexing_values qualified sbs starts
          = (λ i, 70 + Pipeline.indexing_progress (Z.min (i + sbs) (len qualified))
                         (len qualified)) <$> starts) as Hform.
  { unfold Laws.indexing_values. apply Forall_fmap_ext.
    eapply Forall_impl; [exact Hbounds|]. simpl. intros i Hi.
    by rewrite slice_end by lia. }
  split_and!; [rewrite Hform|rewrite Hform|rewrite Hform| ].
  - apply map_sorted; [done|by eapply Forall_impl; [exact Hbounds|]; simpl; lia|].
    intros a b Ha Hab.
    pose proof (indexing_progress_mono (Z.min (a + sbs) (len qualified))
                  (Z.min (b + sbs) (len qualified)) (len qualified)). lia.
  - apply Forall_fmap. eapply Forall_impl; [exact Hbounds|]. simpl. intros i Hi.
    pose proof (indexing_progress_range (Z.min (i + sbs) (len qualified))
                  (len qualified)). lia.
  - intros Hfit. rewrite (range_single _ _ Hn Hfit) in Hr. injection Hr as <-.
    simpl. replace (Z.min (0 + sbs) (len qualified)) with (len qualified) by lia.
    by rewrite indexing_progress_full.
  - intros Hmore. destruct (range_head _ _ _ Hsbs Hn Hr) as (rest & -> & _).
    do 2 eexists. split; [rewrite Hform, fmap_cons; reflexivity|]. simpl.
    replace (Z.min (0 + sbs) (len qualified)) with (0 + sbs) by lia.
    pose proof (indexing_progress_partial (0 + sbs) (len qualified) Hn
                  ltac:(lia) ltac:(lia)). lia.
Qed.

Lemma sorted_within (lo hi : Z) (l : list Z) :
  lo ≤ hi → StronglySorted Z.le l → Forall (λ p, lo ≤ p ≤ hi) l →
  StronglySorted Z.le ([lo] ++ l ++ [hi]).
Proof.
  intros Hlh Hs Hall. apply StronglySorted_app_2.
  - intros x y ->%list_elem_of_singleton [Hy| ->%list_elem_of_singleton]%elem_of_app; [|done].
    by eapply Forall_forall in Hall as [? ?].
  - repeat constructor.
  - apply StronglySorted_app_2; [|done|repeat constructor].
    intros x y Hx ->%list_elem_of_singleton. by eapply Forall_forall in Hall as [? ?].
Qed.

(** X26: the progress of a completed run goes backwards exactly when the
    qualified photos do not fit into one indexing chunk.  With positive
    batch sizes, the progress values a completed run writes are 0, then the
    values of the screening pass, which never decrease and end at 100, then
    the values of the indexing pass, which never decrease and lie between
    70 and 100, then 100; the whole sequence is non-decreasing if and only
    if the number of qualified photos is at most [SEARCH_BATCH_SIZE]. *)
Theorem progress_regresses_exactly_when_chunked {image : Type}
    (env : Pipeline.Env image) (tid folder : string) (st st' : Pipeline.State image)
    (j' : Pipeline.Job) (rd : Pipeline.ResultData) :
  0 < Config.BATCH_SIZE (Pipeline.cfg env) →
  0 < Config.SEARCH_BATCH_SIZE (Pipeline.cfg env) →
  Pipeline.background_processing env tid folder st = (Ok tt, st') →
  Pipeline.processing_tasks st' !! tid = Some j' →
  Pipeline.status j' = Pipeline.completed →
  Pipeline.result j' = Some rd →
  ∃ screening indexing,
    Spec.progress_writes (Pipeline.updates st') tid
    = Spec.progress_writes (Pipeline.updates st) tid
      ++ [0] ++ screening ++ indexing ++ [100]
    ∧ Spec.non_decreasing screening ∧ last screening = Some 100
    ∧ Spec.non_decreasing indexing ∧ Forall (λ p, 70 ≤ p ≤ 100) indexing
    ∧ (Spec.non_decreasing ([0] ++ screening ++ indexing ++ [100])
       ↔ Pipeline.qualified_photos rd ≤ Config.SEARCH_BATCH_SIZE (Pipeline.cfg env)).
Proof.
  intros Hbs Hsbs Hrun Hj Hdone Hrd.
  destruct (completed_run_inv env tid folder st st' j' Hrun Hj Hdone) as [Hb Hscan].
  destruct (background_body_writes env tid folder st st' Hb Hscan)
    as (starts & qr & starts_q & j & rd' & Hr & Hsq & Hj2 & Hrd2 & Hcount & Hw).
  rewrite Hj in Hj2. injection Hj2 as <-. rewrite Hrd in Hrd2. injection Hrd2 as <-.
  assert (0 < len (Scanner.get_image_files (Pipeline.platform env)
                     (Pipeline.listdir env folder) folder)) as Htotal.
  { unfold len. destruct (Scanner.get_image_files _ _ _); [done|simpl; lia]. }
  destruct (screening_values_facts _ _ _ Hbs Htotal Hr) as (HS & HSr & HSl).
  set (S := Laws.screening_values _ _ starts) in *.
  set (I := Laws.indexing_values _ _ starts_q) in *.
  assert (StronglySorted Z.le I ∧ Forall (λ p, 70 ≤ p ≤ 100) I
          ∧ (Pipeline.qualified_photos rd ≤ Config.SEARCH_BATCH_SIZE (Pipeline.cfg env)
             → I = [] ∨ I = [100])
          ∧ (Config.SEARCH_BATCH_SIZE (Pipeline.cfg env) < Pipeline.qualified_photos rd
             → ∃ p rest, I = p :: rest ∧ p < 100)) as (HI & HIr & Hfit & Hmore).
  { rewrite Hcount. destruct Hsq as [[Hq ->]|[Hq Hrq]].
    - subst I. unfold Laws.indexing_values. simpl. rewrite Hq.
      split_and!; [constructor|constructor|by left|]. unfold len. simpl. lia.
    - destruct (indexing_values_facts _ _ _ Hsbs Hq Hrq) as (H1 & H2 & H3 & H4).
      split_and!; [done|done|by right; apply H3|done]. }
  exists S, I. split_and!; [done|by apply StronglySorted_Sorted|done
                           |by apply StronglySorted_Sorted|done|].
  split.
  - intros Hsorted.
    destruct (Z.le_gt_cases (Pipeline.qualified_photos rd)
                (Config.SEARCH_BATCH_SIZE (Pipeline.cfg env))) as [|Hgt]; [done|].
    destruct (Hmore Hgt) as (p & rest & HIeq & Hp).
    apply (Sorted_StronglySorted _ _) in Hsorted.
    apply StronglySorted_app_1_r in Hsorted.
    rewrite (assoc_L (++)) in Hsorted. apply StronglySorted_app_1_l in Hsorted.
    pose proof (StronglySorted_app_1_elem_of _ _ _ 100 p Hsorted) as Hle.
    rewrite HIeq in Hle. specialize (Hle (last_Some_elem_of _ _ HSl) (list_elem_of_here _ _)).
    lia.
  - intros Hle. apply StronglySorted_Sorted.
    destruct (Hfit Hle) as [-> | ->].
    + rewrite app_nil_l. by apply sorted_within.
    + rewrite (assoc_L (++) S [100] [100]), (assoc_L (++) [0]).
      apply StronglySorted_app_2; [|by apply sorted_within|repeat constructor].
      intros x y Hx ->%list_elem_of_singleton.
      apply elem_of_app in Hx as [->%list_elem_of_singleton|Hx]; [done|].
      apply elem_of_app in Hx as [Hx| ->%list_elem_of_singleton]; [|done].
      by eapply Forall_forall in HSr as [? ?].
Qed.

(** X26 on scenario A, whose two qualified photos fit into one chunk: the
    progress never goes backwards. *)
Lemma progress_regresses_exactly_when_chunked_witness :
  ∃ screening indexing,
    Spec.progress_writes (Pipeline.updates Scenario.finished_A) "1700000000123"
    = Spec.progress_writes (Pipeline.updates Scenario.submitted_A) "1700000000123"
      ++ [0] ++ screening ++ indexing ++ [100]
    ∧ Spec.non_decreasing ([0] ++ screening ++ indexing ++ [100]).
Proof.
  destruct (progress_regresses_exactly_when_chunked Scenario.env_A "1700000000123"
              "pics" Scenario.submitted_A Scenario.finished_A Scenario.job_A
              Cases.result_A)
    as (screening & indexing & Hw & _ & _ & _ & _ & Hiff);
    [reflexivity|reflexivity|vm_compute; reflexivity|vm_compute; reflexivity
    |vm_compute; reflexivity|vm_compute; reflexivity|].
  exists screening, indexing. split; [exact Hw|]. apply Hiff. by vm_compute.
Defined.
